(** * Render-command queueing and triangle batching (cocos/renderer/CCRenderer.cpp)

    A shallow embedding of [RenderQueue] and [Renderer] and the properties of
    the queueing, sweeping and batching code. The staging arrays that
    [fillVerticesAndIndices] writes, the buffers of the GLES2 backend
    (cocos/renderer/gfx-gles2/GLES2Buffer.cc) and the extension test of the
    GLES3 device (cocos/renderer/gfx-gles3/GLES3Device.h) follow, each with
    its own conventions.

    Conventions.
    - C++ [int], [ssize_t] and [GLsizei] values are [Z]; none of the modelled
      computations leaves the 32-bit range for the staging capacities used.
    - Assertions ([CCASSERT], [CC_ASSERT]) are modelled as they behave in a
      development build: a failing assertion ends the run with [Abort].
    - Indexing a [std::vector] out of range, or [top()] of an empty stack, is
      undefined in C++; the model ends the run with [Undefined].
    - Recursion through group commands is bounded by a fuel argument; a run
      that exhausts it ends with [OutOfFuel]. *)

From Stdlib Require Import ZArith Lia Bool List Sorting.Sorted Sorting.Permutation.
From stdpp Require Import base option list strings relations.

Open Scope Z_scope.

(** ** Outcome of a run *)

Inductive outcome (A : Type) : Type :=
| Done (a : A)
| Abort (msg : string)
| Undefined
| OutOfFuel.
Arguments Done {A} a.
Arguments Abort {A} msg.
Arguments Undefined {A}.
Arguments OutOfFuel {A}.

#[global] Instance outcome_ret : MRet outcome := fun A a => Done a.
#[global] Instance outcome_bind : MBind outcome := fun A B f m =>
  match m with
  | Done a => f a
  | Abort msg => Abort msg
  | Undefined => Undefined
  | OutOfFuel => OutOfFuel
  end.

(** [CCASSERT(cond, msg)] *)
Definition CCASSERT (cond : bool) (msg : string) : outcome unit :=
  if cond then Done tt else Abort msg.

(** A loop over a vector, threading the state and stopping at the first
    run that does not complete. *)
Fixpoint for_each {A S : Type} (body : A → S → outcome S) (l : list A) (s : S)
  : outcome S :=
  match l with
  | [] => Done s
  | x :: rest => s' ← body x s; for_each body rest s'
  end.

(** ** Commands *)

(** The global order is a C++ [float]. Only its comparisons with [<] and [>]
    are used by the code; a float is modelled by [NaN], for which every
    comparison is false, or by a number, ordered as the integers are. *)
Inductive float : Type :=
| NaN
| Num (x : Z).

Definition float_ltb (a b : float) : bool :=
  match a, b with
  | Num x, Num y => x <? y
  | _, _ => false
  end.

Definition float_zero : float := Num 0.

(** IEEE [<=], used to state that keys are non-decreasing. *)
Definition float_le (a b : float) : Prop :=
  match a, b with
  | Num x, Num y => x <= y
  | _, _ => False
  end.

Inductive CommandType : Type :=
| UNKNOWN_COMMAND
| TRIANGLES_COMMAND
| GROUP_COMMAND
| CUSTOM_COMMAND
| BATCH_COMMAND
| PRIMITIVE_COMMAND.

#[global] Instance CommandType_eq_dec : EqDecision CommandType.
Proof. solve_decision. Defined.

(** A triangles command: what the batching code reads of it. [tri_name]
    stands for the address of the command object. [materialID] is the
    identifier as the [int] the scan keeps in [prevMaterialID]: of an
    unsigned 32-bit identifier, the value [0xFFFFFFFF] is [-1] here. The
    vertex and index payloads are copied to the staging arrays by
    [fillVerticesAndIndices]; the code below decides on the counts only. *)
Record TrianglesCommand : Type := mkTriangles {
  tri_name : nat;
  tri_globalOrder : float;
  materialID : Z;
  skipBatching : bool;
  vertexCount : Z;
  indexCount : Z
}.

Inductive RenderCommand : Type :=
| Unknown (name : nat) (order : float)
| Triangles (cmd : TrianglesCommand)
| Group (name : nat) (order : float) (renderQueueID : Z)
| Custom (name : nat) (order : float)
| Batch (name : nat) (order : float)
| Primitive (name : nat) (order : float).

Definition getType (c : RenderCommand) : CommandType :=
  match c with
  | Unknown _ _ => UNKNOWN_COMMAND
  | Triangles _ => TRIANGLES_COMMAND
  | Group _ _ _ => GROUP_COMMAND
  | Custom _ _ => CUSTOM_COMMAND
  | Batch _ _ => BATCH_COMMAND
  | Primitive _ _ => PRIMITIVE_COMMAND
  end.

Definition getGlobalOrder (c : RenderCommand) : float :=
  match c with
  | Unknown _ o => o
  | Triangles t => tri_globalOrder t
  | Group _ o _ => o
  | Custom _ o => o
  | Batch _ o => o
  | Primitive _ o => o
  end.

(** [compareRenderCommand] *)
Definition compareRenderCommand (a b : RenderCommand) : bool :=
  float_ltb (getGlobalOrder a) (getGlobalOrder b).

(** ** The GL context *)

Record GLFlags : Type := mkFlags {
  GL_DEPTH_TEST : bool;
  GL_CULL_FACE : bool;
  GL_DEPTH_WRITEMASK : bool;
  GL_BLEND : bool
}.

Inductive BufferTarget : Type :=
| GL_ARRAY_BUFFER
| GL_ELEMENT_ARRAY_BUFFER.

(** The calls the renderer issues that matter for the draw order. The size
    given to [glBufferData] is kept as a number of elements. *)
Inductive GLCall : Type :=
| glBufferData (target : BufferTarget) (elements : Z)
| useMaterial (cmd : TrianglesCommand)
| glDrawElements (count : Z) (byteOffset : Z)
| execute (cmd : RenderCommand).

Record GLState : Type := mkGL {
  flags : GLFlags;
  calls : list GLCall
}.

Definition glEnableDepthTest (b : bool) (g : GLState) : GLState :=
  mkGL (mkFlags b (GL_CULL_FACE (flags g)) (GL_DEPTH_WRITEMASK (flags g))
          (GL_BLEND (flags g))) (calls g).
Definition glEnableCullFace (b : bool) (g : GLState) : GLState :=
  mkGL (mkFlags (GL_DEPTH_TEST (flags g)) b (GL_DEPTH_WRITEMASK (flags g))
          (GL_BLEND (flags g))) (calls g).
Definition glDepthMask (b : bool) (g : GLState) : GLState :=
  mkGL (mkFlags (GL_DEPTH_TEST (flags g)) (GL_CULL_FACE (flags g)) b
          (GL_BLEND (flags g))) (calls g).
Definition glEnableBlend (b : bool) (g : GLState) : GLState :=
  mkGL (mkFlags (GL_DEPTH_TEST (flags g)) (GL_CULL_FACE (flags g))
          (GL_DEPTH_WRITEMASK (flags g)) b) (calls g).
Definition glCall (c : GLCall) (g : GLState) : GLState :=
  mkGL (flags g) (calls g ++ [c]).

(** ** What the renderer takes from outside this file *)

(** The staging capacities [VBO_SIZE] and [INDEX_VBO_SIZE] are constants of
    the class declaration; [scaleCapacity] is the truncated double-precision
    product [capacity * 1.4]; [std_sort] is the C++ library's [std::sort];
    [executeEffect] is what a custom, batch or primitive command's own
    [execute()] does to the GL flags. *)
Class Platform : Type := {
  VBO_SIZE : Z;
  INDEX_VBO_SIZE : Z;
  scaleCapacity : Z → Z;
  std_sort : (RenderCommand → RenderCommand → bool) →
             list RenderCommand → list RenderCommand;
  executeEffect : RenderCommand → GLFlags → GLFlags
}.

(** ** RenderQueue *)

(** The five sub-queues, named after [QUEUE_GROUP], and the saved state. *)
Record RenderQueue : Type := mkQueue {
  GLOBALZ_NEG : list RenderCommand;
  OPAQUE_3D : list RenderCommand;
  TRANSPARENT_3D : list RenderCommand;
  GLOBALZ_ZERO : list RenderCommand;
  GLOBALZ_POS : list RenderCommand;
  _isDepthEnabled : bool;
  _isCullEnabled : bool;
  _isDepthWrite : bool
}.

Definition emptyQueue : RenderQueue :=
  mkQueue [] [] [] [] [] false false false.

(** Modelled from the spec: the numbering of [QUEUE_GROUP], declared in the
    header: NegativeZ, Opaque3D, Transparent3D, ZeroZ, PositiveZ, which is
    also the order in which [visitRenderQueue] sweeps them. *)
Definition _commands (q : RenderQueue) : list (list RenderCommand) :=
  [GLOBALZ_NEG q; OPAQUE_3D q; TRANSPARENT_3D q; GLOBALZ_ZERO q; GLOBALZ_POS q].

Definition with_NEG (l : list RenderCommand) (q : RenderQueue) : RenderQueue :=
  mkQueue l (OPAQUE_3D q) (TRANSPARENT_3D q) (GLOBALZ_ZERO q) (GLOBALZ_POS q)
    (_isDepthEnabled q) (_isCullEnabled q) (_isDepthWrite q).
Definition with_ZERO (l : list RenderCommand) (q : RenderQueue) : RenderQueue :=
  mkQueue (GLOBALZ_NEG q) (OPAQUE_3D q) (TRANSPARENT_3D q) l (GLOBALZ_POS q)
    (_isDepthEnabled q) (_isCullEnabled q) (_isDepthWrite q).
Definition with_POS (l : list RenderCommand) (q : RenderQueue) : RenderQueue :=
  mkQueue (GLOBALZ_NEG q) (OPAQUE_3D q) (TRANSPARENT_3D q) (GLOBALZ_ZERO q) l
    (_isDepthEnabled q) (_isCullEnabled q) (_isDepthWrite q).

Module RenderQueue.

Definition push_back (command : RenderCommand) (q : RenderQueue) : RenderQueue :=
  let z := getGlobalOrder command in
  if float_ltb z float_zero then with_NEG (GLOBALZ_NEG q ++ [command]) q
  else if float_ltb float_zero z then with_POS (GLOBALZ_POS q ++ [command]) q
  else with_ZERO (GLOBALZ_ZERO q ++ [command]) q.

Definition size (q : RenderQueue) : Z :=
  fold_left (fun result sub => result + Z.of_nat (length sub)) (_commands q) 0.

Definition sort `{Platform} (q : RenderQueue) : RenderQueue :=
  let q := with_NEG (std_sort compareRenderCommand (GLOBALZ_NEG q)) q in
  with_POS (std_sort compareRenderCommand (GLOBALZ_POS q)) q.

(** [v[index]] on a vector. *)
Definition at_ {A : Type} (v : list A) (index : Z) : outcome A :=
  if index <? 0 then Undefined
  else match v !! Z.to_nat index with
       | Some x => Done x
       | None => Undefined
       end.

(** The loop of [operator[]] over the sub-queues still to be looked at. *)
Fixpoint index_loop (subs : list (list RenderCommand)) (index : Z)
  : outcome RenderCommand :=
  match subs with
  | [] => Abort "invalid index"
  | sub :: rest =>
      if index <? Z.of_nat (length sub) then at_ sub index
      else index_loop rest (index - Z.of_nat (length sub))
  end.

(** [operator[]] *)
Definition index (q : RenderQueue) (i : Z) : outcome RenderCommand :=
  index_loop (_commands q) i.

Definition clear (q : RenderQueue) : RenderQueue :=
  mkQueue [] [] [] [] [] (_isDepthEnabled q) (_isCullEnabled q) (_isDepthWrite q).

Definition saveRenderState (g : GLState) (q : RenderQueue) : RenderQueue :=
  mkQueue (GLOBALZ_NEG q) (OPAQUE_3D q) (TRANSPARENT_3D q) (GLOBALZ_ZERO q)
    (GLOBALZ_POS q)
    (GL_DEPTH_TEST (flags g)) (GL_CULL_FACE (flags g))
    (GL_DEPTH_WRITEMASK (flags g)).

Definition restoreRenderState (q : RenderQueue) (g : GLState) : GLState :=
  let g := glEnableCullFace (_isCullEnabled q) g in
  let g := glEnableDepthTest (_isDepthEnabled q) g in
  glDepthMask (_isDepthWrite q) g.

End RenderQueue.

(** ** Renderer *)

(** One entry of [_triBatchesToDraw]; [batch_cmd] is [None] for [nullptr]. *)
Record TriBatchToDraw : Type := mkBatch {
  batch_cmd : option TrianglesCommand;
  indicesToDraw : Z;
  offset : Z
}.

(** [_triBatchesToDraw] is a heap block of [_triBatchesToDrawCapacity]
    entries; it is modelled as the map from an index to the entry stored
    there, and [capacity_respected] below states that the code only ever
    writes below the capacity. *)
Record Renderer : Type := mkRenderer {
  _renderGroups : list RenderQueue;
  _commandGroupStack : list Z;
  _isRendering : bool;
  _glViewAssigned : bool;
  _isDepthTestFor2D : bool;
  _queuedTriangleCommands : list TrianglesCommand;
  _filledVertex : Z;
  _filledIndex : Z;
  _triBatchesToDraw : Z → TriBatchToDraw;
  _triBatchesToDrawCapacity : Z;
  _drawnBatches : Z;
  _drawnVertices : Z;
  gl : GLState;
  errorLog : list string
}.

Definition set_renderGroups (v : list RenderQueue) (r : Renderer) : Renderer :=
  mkRenderer v (_commandGroupStack r) (_isRendering r) (_glViewAssigned r)
    (_isDepthTestFor2D r) (_queuedTriangleCommands r) (_filledVertex r)
    (_filledIndex r) (_triBatchesToDraw r) (_triBatchesToDrawCapacity r)
    (_drawnBatches r) (_drawnVertices r) (gl r) (errorLog r).
Definition set_commandGroupStack (v : list Z) (r : Renderer) : Renderer :=
  mkRenderer (_renderGroups r) v (_isRendering r) (_glViewAssigned r)
    (_isDepthTestFor2D r) (_queuedTriangleCommands r) (_filledVertex r)
    (_filledIndex r) (_triBatchesToDraw r) (_triBatchesToDrawCapacity r)
    (_drawnBatches r) (_drawnVertices r) (gl r) (errorLog r).
Definition set_isRendering (v : bool) (r : Renderer) : Renderer :=
  mkRenderer (_renderGroups r) (_commandGroupStack r) v (_glViewAssigned r)
    (_isDepthTestFor2D r) (_queuedTriangleCommands r) (_filledVertex r)
    (_filledIndex r) (_triBatchesToDraw r) (_triBatchesToDrawCapacity r)
    (_drawnBatches r) (_drawnVertices r) (gl r) (errorLog r).
Definition set_queuedTriangleCommands (v : list TrianglesCommand) (r : Renderer)
  : Renderer :=
  mkRenderer (_renderGroups r) (_commandGroupStack r) (_isRendering r)
    (_glViewAssigned r) (_isDepthTestFor2D r) v (_filledVertex r)
    (_filledIndex r) (_triBatchesToDraw r) (_triBatchesToDrawCapacity r)
    (_drawnBatches r) (_drawnVertices r) (gl r) (errorLog r).
Definition set_filled (vertex index : Z) (r : Renderer) : Renderer :=
  mkRenderer (_renderGroups r) (_commandGroupStack r) (_isRendering r)
    (_glViewAssigned r) (_isDepthTestFor2D r) (_queuedTriangleCommands r)
    vertex index (_triBatchesToDraw r) (_triBatchesToDrawCapacity r)
    (_drawnBatches r) (_drawnVertices r) (gl r) (errorLog r).
Definition set_triBatchesToDraw (v : Z → TriBatchToDraw) (r : Renderer)
  : Renderer :=
  mkRenderer (_renderGroups r) (_commandGroupStack r) (_isRendering r)
    (_glViewAssigned r) (_isDepthTestFor2D r) (_queuedTriangleCommands r)
    (_filledVertex r) (_filledIndex r) v (_triBatchesToDrawCapacity r)
    (_drawnBatches r) (_drawnVertices r) (gl r) (errorLog r).
Definition set_triBatchesToDrawCapacity (v : Z) (r : Renderer) : Renderer :=
  mkRenderer (_renderGroups r) (_commandGroupStack r) (_isRendering r)
    (_glViewAssigned r) (_isDepthTestFor2D r) (_queuedTriangleCommands r)
    (_filledVertex r) (_filledIndex r) (_triBatchesToDraw r) v
    (_drawnBatches r) (_drawnVertices r) (gl r) (errorLog r).
Definition set_drawn (batches vertices : Z) (r : Renderer) : Renderer :=
  mkRenderer (_renderGroups r) (_commandGroupStack r) (_isRendering r)
    (_glViewAssigned r) (_isDepthTestFor2D r) (_queuedTriangleCommands r)
    (_filledVertex r) (_filledIndex r) (_triBatchesToDraw r)
    (_triBatchesToDrawCapacity r) batches vertices (gl r) (errorLog r).
Definition set_gl (v : GLState) (r : Renderer) : Renderer :=
  mkRenderer (_renderGroups r) (_commandGroupStack r) (_isRendering r)
    (_glViewAssigned r) (_isDepthTestFor2D r) (_queuedTriangleCommands r)
    (_filledVertex r) (_filledIndex r) (_triBatchesToDraw r)
    (_triBatchesToDrawCapacity r) (_drawnBatches r) (_drawnVertices r) v
    (errorLog r).
Definition set_errorLog (v : list string) (r : Renderer) : Renderer :=
  mkRenderer (_renderGroups r) (_commandGroupStack r) (_isRendering r)
    (_glViewAssigned r) (_isDepthTestFor2D r) (_queuedTriangleCommands r)
    (_filledVertex r) (_filledIndex r) (_triBatchesToDraw r)
    (_triBatchesToDrawCapacity r) (_drawnBatches r) (_drawnVertices r) (gl r) v.

(** [_triBatchesToDraw[i] = b] *)
Definition store (i : Z) (b : TriBatchToDraw) (a : Z → TriBatchToDraw)
  : Z → TriBatchToDraw :=
  fun j => if j =? i then b else a j.

Definition DEFAULT_RENDER_QUEUE : Z := 0.

(** The value the batching loop uses for "no material". The material
    identifier of a command is compared with it and overwritten by it, as the
    source does with the literal [-1]. *)
Definition NO_MATERIAL : Z := -1.

(** Size of one entry of the index staging array ([GL_UNSIGNED_SHORT]). *)
Definition sizeof_index : Z := 2.

(** [(int)] applied to a [size_t]. *)
Definition int_cast (z : Z) : Z := (z + 2 ^ 31) mod 2 ^ 32 - 2 ^ 31.

(** The locals of the scan in [drawBatchedTriangles]. *)
Record BatchScan : Type := mkScan {
  batchesTotal : Z;
  prevMaterialID : Z;
  firstCommand : bool
}.

Module Renderer.
Section WithPlatform.
Context `{Platform}.

(** The constructor. *)
Definition new (ambient : GLState) : Renderer :=
  mkRenderer [emptyQueue] [DEFAULT_RENDER_QUEUE] false false false [] 0 0
    (fun _ => mkBatch None 0 0) 500 0 0 ambient [].

Definition initGLView (r : Renderer) : Renderer :=
  mkRenderer (_renderGroups r) (_commandGroupStack r) (_isRendering r) true
    (_isDepthTestFor2D r) (_queuedTriangleCommands r) (_filledVertex r)
    (_filledIndex r) (_triBatchesToDraw r) (_triBatchesToDrawCapacity r)
    (_drawnBatches r) (_drawnVertices r) (gl r) (errorLog r).

(** [addCommand(command, renderQueue)] *)
Definition addCommandTo (command : RenderCommand) (renderQueue : Z) (r : Renderer)
  : outcome Renderer :=
  _ ← CCASSERT (negb (_isRendering r)) "Cannot add command while rendering";
  _ ← CCASSERT (0 <=? renderQueue) "Invalid render queue";
  _ ← CCASSERT (negb (bool_decide (getType command = UNKNOWN_COMMAND)))
        "Invalid Command Type";
  q ← RenderQueue.at_ (_renderGroups r) renderQueue;
  Done (set_renderGroups
          (<[Z.to_nat renderQueue := RenderQueue.push_back command q]>
             (_renderGroups r)) r).

(** [addCommand(command)] *)
Definition addCommand (command : RenderCommand) (r : Renderer) : outcome Renderer :=
  match _commandGroupStack r with
  | [] => Undefined
  | renderQueue :: _ => addCommandTo command renderQueue r
  end.

Definition pushGroup (renderQueueID : Z) (r : Renderer) : outcome Renderer :=
  _ ← CCASSERT (negb (_isRendering r)) "Cannot change render queue while rendering";
  Done (set_commandGroupStack (renderQueueID :: _commandGroupStack r) r).

Definition popGroup (r : Renderer) : outcome Renderer :=
  _ ← CCASSERT (negb (_isRendering r)) "Cannot change render queue while rendering";
  match _commandGroupStack r with
  | [] => Undefined
  | _ :: rest => Done (set_commandGroupStack rest r)
  end.

Definition createRenderQueue (r : Renderer) : Renderer * Z :=
  let r := set_renderGroups (_renderGroups r ++ [emptyQueue]) r in
  (r, int_cast (Z.of_nat (length (_renderGroups r))) - 1).

(** [fillVerticesAndIndices]: the command's vertices, transformed, and its
    indices, rebased by [_filledVertex], go to the staging arrays at the two
    fill positions, which then advance. *)
Definition fillVerticesAndIndices (cmd : TrianglesCommand) (r : Renderer)
  : Renderer :=
  set_filled (_filledVertex r + vertexCount cmd) (_filledIndex r + indexCount cmd) r.

(** The test "in the same batch ?" of the scan. *)
Definition sameBatch (scan : BatchScan) (cmd : TrianglesCommand) : bool :=
  let currentMaterialID := materialID cmd in
  let batchable := negb (skipBatching cmd) in
  batchable && ((prevMaterialID scan =? currentMaterialID) || firstCommand scan).

(** One iteration of the scan of [drawBatchedTriangles]. *)
Definition scanStep (cmd : TrianglesCommand) (st : Renderer * BatchScan)
  : outcome (Renderer * BatchScan) :=
  let r := st.1 in
  let scan := st.2 in
  let currentMaterialID := materialID cmd in
  let batchable := negb (skipBatching cmd) in
  let r := fillVerticesAndIndices cmd r in
  let n := batchesTotal scan in
  let a := _triBatchesToDraw r in
  st ← (if sameBatch scan cmd then
          _ ← (if firstCommand scan then Done tt
               else match batch_cmd (a n) with
                    | None => Undefined
                    | Some c0 =>
                        CCASSERT (materialID c0 =? materialID cmd)
                          "argh... error in logic"
                    end);
          let a := store n (mkBatch (Some cmd)
                              (indicesToDraw (a n) + indexCount cmd)
                              (offset (a n))) a in
          Done (a, n, currentMaterialID)
        else
          let n' := if negb (firstCommand scan) then n + 1 else n in
          let a := if negb (firstCommand scan)
                   then store n' (mkBatch (batch_cmd (a n'))
                                    (indicesToDraw (a n'))
                                    (offset (a (n' - 1))
                                     + indicesToDraw (a (n' - 1)))) a
                   else a in
          let a := store n' (mkBatch (Some cmd) (indexCount cmd) (offset (a n'))) a in
          Done (a, n', if negb batchable then NO_MATERIAL else currentMaterialID));
  let a := st.1.1 in
  let n := st.1.2 in
  let currentMaterialID := st.2 in
  let r := set_triBatchesToDraw a r in
  let r := if n + 1 >=? _triBatchesToDrawCapacity r
           then set_triBatchesToDrawCapacity
                  (scaleCapacity (_triBatchesToDrawCapacity r)) r
           else r in
  Done (r, mkScan n currentMaterialID false).

(** The state in which the scan starts: the fill positions at zero, the
    first entry cleared, and the locals [batchesTotal = 0],
    [prevMaterialID = -1], [firstCommand = true]. *)
Definition scanStart (r : Renderer) : Renderer * BatchScan :=
  let r := set_filled 0 0 r in
  let r := set_triBatchesToDraw
             (store 0 (mkBatch None 0 0) (_triBatchesToDraw r)) r in
  (r, mkScan 0 NO_MATERIAL true).

(** One iteration of the draw loop of [drawBatchedTriangles]. *)
Definition drawStep (i : Z) (r : Renderer) : outcome Renderer :=
  let b := _triBatchesToDraw r i in
  match batch_cmd b with
  | None => Abort "Invalid batch"
  | Some c =>
      let g := glCall (useMaterial c) (gl r) in
      let g := glCall (glDrawElements (indicesToDraw b) (offset b * sizeof_index)) g in
      Done (set_drawn (_drawnBatches r + 1) (_drawnVertices r + indicesToDraw b)
              (set_gl g r))
  end.

Definition drawBatchedTriangles (r : Renderer) : outcome Renderer :=
  match _queuedTriangleCommands r with
  | [] => Done r
  | _ :: _ =>
      st ← for_each scanStep (_queuedTriangleCommands r) (scanStart r);
      let r := st.1 in
      let batchesTotal := batchesTotal st.2 + 1 in
      let g := glCall (glBufferData GL_ARRAY_BUFFER (_filledVertex r)) (gl r) in
      let g := glCall (glBufferData GL_ELEMENT_ARRAY_BUFFER (_filledIndex r)) g in
      let r := set_gl g r in
      r ← for_each drawStep (seqZ 0 batchesTotal) r;
      Done (set_filled 0 0 (set_queuedTriangleCommands [] r))
  end.

Definition flushTriangles (r : Renderer) : outcome Renderer :=
  drawBatchedTriangles r.
Definition flush2D (r : Renderer) : outcome Renderer := flushTriangles r.
Definition flush (r : Renderer) : outcome Renderer := flush2D r.

Definition setDepthTest (enable : bool) (r : Renderer) : Renderer :=
  mkRenderer (_renderGroups r) (_commandGroupStack r) (_isRendering r)
    (_glViewAssigned r) enable (_queuedTriangleCommands r) (_filledVertex r)
    (_filledIndex r) (_triBatchesToDraw r) (_triBatchesToDrawCapacity r)
    (_drawnBatches r) (_drawnVertices r) (glEnableDepthTest enable (gl r))
    (errorLog r).

(** [cmd->execute()] of a custom, batch or primitive command. *)
Definition executeCommand (c : RenderCommand) (r : Renderer) : Renderer :=
  set_gl (glCall (execute c) (mkGL (executeEffect c (flags (gl r))) (calls (gl r)))) r.

(** [processRenderCommand], with the sweep of a group's queue as [visit]. *)
Definition processRenderCommandWith (visit : Z → Renderer → outcome Renderer)
    (command : option RenderCommand) (r : Renderer) : outcome Renderer :=
  match command with
  | None => Abort "Renderer::processRenderCommand:command should not null"
  | Some (Triangles cmd) =>
      r ← (if (_filledVertex r + vertexCount cmd >? VBO_SIZE)
              || (_filledIndex r + indexCount cmd >? INDEX_VBO_SIZE)
           then
             _ ← CCASSERT ((0 <=? vertexCount cmd) && (vertexCount cmd <? VBO_SIZE))
                   "VBO for vertex is not big enough, please break the data down or use customized render command";
             _ ← CCASSERT ((0 <=? indexCount cmd) && (indexCount cmd <? INDEX_VBO_SIZE))
                   "VBO for index is not big enough, please break the data down or use customized render command";
             drawBatchedTriangles r
           else Done r);
      let r := set_queuedTriangleCommands (_queuedTriangleCommands r ++ [cmd]) r in
      Done (set_filled (_filledVertex r + vertexCount cmd)
              (_filledIndex r + indexCount cmd) r)
  | Some (Group _ _ renderQueueID) =>
      r ← flush r;
      visit renderQueueID r
  | Some (Custom _ _ as c) | Some (Batch _ _ as c) | Some (Primitive _ _ as c) =>
      r ← flush r;
      Done (executeCommand c r)
  | Some (Unknown _ _) =>
      Done (set_errorLog (errorLog r ++ ["Unknown commands in renderQueue"]) r)
  end.

(** The GL state set before a 2D sub-queue is processed. *)
Definition setup2D (r : Renderer) (g : GLState) : GLState :=
  let g := glEnableDepthTest (_isDepthTestFor2D r) g in
  let g := glDepthMask (_isDepthTestFor2D r) g in
  let g := glEnableBlend true g in
  glEnableCullFace false g.

Definition setupOpaque3D (r : Renderer) (g : GLState) : GLState :=
  let g := glEnableDepthTest true g in
  let g := glDepthMask true g in
  let g := glEnableBlend false g in
  glEnableCullFace true g.

Definition setupTransparent3D (r : Renderer) (g : GLState) : GLState :=
  let g := glEnableDepthTest true g in
  let g := glDepthMask false g in
  let g := glEnableBlend true g in
  glEnableCullFace true g.

(** One of the five blocks of [visitRenderQueue]: the sub-queue [sub] of the
    queue [_renderGroups[id]]. *)
Definition visitSubQueue (visit : Z → Renderer → outcome Renderer)
    (sub : RenderQueue → list RenderCommand)
    (setup : Renderer → GLState → GLState) (id : Z) (r : Renderer)
  : outcome Renderer :=
  queue ← RenderQueue.at_ (_renderGroups r) id;
  match sub queue with
  | [] => Done r
  | _ :: _ =>
      let r := set_gl (setup r (gl r)) r in
      r ← for_each (fun c => processRenderCommandWith visit (Some c)) (sub queue) r;
      flush r
  end.

(** [visitRenderQueue(_renderGroups[id])] *)
Fixpoint visitRenderQueue (fuel : nat) (id : Z) (r : Renderer) : outcome Renderer :=
  match fuel with
  | O => OutOfFuel
  | S fuel =>
      queue ← RenderQueue.at_ (_renderGroups r) id;
      let r := set_renderGroups
                 (<[Z.to_nat id := RenderQueue.saveRenderState (gl r) queue]>
                    (_renderGroups r)) r in
      r ← visitSubQueue (visitRenderQueue fuel) GLOBALZ_NEG setup2D id r;
      r ← visitSubQueue (visitRenderQueue fuel) OPAQUE_3D setupOpaque3D id r;
      r ← visitSubQueue (visitRenderQueue fuel) TRANSPARENT_3D setupTransparent3D id r;
      r ← visitSubQueue (visitRenderQueue fuel) GLOBALZ_ZERO setup2D id r;
      r ← visitSubQueue (visitRenderQueue fuel) GLOBALZ_POS setup2D id r;
      queue ← RenderQueue.at_ (_renderGroups r) id;
      Done (set_gl (RenderQueue.restoreRenderState queue (gl r)) r)
  end.

Definition processRenderCommand (fuel : nat) (command : option RenderCommand)
    (r : Renderer) : outcome Renderer :=
  processRenderCommandWith (visitRenderQueue fuel) command r.

Definition clean (r : Renderer) : Renderer :=
  let r := set_renderGroups (map RenderQueue.clear (_renderGroups r)) r in
  let r := set_queuedTriangleCommands [] r in
  set_filled 0 0 r.

Definition render (fuel : nat) (r : Renderer) : outcome Renderer :=
  let r := set_isRendering true r in
  r ← (if _glViewAssigned r then
         let r := set_renderGroups (map RenderQueue.sort (_renderGroups r)) r in
         visitRenderQueue fuel 0 r
       else Done r);
  let r := clean r in
  Done (set_isRendering false r).

End WithPlatform.
End Renderer.

(** ** The contract of [std::sort] *)

(** [cmp] is a strict weak ordering on the elements of [l]. *)
Definition strict_weak_on {A : Type} (cmp : A → A → bool) (l : list A) : Prop :=
  (∀ a, a ∈ l → cmp a a = false) ∧
  (∀ a b c, a ∈ l → b ∈ l → c ∈ l →
     cmp a b = true → cmp b c = true → cmp a c = true) ∧
  (∀ a b c, a ∈ l → b ∈ l → c ∈ l →
     cmp a b = false → cmp b a = false → cmp b c = false → cmp c b = false →
     cmp a c = false ∧ cmp c a = false).

(** [std::is_sorted]: no element is less than the one before it. *)
Definition is_sorted {A : Type} (cmp : A → A → bool) (l : list A) : Prop :=
  Sorted (fun x y => cmp y x = false) l.

(** What the C++ standard promises of [std::sort] when the comparison is a
    strict weak ordering: the range holds the same elements, sorted. The
    order of equivalent elements is not promised. *)
Class StdSortContract `{Platform} : Prop := {
  std_sort_perm : ∀ cmp l, strict_weak_on cmp l → std_sort cmp l ≡ₚ l;
  std_sort_sorted : ∀ cmp l, strict_weak_on cmp l → is_sorted cmp (std_sort cmp l)
}.

(** ** A concrete platform *)

(** An insertion sort that puts an element behind the elements equivalent
    to it that are already placed: a sort that meets the contract of
    [std::sort] and is not stable. *)
Fixpoint insert_behind {A : Type} (cmp : A → A → bool) (x : A) (l : list A)
  : list A :=
  match l with
  | [] => [x]
  | y :: rest => if cmp x y then x :: y :: rest else y :: insert_behind cmp x rest
  end.

Definition insertion_sort {A : Type} (cmp : A → A → bool) (l : list A) : list A :=
  foldr (insert_behind cmp) [] l.

(** The capacities of the staging arrays of a build with 65536 vertices and
    six indices per four vertices. *)
#[local] Instance sample_platform : Platform := {|
  VBO_SIZE := 65536;
  INDEX_VBO_SIZE := 98304;
  scaleCapacity := fun c => c * 14 / 10;
  std_sort := insertion_sort;
  executeEffect := fun _ f => mkFlags true true false (GL_BLEND f)
|}.

Definition sample_flags : GLFlags := mkFlags false false true false.
Definition sample_renderer : Renderer :=
  Renderer.initGLView (Renderer.new (mkGL sample_flags [])).

(** A quad: four vertices, six indices. *)
Definition quad (name : nat) (order : Z) (material : Z) (skip : bool)
  : TrianglesCommand :=
  mkTriangles name (Num order) material skip 4 6.

(** A root queue with a group command between two quads, and the queue of
    the group, with a custom command and a quad. *)
Definition sample_scene : Renderer :=
  set_renderGroups
    [fold_left (fun q c => RenderQueue.push_back c q)
       [Triangles (quad 1 0 1 false); Group 2 (Num 0) 1;
        Triangles (quad 3 0 1 false)] emptyQueue;
     fold_left (fun q c => RenderQueue.push_back c q)
       [Custom 4 (Num (-1)); Triangles (quad 5 0 7 false)] emptyQueue]
    sample_renderer.

(** ** The batches of a scan, as a function of the queued commands *)

(** The material a command leaves in [prevMaterialID]. *)
Definition effectiveMaterial (c : TrianglesCommand) : Z :=
  if skipBatching c then NO_MATERIAL else materialID c.

(** [c] joins the batch of a command that left [prev]. *)
Definition merges (prev : Z) (c : TrianglesCommand) : bool :=
  negb (skipBatching c) && (prev =? materialID c).

(** The entries written from the current one on, for the commands still to
    be scanned. *)
Fixpoint batchesFrom (cur : TriBatchToDraw) (prev : Z)
    (cmds : list TrianglesCommand) : list TriBatchToDraw :=
  match cmds with
  | [] => [cur]
  | c :: rest =>
      if merges prev c
      then batchesFrom (mkBatch (Some c) (indicesToDraw cur + indexCount c)
                          (offset cur)) (effectiveMaterial c) rest
      else cur :: batchesFrom (mkBatch (Some c) (indexCount c)
                                 (offset cur + indicesToDraw cur))
                    (effectiveMaterial c) rest
  end.

Definition batchesOf (cmds : list TrianglesCommand) : list TriBatchToDraw :=
  match cmds with
  | [] => []
  | c :: rest => batchesFrom (mkBatch (Some c) (indexCount c) 0)
                   (effectiveMaterial c) rest
  end.

Definition sumVertices (l : list TrianglesCommand) : Z :=
  foldr (fun c s => vertexCount c + s) 0 l.
Definition sumIndices (l : list TrianglesCommand) : Z :=
  foldr (fun c s => indexCount c + s) 0 l.

(** The pair of commands on which the assertion of the scan fails: [c]
    follows [c0], takes the branch of the same batch, and the two materials
    differ. *)
Definition clash (c0 c : TrianglesCommand) : bool :=
  skipBatching c0 && negb (skipBatching c) && (materialID c =? NO_MATERIAL)
  && negb (materialID c0 =? materialID c).

Fixpoint noClash (c0 : TrianglesCommand) (l : list TrianglesCommand) : bool :=
  match l with
  | [] => true
  | c :: rest => negb (clash c0 c) && noClash c rest
  end.

Definition noClashIn (l : list TrianglesCommand) : bool :=
  match l with
  | [] => true
  | c :: rest => noClash c rest
  end.

(** The calls of the draw loop for the entries [bs]. *)
Definition drawCalls (bs : list TriBatchToDraw) : list GLCall :=
  flat_map (fun b => match batch_cmd b with
                     | Some c => [useMaterial c;
                                  glDrawElements (indicesToDraw b)
                                    (offset b * sizeof_index)]
                     | None => []
                     end) bs.

(** A renderer that differs from [r] in what a scan writes. *)
Definition scanState (r : Renderer) (fv fi : Z) (a : Z → TriBatchToDraw)
    (cap : Z) : Renderer :=
  mkRenderer (_renderGroups r) (_commandGroupStack r) (_isRendering r)
    (_glViewAssigned r) (_isDepthTestFor2D r) (_queuedTriangleCommands r)
    fv fi a cap (_drawnBatches r) (_drawnVertices r) (gl r) (errorLog r).

(** A renderer that differs from [r] in what [drawBatchedTriangles] writes. *)
Definition flushedState (r : Renderer) (a : Z → TriBatchToDraw) (cap : Z)
    (batches vertices : Z) (newCalls : list GLCall) : Renderer :=
  mkRenderer (_renderGroups r) (_commandGroupStack r) (_isRendering r)
    (_glViewAssigned r) (_isDepthTestFor2D r) [] 0 0 a cap
    batches vertices (mkGL (flags (gl r)) (calls (gl r) ++ newCalls))
    (errorLog r).

Definition sumBatches (bs : list TriBatchToDraw) : Z :=
  foldr (fun b s => indicesToDraw b + s) 0 bs.

(** An entry moved [k] indices further in the index staging array. *)
Definition shiftBatch (k : Z) (b : TriBatchToDraw) : TriBatchToDraw :=
  mkBatch (batch_cmd b) (indicesToDraw b) (offset b + k).


(** ** Notions used to state the properties of the dispatch *)

(** The fill positions are those of the pending queue. *)
Definition staged (r : Renderer) : Prop :=
  _filledVertex r = sumVertices (_queuedTriangleCommands r)
  ∧ _filledIndex r = sumIndices (_queuedTriangleCommands r).

(** The fill positions are within the staging arrays. *)
Definition withinCapacity `{Platform} (r : Renderer) : Prop :=
  0 <= _filledVertex r <= VBO_SIZE ∧ 0 <= _filledIndex r <= INDEX_VBO_SIZE.

(** The command alone fits the staging arrays, as the assertions of
    [processRenderCommand] ask. *)
Definition fitsAlone `{Platform} (c : TrianglesCommand) : Prop :=
  0 <= vertexCount c < VBO_SIZE ∧ 0 <= indexCount c < INDEX_VBO_SIZE.

(** "queue it" of [processRenderCommand]. *)
Definition stageCommand (cmd : TrianglesCommand) (r : Renderer) : Renderer :=
  let r := set_queuedTriangleCommands (_queuedTriangleCommands r ++ [cmd]) r in
  set_filled (_filledVertex r + vertexCount cmd) (_filledIndex r + indexCount cmd) r.


(** ** Notions used to state the properties of the sweep *)

(** The commands held by the queues, without the saved states. *)
Definition structure (r : Renderer) : list (list (list RenderCommand)) :=
  _commands <$> _renderGroups r.

(** Queue [a] holds a group command for queue [b]. *)
Definition groupEdge (S : list (list (list RenderCommand))) (a b : Z) : Prop :=
  0 <= a ∧ ∃ subs sub name order,
    S !! Z.to_nat a = Some subs ∧ sub ∈ subs ∧ Group name order b ∈ sub.

(** What [saveRenderState] reads of the GL context. *)
Definition ambient (g : GLState) : bool * bool * bool :=
  (GL_DEPTH_TEST (flags g), GL_CULL_FACE (flags g), GL_DEPTH_WRITEMASK (flags g)).

(** What a queue holds of it. *)
Definition snapshot (q : RenderQueue) : bool * bool * bool :=
  (_isDepthEnabled q, _isCullEnabled q, _isDepthWrite q).

Definition isDraw (c : GLCall) : bool :=
  match c with
  | glDrawElements _ _ => true
  | _ => false
  end.

(** ** Notions used to state the order of the calls *)

(** The command a call is issued for: the last command of the batch, for the
    material bound before a draw call, and the command itself, for
    [execute]. *)
Definition callCommand (call : GLCall) : option RenderCommand :=
  match call with
  | useMaterial t => Some (Triangles t)
  | execute c => Some c
  | _ => None
  end.

Definition callCommands (l : list GLCall) : list RenderCommand :=
  omap callCommand l.

(** The order in which a sweep of queue [id] dispatches commands: the five
    sub-queues in turn, each in its order, a group command being followed by
    the commands of the sweep of its queue. *)
Fixpoint submissionOrder (fuel : nat) (S : list (list (list RenderCommand)))
    (id : Z) : list RenderCommand :=
  match fuel with
  | O => []
  | Datatypes.S fuel =>
      match S !! Z.to_nat id with
      | None => []
      | Some subs =>
          flat_map (fun c => match c with
                             | Group _ _ b => c :: submissionOrder fuel S b
                             | _ => [c]
                             end) (concat subs)
      end
  end.

Definition expandGroups (fuel : nat) (S : list (list (list RenderCommand)))
    (cmds : list RenderCommand) : list RenderCommand :=
  flat_map (fun c => match c with
                     | Group _ _ b => c :: submissionOrder fuel S b
                     | _ => [c]
                     end) cmds.



(** The calls of a flush of the pending queue [q]. *)
Definition flushCalls (q : list TrianglesCommand) : list GLCall :=
  match q with
  | [] => []
  | _ => [glBufferData GL_ARRAY_BUFFER (sumVertices q);
          glBufferData GL_ELEMENT_ARRAY_BUFFER (sumIndices q)]
         ++ drawCalls (batchesOf q)
  end.

(** ** Notions used to state the properties of the queues *)

Definition isNeg (c : RenderCommand) : bool :=
  float_ltb (getGlobalOrder c) float_zero.
Definition isPos (c : RenderCommand) : bool :=
  float_ltb float_zero (getGlobalOrder c).
Definition isZero (c : RenderCommand) : bool :=
  negb (isNeg c) && negb (isPos c).

(** The global order of the command is a number. *)
Definition hasNumber (c : RenderCommand) : Prop := getGlobalOrder c ≠ NaN.

(** The commands [cmds] pushed to the queue [q], in order. *)
Definition submit (cmds : list RenderCommand) (q : RenderQueue) : RenderQueue :=
  fold_left (fun q c => RenderQueue.push_back c q) cmds q.

(** The requests a renderer serves in its lifetime. *)
Inductive Request : Type :=
| AddCommand (command : RenderCommand)
| AddCommandTo (command : RenderCommand) (renderQueue : Z)
| PushGroup (renderQueueID : Z)
| PopGroup
| CreateRenderQueue
| Render (fuel : nat).

(** One request served; the identifiers [createRenderQueue] has returned
    are collected in the order of the calls. *)
Definition serve `{Platform} (req : Request) (st : Renderer * list Z)
  : outcome (Renderer * list Z) :=
  match req with
  | AddCommand c => r ← Renderer.addCommand c st.1; Done (r, st.2)
  | AddCommandTo c id => r ← Renderer.addCommandTo c id st.1; Done (r, st.2)
  | PushGroup id => r ← Renderer.pushGroup id st.1; Done (r, st.2)
  | PopGroup => r ← Renderer.popGroup st.1; Done (r, st.2)
  | CreateRenderQueue =>
      Done ((Renderer.createRenderQueue st.1).1,
            st.2 ++ [(Renderer.createRenderQueue st.1).2])
  | Render fuel => r ← Renderer.render fuel st.1; Done (r, st.2)
  end.

Definition lifetime `{Platform} (reqs : list Request) (r : Renderer)
  : outcome (Renderer * list Z) :=
  for_each serve reqs (r, []).

(** ** Notions used to state that a sweep returns *)

(** A triangles command that passes the assertions of the dispatch and of
    the scan. *)
Definition drawable `{Platform} (t : TrianglesCommand) : Prop :=
  fitsAlone t ∧ materialID t ≠ NO_MATERIAL.

(** Every triangles command of the queues is drawable. *)
Definition sceneDrawable `{Platform} (S : list (list (list RenderCommand)))
  : Prop :=
  ∀ subs sub t, subs ∈ S → sub ∈ subs → Triangles t ∈ sub → drawable t.

(** Group commands name queues of the table, and no queue is reached from
    itself: [rank] decreases along group commands. *)
Definition wellRanked (S : list (list (list RenderCommand))) (rank : Z → nat)
  : Prop :=
  ∀ a b, groupEdge S a b →
         0 <= b < Z.of_nat (length S) ∧ (rank b < rank a)%nat.

(** What the dispatch keeps: the commands of the queues, the fill positions
    as those of the pending queue and within the staging arrays, and a
    pending queue of drawable commands. *)
Definition dispatchInv `{Platform} (S : list (list (list RenderCommand)))
    (r : Renderer) : Prop :=
  structure r = S ∧ staged r ∧ withinCapacity r
  ∧ Forall drawable (_queuedTriangleCommands r).

(** The root queue of [sample_scene] is above the queue of its group. *)
Definition sample_rank (id : Z) : nat := if id =? 0 then 1%nat else 0%nat.

(** ** Notions used to state what the queues of a renderer hold *)

(** A queue as [push_back] fills it: the sub-queue of a command is decided
    by the sign of its global order, the two 3D sub-queues stay empty, and
    (as [addCommand] asserts) no command is of unknown type. *)
Definition admissible (q : RenderQueue) : Prop :=
  Forall (fun c => isNeg c = true) (GLOBALZ_NEG q)
  ∧ OPAQUE_3D q = [] ∧ TRANSPARENT_3D q = []
  ∧ Forall (fun c => isZero c = true) (GLOBALZ_ZERO q)
  ∧ Forall (fun c => isPos c = true) (GLOBALZ_POS q)
  ∧ Forall (fun c => getType c ≠ UNKNOWN_COMMAND) (concat (_commands q)).

(** The fields that neither a sweep nor a flush writes. *)
Definition settings (r : Renderer) : list Z * bool * bool * bool :=
  (_commandGroupStack r, _isRendering r, _glViewAssigned r, _isDepthTestFor2D r).

(** ** Notions used to state what a flush draws *)

(** The entries [bs] cover the index staging array from [start] on, one
    after the other, without a gap or an overlap. *)
Fixpoint tiles (start : Z) (bs : list TriBatchToDraw) : Prop :=
  match bs with
  | [] => True
  | b :: rest => offset b = start ∧ tiles (start + indicesToDraw b) rest
  end.

(** ** Notions used to state what a sweep draws *)

(** The number of indices of the triangles commands among [cmds]. *)
Definition indicesOf (cmds : list RenderCommand) : Z :=
  foldr (fun c s => match c with
                    | Triangles t => indexCount t + s
                    | _ => s
                    end) 0 cmds.

(** The number of indices the draw calls among [l] draw, and the number of
    these calls. *)
Definition drawnIndices (l : list GLCall) : Z :=
  foldr (fun c s => match c with
                    | glDrawElements count _ => count + s
                    | _ => s
                    end) 0 l.
Definition drawCount (l : list GLCall) : Z :=
  foldr (fun c s => if isDraw c then 1 + s else s) 0 l.

(** What a sweep keeps account of: the indices drawn or pending, by the
    counter [_drawnVertices] and by the calls issued, and the difference
    between [_drawnBatches] and the number of draw calls. *)
Definition tally (r : Renderer) : Z * Z * Z :=
  (_drawnVertices r + sumIndices (_queuedTriangleCommands r),
   drawnIndices (calls (gl r)) + sumIndices (_queuedTriangleCommands r),
   _drawnBatches r - drawCount (calls (gl r))).

Definition advance (k : Z) (t : Z * Z * Z) : Z * Z * Z :=
  (t.1.1 + k, t.1.2 + k, t.2).

(** ** The staging arrays *)

(** [a[i] = x] on a C array, as the map from an index to the element
    stored there. *)
Definition poke {A : Type} (i : Z) (x : A) (a : Z → A) : Z → A :=
  fun j => if j =? i then x else a j.

(** The conversion of an [int] to the [GLushort] of an entry of
    [_indices]. *)
Definition to_ushort (z : Z) : Z := z mod 2 ^ 16.

(** [fillVerticesAndIndices] with the arrays it writes. A vertex
    ([V3F_C4B_T2F]) and the model-view matrix are of types [V] and [M] that
    the renderer does not look into; [transformPoint] is what
    [Mat4::transformPoint], applied to the position of a vertex, makes of
    the vertex. [_verts] has [VBO_SIZE] entries and [_indices] has
    [INDEX_VBO_SIZE]; a read or a write outside an array, or a copy of a
    negative number of vertices, is undefined. *)
Module Staging.
Section WithVertices.
Context `{Platform} {V M : Type}.
Variable transformPoint : M → V → V.

(** What [fillVerticesAndIndices] reads of a command: the counts, the
    arrays [getVertices()] and [getIndices()] point to, and the matrix. *)
Record Payload : Type := mkPayload {
  command : TrianglesCommand;
  getVertices : list V;
  getIndices : list Z;
  getModelView : M
}.

Record t : Type := mkStaging {
  _verts : Z → V;
  _indices : Z → Z;
  _filledVertex : Z;
  _filledIndex : Z
}.

(** [memcpy(&_verts[dst], src, sizeof(V3F_C4B_T2F) * n)] *)
Definition memcpy (dst : Z) (src : list V) (n : Z) (a : Z → V) : outcome (Z → V) :=
  if (n <? 0) || (Z.of_nat (length src) <? n) || (dst <? 0) || (VBO_SIZE <? dst + n)
  then Undefined
  else Done (fun j => if (dst <=? j) && (j <? dst + n)
                      then match src !! Z.to_nat (j - dst) with
                           | Some v => v
                           | None => a j
                           end
                      else a j).

(** [modelView.transformPoint(&(_verts[i + _filledVertex].vertices))] *)
Definition transformStep (modelView : M) (filledVertex : Z) (i : Z) (a : Z → V)
  : outcome (Z → V) :=
  if (0 <=? i + filledVertex) && (i + filledVertex <? VBO_SIZE)
  then Done (poke (i + filledVertex)
               (transformPoint modelView (a (i + filledVertex))) a)
  else Undefined.

(** [_indices[_filledIndex + i] = _filledVertex + indices[i]] *)
Definition indexStep (indices : list Z) (filledVertex filledIndex : Z) (i : Z)
    (a : Z → Z) : outcome (Z → Z) :=
  match indices !! Z.to_nat i with
  | None => Undefined
  | Some x =>
      if (0 <=? filledIndex + i) && (filledIndex + i <? INDEX_VBO_SIZE)
      then Done (poke (filledIndex + i) (to_ushort (filledVertex + x)) a)
      else Undefined
  end.

Definition fillVerticesAndIndices (cmd : Payload) (s : t) : outcome t :=
  let vertexCount := vertexCount (command cmd) in
  let indexCount := indexCount (command cmd) in
  verts ← memcpy (_filledVertex s) (getVertices cmd) vertexCount (_verts s);
  verts ← for_each (transformStep (getModelView cmd) (_filledVertex s))
            (seqZ 0 vertexCount) verts;
  indices ← for_each (indexStep (getIndices cmd) (_filledVertex s) (_filledIndex s))
              (seqZ 0 indexCount) (_indices s);
  Done (mkStaging verts indices (_filledVertex s + vertexCount)
          (_filledIndex s + indexCount)).

(** The arrays of a command hold as many elements as the command counts,
    and its indices are positions of its vertices. *)
Definition wellFormed (cmd : Payload) : Prop :=
  Z.of_nat (length (getVertices cmd)) = vertexCount (command cmd)
  ∧ Z.of_nat (length (getIndices cmd)) = indexCount (command cmd)
  ∧ Forall (fun x => 0 <= x < vertexCount (command cmd)) (getIndices cmd).

End WithVertices.
End Staging.

(** * GPU buffers (cocos/renderer/gfx-gles2/GLES2Buffer.cc)

    Conventions.
    - A [uint] is a [Z]; [info.stride], [info.size] and the arguments of
      [resize] and [update] are not negative.
    - The heap is the list of the blocks [CC_MALLOC] has returned, a pointer
      is the position of its block ([None] for [nullptr]), and [CC_FREE]
      marks the block dead. A block holds bytes, [None] for a byte never
      written. A copy from or to a dead block, or outside a block, and the
      release of a dead block are undefined.
    - [CC_MALLOC] is taken to succeed.
    - The functions of the GLES2 backend ([GLES2CmdFuncCreateBuffer] and the
      like) are outside this file; a call is recorded with the descriptor it
      is given. *)

Module GLES2Buffer.

Record GFXBufferInfo : Type := mkInfo {
  usage : Z;
  mem_usage : Z;
  stride : Z;
  size : Z;
  flags : Z
}.

(** The fields of [GLES2GPUBuffer] this file writes. *)
Record GLES2GPUBuffer : Type := mkGPUBuffer {
  gpu_usage : Z;
  gpu_mem_usage : Z;
  gpu_size : Z;
  gpu_stride : Z;
  gpu_count : Z;
  gpu_buffer : option nat
}.

Inductive GPUCall : Type :=
| GLES2CmdFuncCreateBuffer (gpu : GLES2GPUBuffer)
| GLES2CmdFuncDestroyBuffer (gpu : GLES2GPUBuffer)
| GLES2CmdFuncResizeBuffer (gpu : GLES2GPUBuffer)
| GLES2CmdFuncUpdateBuffer (gpu : option GLES2GPUBuffer) (buffer : list Z)
    (offset size : Z).

Record Block : Type := mkBlock {
  alive : bool;
  bytes : list (option Z)
}.

(** The device: [memoryStatus().buffer_size], the heap, and the calls made
    to the backend. *)
Record Device : Type := mkDevice {
  buffer_size : Z;
  heap : list Block;
  calls : list GPUCall
}.

Record t : Type := mkBuffer {
  _usage : Z;
  _memUsage : Z;
  _size : Z;
  _stride : Z;
  _count : Z;
  _flags : Z;
  _buffer : option nat;
  gpu_buffer_ : option GLES2GPUBuffer
}.

Section WithGFX.

(** [GFXBufferFlagBit::BAKUP_BUFFER] and [GFXBufferUsageBit::INDIRECT], bit
    masks declared with the GFX types; the number of bits of the counter
    [buffer_size]; and the descriptor [CC_NEW(GLES2GPUBuffer)] makes. *)
Variable BAKUP_BUFFER : Z.
Variable INDIRECT : Z.
Variable counterBits : Z.
Variable newGPUBuffer : GLES2GPUBuffer.

Definition set_heap (h : list Block) (d : Device) : Device :=
  mkDevice (buffer_size d) h (calls d).

(** [memoryStatus().buffer_size += n] and [-= n], on an unsigned counter. *)
Definition add_buffer_size (n : Z) (d : Device) : Device :=
  mkDevice ((buffer_size d + n) mod 2 ^ counterBits) (heap d) (calls d).
Definition sub_buffer_size (n : Z) (d : Device) : Device :=
  mkDevice ((buffer_size d - n) mod 2 ^ counterBits) (heap d) (calls d).

Definition call (c : GPUCall) (d : Device) : Device :=
  mkDevice (buffer_size d) (heap d) (calls d ++ [c]).

Definition CC_MALLOC (n : Z) (h : list Block) : nat * list Block :=
  (length h, h ++ [mkBlock true (replicate (Z.to_nat n) None)]).

Definition CC_FREE (p : nat) (h : list Block) : outcome (list Block) :=
  match h !! p with
  | Some (mkBlock true bs) => Done (<[p := mkBlock false bs]> h)
  | _ => Undefined
  end.

(** The bytes of a live block. *)
Definition read (p : nat) (h : list Block) : outcome (list (option Z)) :=
  match h !! p with
  | Some (mkBlock true bs) => Done bs
  | _ => Undefined
  end.

(** [memcpy(dst + offset, src, n)], with the bytes at [src] given. *)
Definition memcpy (dst : nat) (offset : Z) (src : list (option Z)) (n : Z)
    (h : list Block) : outcome (list Block) :=
  bs ← read dst h;
  if (Z.of_nat (length src) <? n) || (Z.of_nat (length bs) <? offset + n)
  then Undefined
  else Done (<[dst := mkBlock true
                        (take (Z.to_nat offset) bs ++ take (Z.to_nat n) src
                         ++ drop (Z.to_nat (offset + n)) bs)]> h).

Definition initialize (info : GFXBufferInfo) (b : t) (d : Device)
  : bool * (t * Device) :=
  let _usage := usage info in
  let _memUsage := mem_usage info in
  let _size := size info in
  let _stride := Z.max (stride info) 1 in
  let _count := _size / _stride in
  let _flags := flags info in
  let '(_buffer, d) :=
    if negb (Z.land _flags BAKUP_BUFFER =? 0) && (0 <? _size)
    then let '(p, h) := CC_MALLOC _size (heap d) in
         (Some p, add_buffer_size _size (set_heap h d))
    else (_buffer b, d) in
  let gpu := mkGPUBuffer _usage _memUsage _size _stride _count
               (if Z.land _usage INDIRECT =? 0 then _buffer
                else gpu_buffer newGPUBuffer) in
  let d := call (GLES2CmdFuncCreateBuffer gpu) d in
  let d := add_buffer_size _size d in
  (true, (mkBuffer _usage _memUsage _size _stride _count _flags _buffer (Some gpu), d)).

Definition destroy (b : t) (d : Device) : outcome (t * Device) :=
  st ← match gpu_buffer_ b with
       | Some gpu =>
           let d := call (GLES2CmdFuncDestroyBuffer gpu) d in
           let d := sub_buffer_size (_size b) d in
           Done (mkBuffer (_usage b) (_memUsage b) (_size b) (_stride b) (_count b)
                   (_flags b) (_buffer b) None, d)
       | None => Done (b, d)
       end;
  let b := st.1 in
  let d := st.2 in
  match _buffer b with
  | Some p =>
      h ← CC_FREE p (heap d);
      let d := sub_buffer_size (_size b) (set_heap h d) in
      Done (mkBuffer (_usage b) (_memUsage b) (_size b) (_stride b) (_count b)
              (_flags b) None (gpu_buffer_ b), d)
  | None => Done (b, d)
  end.

Definition resize (size : Z) (b : t) (d : Device) : outcome (t * Device) :=
  if _size b =? size then Done (b, d)
  else
    let old_size := _size b in
    let _size := size in
    if _stride b =? 0 then Undefined
    else
      let _count := _size / _stride b in
      match gpu_buffer_ b with
      | None => Undefined
      | Some gpu =>
          let gpu := mkGPUBuffer (gpu_usage gpu) (gpu_mem_usage gpu) _size
                       (gpu_stride gpu) _count (gpu_buffer gpu) in
          let d := call (GLES2CmdFuncResizeBuffer gpu) d in
          let d := sub_buffer_size old_size d in
          let d := add_buffer_size _size d in
          match _buffer b with
          | Some old_buff =>
              let '(p, h) := CC_MALLOC _size (heap d) in
              src ← read old_buff h;
              h ← memcpy p 0 src old_size h;
              h ← CC_FREE p h;
              let d := sub_buffer_size old_size (set_heap h d) in
              let d := add_buffer_size _size d in
              Done (mkBuffer (_usage b) (_memUsage b) _size (_stride b) _count
                      (_flags b) (Some p) (Some gpu), d)
          | None =>
              Done (mkBuffer (_usage b) (_memUsage b) _size (_stride b) _count
                      (_flags b) None (Some gpu), d)
          end
      end.

Definition update (buffer : list Z) (offset size : Z) (b : t) (d : Device)
  : outcome Device :=
  h ← match _buffer b with
      | Some p => memcpy p offset (Some <$> buffer) size (heap d)
      | None => Done (heap d)
      end;
  Done (call (GLES2CmdFuncUpdateBuffer (gpu_buffer_ b) buffer offset size)
          (set_heap h d)).

End WithGFX.
End GLES2Buffer.

(** A buffer of 16 bytes with backup storage, described with a stride of 0,
    on a device that counts in 32 bits; the two bit masks are given the
    values 4 and 64. *)
Definition sample_info : GLES2Buffer.GFXBufferInfo :=
  GLES2Buffer.mkInfo 1 1 0 16 4.
Definition sample_gpu : GLES2Buffer.GLES2GPUBuffer :=
  GLES2Buffer.mkGPUBuffer 0 0 0 0 0 None.
Definition sample_device : GLES2Buffer.Device :=
  GLES2Buffer.mkDevice 100 [] [].
Definition fresh_buffer : GLES2Buffer.t :=
  GLES2Buffer.mkBuffer 0 0 0 0 0 0 None None.
Definition sample_buffer : GLES2Buffer.t * GLES2Buffer.Device :=
  (GLES2Buffer.initialize 4 64 32 sample_gpu sample_info fresh_buffer
     sample_device).2.

(** * The extensions of a device (cocos/renderer/gfx-gles3/GLES3Device.h) *)

Module GLES3Device.

(** [s.find(pattern)] of [std::string]: the lowest position at which
    [pattern] occurs in [s], [None] for [npos]. *)
Fixpoint find (s pattern : string) : option nat :=
  if String.prefix pattern s then Some 0%nat
  else match s with
       | EmptyString => None
       | String _ rest => S <$> find rest pattern
       end.

(** The loop of [checkExtension] over the extensions still to be looked
    at. *)
Fixpoint checkExtension_loop (extensions : list string) (extension : string)
  : bool :=
  match extensions with
  | [] => false
  | e :: rest =>
      if bool_decide (find e extension ≠ None) then true
      else checkExtension_loop rest extension
  end.

Definition checkExtension (_extensions : list string) (extension : string)
  : bool :=
  checkExtension_loop _extensions extension.

End GLES3Device.

(** [pattern] occurs in [s]. *)
Definition occursIn (pattern s : string) : Prop :=
  ∃ before after, s = (before +:+ pattern +:+ after)%string.

(** * Properties *)

Ltac unfold_outcome :=
  unfold mbind, outcome_bind, mret, outcome_ret, CCASSERT in *.

Lemma bind_Done {A B : Type} (a : A) (f : A → outcome B) : (Done a ≫= f) = f a.
Proof. reflexivity. Qed.

(** A run that completes after a first part that completes. *)
Lemma bind_Done_inv {A B : Type} (m : outcome A) (f : A → outcome B) (b : B) :
  (m ≫= f) = Done b → ∃ a, m = Done a ∧ f a = Done b.
Proof. destruct m; try discriminate. intros. eauto. Qed.

(** ** The scan of [drawBatchedTriangles] *)

Section Scan.
Context `{Platform}.
Import Renderer.

Lemma effectiveMaterial_batchable c :
  skipBatching c = false → effectiveMaterial c = materialID c.
Proof. unfold effectiveMaterial. intros ->. reflexivity. Qed.

Lemma merges_effective prev c :
  merges prev c = true → effectiveMaterial c = materialID c ∧ prev = materialID c.
Proof.
  unfold merges. intros [Hs He]%andb_true_iff.
  apply negb_true_iff in Hs. apply Z.eqb_eq in He.
  split; [by apply effectiveMaterial_batchable | done].
Qed.

(** After the first command the test of the scan is [merges]. *)
Lemma sameBatch_merges n prev c :
  sameBatch (mkScan n prev false) c = merges prev c.
Proof. unfold sameBatch, merges. simpl. by rewrite orb_false_r. Qed.

Lemma store_eq i b a : store i b a i = b.
Proof. unfold store. by rewrite Z.eqb_refl. Qed.

Lemma store_lt j i b a : j < i → store i b a j = a j.
Proof. unfold store. intros. destruct (j =? i) eqn:E; [lia | done]. Qed.

Lemma store_gt j i b a : i < j → store i b a j = a j.
Proof. unfold store. intros. destruct (j =? i) eqn:E; [lia | done]. Qed.

(** The step of the scan on a command that is not the first one. *)
Lemma scanStep_next r fv fi a cap n c0 c :
  batch_cmd (a n) = Some c0 →
  clash c0 c = false →
  ∃ a' cap',
    scanStep c (scanState r fv fi a cap, mkScan n (effectiveMaterial c0) false)
    = Done (scanState r (fv + vertexCount c) (fi + indexCount c) a' cap',
            mkScan (if merges (effectiveMaterial c0) c then n else n + 1)
              (effectiveMaterial c) false)
    ∧ (∀ i, i < n → a' i = a i)
    ∧ (if merges (effectiveMaterial c0) c
       then a' n = mkBatch (Some c) (indicesToDraw (a n) + indexCount c)
                     (offset (a n))
       else a' n = a n
            ∧ a' (n + 1) = mkBatch (Some c) (indexCount c)
                             (offset (a n) + indicesToDraw (a n)))
    ∧ (∀ i, (if merges (effectiveMaterial c0) c then n else n + 1) < i →
            a' i = a i).
Proof.
  intros Hc0 Hclash.
  unfold scanStep. cbn [fst snd batchesTotal firstCommand].
  rewrite sameBatch_merges.
  destruct (merges (effectiveMaterial c0) c) eqn:Hm.
  - (* same batch *)
    assert ((materialID c0 =? materialID c) = true) as Hassert.
    { destruct (merges_effective _ _ Hm) as [_ He].
      unfold merges in Hm. apply andb_true_iff in Hm as [Hs _].
      apply negb_true_iff in Hs.
      unfold clash in Hclash. rewrite Hs in Hclash. simpl in Hclash.
      unfold effectiveMaterial in He.
      destruct (skipBatching c0) eqn:Hs0; simpl in *.
      - rewrite <- He in Hclash. rewrite Z.eqb_refl in Hclash. simpl in Hclash.
        apply negb_false_iff in Hclash. by rewrite He in Hclash.
      - by apply Z.eqb_eq. }
    simpl. rewrite Hc0. unfold_outcome. rewrite Hassert. simpl.
    destruct (merges_effective _ _ Hm) as [-> _].
    destruct (n + 1 >=? cap); (eexists _, _; split; [reflexivity|]);
      cbn beta iota delta [_triBatchesToDraw set_triBatchesToDraw
        set_triBatchesToDrawCapacity store];
      repeat split;
      auto using store_eq, store_lt, store_gt.
  - (* a new entry *)
    simpl. unfold_outcome. simpl.
    assert ((if negb (negb (skipBatching c)) then NO_MATERIAL else materialID c)
            = effectiveMaterial c) as ->.
    { unfold effectiveMaterial. by destruct (skipBatching c). }
    destruct (n + 1 + 1 >=? cap); (eexists _, _; split; [reflexivity|]);
      cbn beta iota delta [_triBatchesToDraw set_triBatchesToDraw
        set_triBatchesToDrawCapacity];
      repeat split; intros;
      replace (n + 1 - 1) with n by lia;
      repeat first [ rewrite store_eq | rewrite store_lt by lia
                   | rewrite store_gt by lia
                   | progress cbn [offset indicesToDraw batch_cmd] ];
      reflexivity.
Qed.

Lemma last_cons_default {A : Type} (x d : A) (l : list A) :
  List.last (x :: l) d = List.last l x.
Proof.
  revert x d. induction l as [|y l IH]; intros x d; [reflexivity|].
  change (List.last (x :: y :: l) d) with (List.last (y :: l) d).
  rewrite !IH. reflexivity.
Qed.

Lemma scanState_eq r fv fi a cap fv' fi' :
  fv = fv' → fi = fi' → scanState r fv fi a cap = scanState r fv' fi' a cap.
Proof. by intros -> ->. Qed.

(** The step of the scan on the first command. *)
Lemma scanStep_first r c :
  ∃ a' cap',
    scanStep c (scanStart r)
    = Done (scanState r (vertexCount c) (indexCount c) a' cap',
            mkScan 0 (effectiveMaterial c) false)
    ∧ a' 0 = mkBatch (Some c) (indexCount c) 0.
Proof.
  unfold scanStep, scanStart, sameBatch.
  cbn [fst snd batchesTotal firstCommand prevMaterialID].
  rewrite orb_true_r, andb_true_r.
  unfold effectiveMaterial.
  destruct (skipBatching c); simpl; unfold_outcome; simpl;
    destruct (0 + 1 >=? _triBatchesToDrawCapacity r);
    (eexists _, _; split; [reflexivity|]); simpl; by rewrite store_eq.
Qed.

(** The scan of the commands after the first one writes the entries
    [batchesFrom] gives, from the current entry on; the current entry then
    holds the last command and ends at the index fill position. *)
Lemma scan_rest cmds : ∀ r fv fi a cap n c0,
  batch_cmd (a n) = Some c0 →
  noClash c0 cmds = true →
  ∃ a' cap' n',
    n' = n + Z.of_nat (length (batchesFrom (a n) (effectiveMaterial c0) cmds)) - 1
    ∧ for_each scanStep cmds
        (scanState r fv fi a cap, mkScan n (effectiveMaterial c0) false)
      = Done (scanState r (fv + sumVertices cmds) (fi + sumIndices cmds) a' cap',
              mkScan n' (effectiveMaterial (List.last cmds c0)) false)
    ∧ (∀ i, i < n → a' i = a i)
    ∧ (∀ k b, batchesFrom (a n) (effectiveMaterial c0) cmds !! k = Some b →
              a' (n + Z.of_nat k) = b)
    ∧ batch_cmd (a' n') = Some (List.last cmds c0)
    ∧ offset (a' n') + indicesToDraw (a' n')
      = offset (a n) + indicesToDraw (a n) + sumIndices cmds.
Proof.
  induction cmds as [|c rest IH]; intros r fv fi a cap n c0 Hc0 Hno.
  - exists a, cap, n. simpl. repeat split.
    + lia.
    + f_equal. f_equal. apply scanState_eq; lia.
    + intros [|k] b Hb; simpl in Hb; [|done].
      injection Hb as <-. f_equal. lia.
    + done.
    + lia.
  - simpl in Hno. apply andb_true_iff in Hno as [Hcl Hno].
    apply negb_true_iff in Hcl.
    destruct (scanStep_next r fv fi a cap n c0 c Hc0 Hcl)
      as (a1 & cap1 & Hstep & Hlt & Hcur & Hgt).
    cbn [for_each]. rewrite Hstep, bind_Done.
    cbn [batchesFrom]. rewrite last_cons_default.
    destruct (merges (effectiveMaterial c0) c) eqn:Hm.
    + destruct (IH r (fv + vertexCount c) (fi + indexCount c) a1 cap1 n c)
        as (a' & cap' & n' & Hn' & Hrun & Hlt' & Hbs & Hlast & Hend);
        [by rewrite Hcur | done |].
      rewrite Hcur in Hn', Hbs, Hend. simpl in Hend.
      exists a', cap', n'. repeat split.
      * done.
      * rewrite Hrun. f_equal. f_equal. apply scanState_eq; simpl; lia.
      * intros i Hi. rewrite Hlt' by done. by apply Hlt.
      * done.
      * done.
      * simpl. lia.
    + destruct Hcur as [Hcur0 Hcur1].
      destruct (IH r (fv + vertexCount c) (fi + indexCount c) a1 cap1 (n + 1) c)
        as (a' & cap' & n' & Hn' & Hrun & Hlt' & Hbs & Hlast & Hend);
        [by rewrite Hcur1 | done |].
      rewrite Hcur1 in Hn', Hbs, Hend. simpl in Hend.
      exists a', cap', n'. repeat split.
      * simpl length. lia.
      * rewrite Hrun. f_equal. f_equal. apply scanState_eq; simpl; lia.
      * intros i Hi. rewrite Hlt' by lia. by apply Hlt.
      * intros [|k] b Hb; simpl in Hb.
        -- injection Hb as <-. rewrite Z.add_0_r, Hlt' by lia. done.
        -- rewrite <- (Hbs k b Hb). f_equal. lia.
      * done.
      * simpl. lia.
Qed.

(** The whole scan of a queue that is not empty. *)
Lemma scan_from_start r c rest :
  noClash c rest = true →
  ∃ a' cap' n',
    n' = Z.of_nat (length (batchesOf (c :: rest))) - 1
    ∧ for_each scanStep (c :: rest) (scanStart r)
      = Done (scanState r (sumVertices (c :: rest)) (sumIndices (c :: rest)) a' cap',
              mkScan n' (effectiveMaterial (List.last rest c)) false)
    ∧ (∀ k b, batchesOf (c :: rest) !! k = Some b → a' (Z.of_nat k) = b)
    ∧ batch_cmd (a' n') = Some (List.last rest c)
    ∧ offset (a' n') + indicesToDraw (a' n') = sumIndices (c :: rest).
Proof.
  intros Hno.
  destruct (scanStep_first r c) as (a1 & cap1 & Hstep & Ha1).
  destruct (scan_rest rest r (vertexCount c) (indexCount c) a1 cap1 0 c)
    as (a' & cap' & n' & Hn' & Hrun & _ & Hbs & Hlast & Hend);
    [by rewrite Ha1 | done |].
  rewrite Ha1 in Hn', Hbs, Hend. simpl in Hend.
  exists a', cap', n'. cbn [for_each batchesOf]. rewrite Hstep, bind_Done.
  repeat split; done.
Qed.

Lemma batchesFrom_cmd cmds : ∀ cur prev,
  is_Some (batch_cmd cur) →
  Forall (fun b => is_Some (batch_cmd b)) (batchesFrom cur prev cmds).
Proof.
  induction cmds as [|c rest IH]; intros cur prev Hcur; simpl.
  - by constructor.
  - destruct (merges prev c); [|constructor; [done|]]; by apply IH.
Qed.

Lemma batchesFrom_nonempty cmds cur prev : batchesFrom cur prev cmds ≠ [].
Proof.
  revert cur prev. induction cmds as [|c rest IH]; intros cur prev; simpl;
    [done|]. destruct (merges prev c); [apply IH | done].
Qed.

Lemma drawStep_some i r b c :
  _triBatchesToDraw r i = b → batch_cmd b = Some c →
  drawStep i r
  = Done (set_drawn (_drawnBatches r + 1) (_drawnVertices r + indicesToDraw b)
            (set_gl (glCall (glDrawElements (indicesToDraw b)
                               (offset b * sizeof_index))
                       (glCall (useMaterial c) (gl r))) r)).
Proof. intros Hb Hc. unfold drawStep. by rewrite Hb, Hc. Qed.

(** The draw loop over entries that all hold a command. *)
Lemma drawLoop bs : ∀ r k0,
  (∀ k b, bs !! k = Some b → _triBatchesToDraw r (k0 + Z.of_nat k) = b) →
  Forall (fun b => is_Some (batch_cmd b)) bs →
  for_each drawStep (seqZ k0 (Z.of_nat (length bs))) r
  = Done (set_drawn (_drawnBatches r + Z.of_nat (length bs))
            (_drawnVertices r + sumBatches bs)
            (set_gl (mkGL (flags (gl r)) (calls (gl r) ++ drawCalls bs)) r)).
Proof.
  induction bs as [|b bs IH]; intros r k0 Ha Hsome.
  - destruct r as [? ? ? ? ? ? ? ? ? ? ? ? [] ?]. simpl.
    rewrite app_nil_r, !Z.add_0_r. reflexivity.
  - rewrite seqZ_cons by (simpl length; lia).
    cbn [for_each].
    pose proof (Ha 0%nat b eq_refl) as Hb0.
    change (Z.of_nat 0) with 0 in Hb0. rewrite Z.add_0_r in Hb0.
    apply Forall_cons in Hsome as [[c Hc] Hsome].
    rewrite (drawStep_some k0 r b c Hb0 Hc), bind_Done.
    replace (Z.pred (Z.of_nat (length (b :: bs)))) with (Z.of_nat (length bs))
      by (simpl length; lia).
    rewrite IH; [| |done].
    + destruct r as [? ? ? ? ? ? ? ? ? ? ? ? [] ?]. simpl.
      unfold drawCalls at 2. simpl. rewrite Hc.
      f_equal. unfold set_drawn, set_gl, glCall. simpl.
      f_equal; [lia | lia |].
      f_equal. rewrite <- !app_assoc. reflexivity.
    + intros k b' Hk. simpl.
      rewrite <- (Ha (S k) b' Hk). f_equal. lia.
Qed.

Lemma sumBatches_batchesFrom cmds : ∀ cur prev,
  sumBatches (batchesFrom cur prev cmds) = indicesToDraw cur + sumIndices cmds.
Proof.
  induction cmds as [|c rest IH]; intros cur prev; simpl; [lia|].
  destruct (merges prev c); simpl; rewrite IH; simpl; lia.
Qed.

Lemma sumBatches_batchesOf cmds : sumBatches (batchesOf cmds) = sumIndices cmds.
Proof.
  destruct cmds as [|c rest]; [done|]. simpl.
  by rewrite sumBatches_batchesFrom.
Qed.

(** What [drawBatchedTriangles] does to a pending queue on which the
    assertion of the scan holds: one upload of each staging array, then the
    draw calls of the batches of the queue, in order. *)
Lemma drawBatchedTriangles_spec r :
  _queuedTriangleCommands r ≠ [] →
  noClashIn (_queuedTriangleCommands r) = true →
  ∃ a' cap',
    drawBatchedTriangles r
    = Done (flushedState r a' cap'
              (_drawnBatches r
               + Z.of_nat (length (batchesOf (_queuedTriangleCommands r))))
              (_drawnVertices r + sumIndices (_queuedTriangleCommands r))
              ([glBufferData GL_ARRAY_BUFFER
                  (sumVertices (_queuedTriangleCommands r));
                glBufferData GL_ELEMENT_ARRAY_BUFFER
                  (sumIndices (_queuedTriangleCommands r))]
               ++ drawCalls (batchesOf (_queuedTriangleCommands r)))).
Proof.
  intros Hne Hno. unfold drawBatchedTriangles.
  destruct (_queuedTriangleCommands r) as [|c rest] eqn:Hq; [done|].
  simpl in Hno.
  destruct (scan_from_start r c rest Hno)
    as (a' & cap' & n' & Hn' & Hrun & Hbs & _ & _).
  rewrite Hrun, bind_Done.
  cbn [fst snd batchesTotal].
  set (bs := batchesOf (c :: rest)) in *.
  replace (n' + 1) with (Z.of_nat (length bs)) by lia.
  rewrite (drawLoop bs).
  - exists a', cap'. rewrite bind_Done.
    unfold bs at 2. rewrite (sumBatches_batchesOf (c :: rest)).
    destruct r as [? ? ? ? ? ? ? ? ? ? ? ? [] ?]. simpl in *.
    unfold flushedState, set_filled, set_queuedTriangleCommands, set_drawn.
    simpl. rewrite <- !app_assoc. reflexivity.
  - intros k b Hk. simpl. rewrite <- (Hbs k b Hk). reflexivity.
  - apply batchesFrom_cmd. simpl. eauto.
Qed.

End Scan.

(** ** The batches of a queue *)

Section Batches.

Lemma shiftBatch_0 b : shiftBatch 0 b = b.
Proof. destruct b. unfold shiftBatch. simpl. f_equal. lia. Qed.







Lemma drawCalls_app bs1 bs2 : drawCalls (bs1 ++ bs2) = drawCalls bs1 ++ drawCalls bs2.
Proof. unfold drawCalls. apply flat_map_app. Qed.

(** No assertion of the scan fails when no material is the reserved value. *)
Lemma noClash_no_sentinel l : ∀ c0,
  Forall (fun c => materialID c ≠ NO_MATERIAL) l → noClash c0 l = true.
Proof.
  induction l as [|c rest IH]; intros c0 Hall; [done|].
  apply Forall_cons in Hall as [Hc Hall]. simpl. rewrite IH by done.
  unfold clash. apply Z.eqb_neq in Hc. rewrite Hc.
  by rewrite andb_false_r.
Qed.

(** No assertion of the scan fails on batchable commands. *)
Lemma noClash_batchable l : ∀ c0,
  skipBatching c0 = false → Forall (fun c => skipBatching c = false) l →
  noClash c0 l = true.
Proof.
  induction l as [|c rest IH]; intros c0 Hc0 Hall; [done|].
  apply Forall_cons in Hall as [Hc Hall]. simpl. rewrite IH by done.
  unfold clash. by rewrite Hc0.
Qed.

End Batches.

(** ** Batch membership during the scan *)

Section Membership.
Context `{Platform}.
Import Renderer.

Lemma merges_no_sentinel p c :
  materialID c ≠ NO_MATERIAL →
  merges (effectiveMaterial p) c = true
  ↔ skipBatching c = false ∧ skipBatching p = false ∧ materialID c = materialID p.
Proof.
  intros Hc. unfold merges, effectiveMaterial.
  rewrite andb_true_iff, negb_true_iff, Z.eqb_eq.
  destruct (skipBatching p); unfold NO_MATERIAL in *; split;
    intros; destruct_and?; split_and?; congruence.
Qed.

(** C1, amended. During the scan of the queued commands, none of which has
    the reserved material identifier: the first command fills entry 0, at
    offset 0; a later command [c], scanned after [p], takes the branch of
    the same batch if and only if it is not flagged skip-batching, [p] is
    not flagged skip-batching, and the two material identifiers are equal.
    In that branch it extends the current entry; otherwise it starts the
    next entry at the index fill position, the sum of the index counts
    scanned before. A skip-batching command thus joins neither the entry of
    the command before it nor that of the command after it. *)
Theorem C1_batch_membership (r : Renderer) (pre : list TrianglesCommand)
    (p c : TrianglesCommand) :
  Forall (fun x => materialID x ≠ NO_MATERIAL) (pre ++ [p; c]) →
  (∃ r0 s0,
     scanStep c (scanStart r) = Done (r0, s0)
     ∧ (sameBatch (scanStart r).2 c = true ↔ skipBatching c = false)
     ∧ batchesTotal s0 = 0
     ∧ _triBatchesToDraw r0 0 = mkBatch (Some c) (indexCount c) 0)
  ∧ ∃ r1 s1 r2 s2,
      for_each scanStep (pre ++ [p]) (scanStart r) = Done (r1, s1)
      ∧ scanStep c (r1, s1) = Done (r2, s2)
      ∧ _filledIndex r1 = sumIndices (pre ++ [p])
      ∧ (sameBatch s1 c = true
         ↔ skipBatching c = false ∧ skipBatching p = false
           ∧ materialID c = materialID p)
      ∧ (skipBatching c = true ∨ skipBatching p = true → sameBatch s1 c = false)
      ∧ (sameBatch s1 c = true →
         batchesTotal s2 = batchesTotal s1
         ∧ _triBatchesToDraw r2 (batchesTotal s1)
           = mkBatch (Some c)
               (indicesToDraw (_triBatchesToDraw r1 (batchesTotal s1))
                + indexCount c)
               (offset (_triBatchesToDraw r1 (batchesTotal s1))))
      ∧ (sameBatch s1 c = false →
         batchesTotal s2 = batchesTotal s1 + 1
         ∧ _triBatchesToDraw r2 (batchesTotal s1)
           = _triBatchesToDraw r1 (batchesTotal s1)
         ∧ _triBatchesToDraw r2 (batchesTotal s1 + 1)
           = mkBatch (Some c) (indexCount c) (_filledIndex r1))
      ∧ (∀ i, i < batchesTotal s1 → _triBatchesToDraw r2 i = _triBatchesToDraw r1 i).
Proof.
  intros Hall. split.
  - destruct (scanStep_first r c) as (a0 & cap0 & Hstep & Ha0).
    eexists _, _. split; [exact Hstep|]. repeat split; try done.
    + unfold sameBatch, scanStart. simpl. rewrite orb_true_r, andb_true_r.
      by intros ->%negb_true_iff.
    + unfold sameBatch, scanStart. simpl. rewrite orb_true_r, andb_true_r.
      by intros ->.
  - assert (materialID c ≠ NO_MATERIAL) as Hc.
    { rewrite Forall_app in Hall. destruct Hall as [_ Hpc].
      by apply Forall_cons in Hpc as [_ [? _]%Forall_cons]. }
    assert (∃ c0 rest0, pre ++ [p] = c0 :: rest0 ∧ List.last rest0 c0 = p
                        ∧ noClash c0 rest0 = true) as (c0 & rest0 & Heq & Hlast & Hno).
    { assert (Forall (fun x => materialID x ≠ NO_MATERIAL) (pre ++ [p])) as Hpre.
      { replace (pre ++ [p; c]) with ((pre ++ [p]) ++ [c]) in Hall
          by (by rewrite <- app_assoc).
        by apply Forall_app in Hall as [? _]. }
      destruct (pre ++ [p]) as [|c0 rest0] eqn:Heq.
      { by destruct pre. }
      exists c0, rest0. split; [done|]. split.
      - rewrite <- (last_cons_default c0 c0), <- Heq. apply last_last.
      - apply noClash_no_sentinel. by apply Forall_cons in Hpre as [_ ?]. }
    rewrite Heq.
    destruct (scan_from_start r c0 rest0 Hno)
      as (a1 & cap1 & n1 & Hn1 & Hrun & _ & Hcmd & Hend).
    rewrite Hlast in Hrun, Hcmd.
    assert (clash p c = false) as Hclash.
    { unfold clash. apply Z.eqb_neq in Hc. rewrite Hc. by rewrite andb_false_r. }
    destruct (scanStep_next r (sumVertices (c0 :: rest0)) (sumIndices (c0 :: rest0))
                a1 cap1 n1 p c Hcmd Hclash)
      as (a2 & cap2 & Hstep & Hlt & Hcur & Hgt).
    eexists _, _, _, _. split; [exact Hrun|]. split; [exact Hstep|].
    rewrite sameBatch_merges. cbn [batchesTotal].
    split_and!.
    + simpl. lia.
    + by apply merges_no_sentinel.
    + intros Hskip. apply not_true_is_false. intros Hm.
      apply merges_no_sentinel in Hm; [|done].
      destruct Hm as (? & ? & _). destruct Hskip; congruence.
    + intros Hm. rewrite Hm in Hcur. simpl. by rewrite Hm.
    + intros Hm. rewrite Hm in Hcur. simpl. destruct Hcur as [-> ->].
      rewrite Hm. split_and!; try done. f_equal. done.
    + intros i Hi. simpl. by apply Hlt.
Qed.

(** When the reserved identifier is the material of a command, a batchable
    command that follows a skip-batching one joins its entry (or fails the
    assertion of the scan, when the two materials differ). *)
Lemma scan_reserved_material (r : Renderer) :
  let p := mkTriangles 1 (Num 0) NO_MATERIAL true 4 6 in
  let c := mkTriangles 2 (Num 0) NO_MATERIAL false 4 6 in
  batchesOf [p; c] = [mkBatch (Some c) 12 0]
  ∧ (∃ a cap, drawBatchedTriangles (set_queuedTriangleCommands [p; c] r)
              = Done (flushedState r a cap (_drawnBatches r + 1)
                        (_drawnVertices r + 12)
                        [glBufferData GL_ARRAY_BUFFER 8;
                         glBufferData GL_ELEMENT_ARRAY_BUFFER 12;
                         useMaterial c; glDrawElements 12 0]))
  ∧ drawBatchedTriangles
      (set_queuedTriangleCommands
         [mkTriangles 1 (Num 0) 5 true 4 6; c] r)
    = Abort "argh... error in logic".
Proof.
  intros p c. split; [reflexivity|]. split.
  - destruct (drawBatchedTriangles_spec (set_queuedTriangleCommands [p; c] r))
      as (a & cap & Hrun); [done | done |].
    exists a, cap. rewrite Hrun. destruct r. reflexivity.
  - destruct r. unfold drawBatchedTriangles. simpl.
    unfold scanStep. simpl. unfold_outcome. simpl.
    destruct (0 + 1 >=? _); reflexivity.
Qed.

End Membership.

(** ** Runs of batchable commands of one material *)

Section Runs.
Context `{Platform}.
Import Renderer.





End Runs.

(** ** Every outcome of a flush *)

Section FlushOutcome.
Context `{Platform}.
Import Renderer.

Lemma scanStep_clash r fv fi a cap n c0 c :
  batch_cmd (a n) = Some c0 →
  clash c0 c = true →
  scanStep c (scanState r fv fi a cap, mkScan n (effectiveMaterial c0) false)
  = Abort "argh... error in logic".
Proof.
  intros Hc0 Hclash. unfold clash in Hclash.
  apply andb_true_iff in Hclash as [[[Hs0 Hs]%andb_true_iff Hm]%andb_true_iff Hne].
  apply negb_true_iff in Hs, Hne. apply Z.eqb_eq in Hm.
  unfold scanStep. cbn [fst snd batchesTotal firstCommand].
  rewrite sameBatch_merges. unfold merges, effectiveMaterial.
  rewrite Hs0, Hs, Hm, Z.eqb_refl. simpl. rewrite Hc0.
  unfold_outcome. rewrite Hm in Hne. by rewrite Hne.
Qed.

Lemma scan_rest_abort cmds : ∀ r fv fi a cap n c0,
  batch_cmd (a n) = Some c0 →
  noClash c0 cmds = false →
  for_each scanStep cmds
    (scanState r fv fi a cap, mkScan n (effectiveMaterial c0) false)
  = Abort "argh... error in logic".
Proof.
  induction cmds as [|c rest IH]; intros r fv fi a cap n c0 Hc0 Hno; [done|].
  simpl in Hno. cbn [for_each].
  destruct (clash c0 c) eqn:Hcl.
  - by rewrite scanStep_clash.
  - destruct (scanStep_next r fv fi a cap n c0 c Hc0 Hcl)
      as (a1 & cap1 & Hstep & _ & Hcur & _).
    rewrite Hstep, bind_Done. apply IH; [|done].
    destruct (merges (effectiveMaterial c0) c);
      [by rewrite Hcur | by destruct Hcur as [_ ->]].
Qed.

Lemma drawBatchedTriangles_abort r :
  noClashIn (_queuedTriangleCommands r) = false →
  drawBatchedTriangles r = Abort "argh... error in logic".
Proof.
  intros Hno. unfold drawBatchedTriangles.
  destruct (_queuedTriangleCommands r) as [|c rest]; [done|].
  simpl in Hno. cbn [for_each].
  destruct (scanStep_first r c) as (a1 & cap1 & Hstep & Ha1).
  rewrite Hstep, bind_Done.
  rewrite (scan_rest_abort rest r _ _ a1 cap1 0 c); [done | by rewrite Ha1 | done].
Qed.

Lemma drawBatchedTriangles_empty r :
  _queuedTriangleCommands r = [] → drawBatchedTriangles r = Done r.
Proof. intros Hq. unfold drawBatchedTriangles. by rewrite Hq. Qed.

(** The three outcomes of [drawBatchedTriangles]. *)
Lemma drawBatchedTriangles_cases r :
  (_queuedTriangleCommands r = [] ∧ drawBatchedTriangles r = Done r)
  ∨ (_queuedTriangleCommands r ≠ []
     ∧ noClashIn (_queuedTriangleCommands r) = true
     ∧ ∃ a cap,
         drawBatchedTriangles r
         = Done (flushedState r a cap
                   (_drawnBatches r
                    + Z.of_nat (length (batchesOf (_queuedTriangleCommands r))))
                   (_drawnVertices r + sumIndices (_queuedTriangleCommands r))
                   ([glBufferData GL_ARRAY_BUFFER
                       (sumVertices (_queuedTriangleCommands r));
                     glBufferData GL_ELEMENT_ARRAY_BUFFER
                       (sumIndices (_queuedTriangleCommands r))]
                    ++ drawCalls (batchesOf (_queuedTriangleCommands r)))))
  ∨ (noClashIn (_queuedTriangleCommands r) = false
     ∧ drawBatchedTriangles r = Abort "argh... error in logic").
Proof.
  destruct (_queuedTriangleCommands r) as [|c rest] eqn:Hq.
  - left. split; [done|]. by apply drawBatchedTriangles_empty.
  - right. destruct (noClashIn (c :: rest)) eqn:Hno.
    + left. split; [done|]. split; [done|].
      rewrite <- Hq. apply drawBatchedTriangles_spec; by rewrite Hq.
    + right. split; [done|]. apply drawBatchedTriangles_abort. by rewrite Hq.
Qed.

End FlushOutcome.

(** ** Staging triangles commands *)

Section Staging.
Context `{Platform}.
Import Renderer.

Lemma sumVertices_app l1 l2 :
  sumVertices (l1 ++ l2) = sumVertices l1 + sumVertices l2.
Proof. induction l1 as [|x l1 IH]; simpl; lia. Qed.

Lemma sumIndices_app l1 l2 :
  sumIndices (l1 ++ l2) = sumIndices l1 + sumIndices l2.
Proof. induction l1 as [|x l1 IH]; simpl; lia. Qed.



(** The dispatch of a triangles command when the staging arrays have room. *)
Lemma process_triangles_room fuel c r :
  (_filledVertex r + vertexCount c >? VBO_SIZE)
  || (_filledIndex r + indexCount c >? INDEX_VBO_SIZE) = false →
  processRenderCommand fuel (Some (Triangles c)) r = Done (stageCommand c r).
Proof.
  intros Hroom. unfold processRenderCommand, processRenderCommandWith.
  rewrite Hroom. reflexivity.
Qed.

(** The dispatch of a triangles command that fits alone, when the staging
    arrays have no room for it: the pending queue is flushed first. *)
Lemma process_triangles_full fuel c r :
  fitsAlone c →
  (_filledVertex r + vertexCount c >? VBO_SIZE)
  || (_filledIndex r + indexCount c >? INDEX_VBO_SIZE) = true →
  processRenderCommand fuel (Some (Triangles c)) r
  = drawBatchedTriangles r ≫= (fun r1 => Done (stageCommand c r1)).
Proof.
  intros [[Hv0 Hv] [Hi0 Hi]] Hfull.
  unfold processRenderCommand, processRenderCommandWith.
  rewrite Hfull. unfold CCASSERT.
  apply Z.leb_le in Hv0, Hi0. apply Z.ltb_lt in Hv, Hi.
  rewrite Hv0, Hv, Hi0, Hi. simpl. reflexivity.
Qed.

Lemma staged_stageCommand c r : staged r → staged (stageCommand c r).
Proof.
  intros [Hv Hi]. unfold staged, stageCommand. simpl.
  rewrite sumVertices_app, sumIndices_app, Hv, Hi. simpl. lia.
Qed.

(** One dispatched triangles command that fits alone: the run goes on with
    the fill positions within the staging arrays, or ends on the assertion
    of the scan. *)
Lemma process_triangles_step fuel c r :
  staged r → withinCapacity r → fitsAlone c →
  (∃ r', processRenderCommand fuel (Some (Triangles c)) r = Done r'
         ∧ staged r' ∧ withinCapacity r'
         ∧ (_queuedTriangleCommands r' = _queuedTriangleCommands r ++ [c]
            ∨ (noClashIn (_queuedTriangleCommands r) = true
               ∧ _queuedTriangleCommands r' = [c])))
  ∨ (noClashIn (_queuedTriangleCommands r) = false
     ∧ processRenderCommand fuel (Some (Triangles c)) r
       = Abort "argh... error in logic").
Proof.
  intros Hst Hw Hfit.
  destruct ((_filledVertex r + vertexCount c >? VBO_SIZE)
            || (_filledIndex r + indexCount c >? INDEX_VBO_SIZE)) eqn:Hfull.
  - rewrite (process_triangles_full fuel c r Hfit Hfull).
    destruct (drawBatchedTriangles_cases r)
      as [[Hq Hd] | [(Hq & Hno & a & cap & Hd) | [Hno Hd]]].
    + exfalso. destruct Hst as [Hv Hi]. rewrite Hq in Hv, Hi. simpl in Hv, Hi.
      destruct Hfit as [[? ?] [? ?]].
      apply orb_true_iff in Hfull as [Hf|Hf]; apply Z.gtb_lt in Hf; lia.
    + left. rewrite Hd, bind_Done. eexists. split; [reflexivity|].
      destruct Hfit as [[? ?] [? ?]].
      split_and!; unfold staged, withinCapacity, stageCommand; simpl; try lia.
      by right.
    + right. by rewrite Hd.
  - left. rewrite (process_triangles_room fuel c r Hfull).
    eexists. split; [reflexivity|].
    apply orb_false_iff in Hfull as [Hv Hi].
    rewrite Z.gtb_ltb in Hv, Hi. apply Z.ltb_ge in Hv, Hi.
    destruct Hw as [[? ?] [? ?]]. destruct Hfit as [[? ?] [? ?]].
    split_and!; [by apply staged_stageCommand | | by left].
    unfold withinCapacity, stageCommand; simpl; lia.
Qed.



End Staging.

(** ** Loops *)

Section Loops.
Context {A S : Type}.
Implicit Types (body : A → S → outcome S) (I : S → Prop).

(** An invariant of the body is an invariant of the loop. *)
Lemma for_each_inv I body l : ∀ s s',
  (∀ x s1 s2, x ∈ l → I s1 → body x s1 = Done s2 → I s2) →
  I s → for_each body l s = Done s' → I s'.
Proof.
  induction l as [|x l IH]; intros s s' Hbody Hs Hrun; simpl in Hrun.
  - by injection Hrun as <-.
  - apply bind_Done_inv in Hrun as (s1 & Hx & Hrun).
    apply (IH s1 s'); [|by apply (Hbody x s s1); [left | |]|done].
    intros y ? ? Hy. apply Hbody. by right.
Qed.

(** In a loop that completes, the body has completed on every element, from
    a state in which the invariant holds. *)
Lemma for_each_elem I body l x : ∀ s s',
  (∀ y s1 s2, y ∈ l → I s1 → body y s1 = Done s2 → I s2) →
  I s → for_each body l s = Done s' → x ∈ l →
  ∃ s1 s2, I s1 ∧ body x s1 = Done s2.
Proof.
  induction l as [|y l IH]; intros s s' Hbody Hs Hrun Hx; [by inversion Hx|].
  simpl in Hrun. apply bind_Done_inv in Hrun as (s1 & Hy & Hrun).
  apply elem_of_cons in Hx as [->|Hx]; [by eauto|].
  apply (IH s1 s'); [| |done|done].
  - intros z ? ? Hz. apply Hbody. by right.
  - by apply (Hbody y s s1); [left | |].
Qed.

Lemma for_each_app body l1 l2 s :
  for_each body (l1 ++ l2) s = for_each body l1 s ≫= for_each body l2.
Proof.
  revert s. induction l1 as [|x l1 IH]; intros s; [done|].
  simpl. destruct (body x s); try done. simpl. apply IH.
Qed.

End Loops.

(** ** What a sweep leaves alone *)

Section Frame.
Context `{Platform}.
Import Renderer.

Lemma at_Done {B : Type} (l : list B) (i : Z) (x : B) :
  RenderQueue.at_ l i = Done x ↔ 0 <= i ∧ l !! Z.to_nat i = Some x.
Proof.
  unfold RenderQueue.at_. destruct (i <? 0) eqn:Hi.
  - apply Z.ltb_lt in Hi. split; [done | lia].
  - apply Z.ltb_ge in Hi. destruct (l !! Z.to_nat i); split.
    + by intros [= ->].
    + by intros [_ [= ->]].
    + done.
    + by intros [_ ?].
Qed.

(** A flush that completes leaves the queues, the flags and the settings as
    they are; the pending queue is empty after it and the calls it issues are
    added to those issued before. *)
Lemma flush_frame r r' :
  flush r = Done r' →
  _renderGroups r' = _renderGroups r
  ∧ _isDepthTestFor2D r' = _isDepthTestFor2D r
  ∧ flags (gl r') = flags (gl r)
  ∧ errorLog r' = errorLog r
  ∧ _queuedTriangleCommands r' = []
  ∧ _filledVertex r'
    = match _queuedTriangleCommands r with [] => _filledVertex r | _ => 0 end
  ∧ _filledIndex r'
    = match _queuedTriangleCommands r with [] => _filledIndex r | _ => 0 end
  ∧ calls (gl r')
    = calls (gl r)
      ++ match _queuedTriangleCommands r with
         | [] => []
         | _ => [glBufferData GL_ARRAY_BUFFER
                   (sumVertices (_queuedTriangleCommands r));
                 glBufferData GL_ELEMENT_ARRAY_BUFFER
                   (sumIndices (_queuedTriangleCommands r))]
                ++ drawCalls (batchesOf (_queuedTriangleCommands r))
         end.
Proof.
  unfold flush, flush2D, flushTriangles. intros Hrun.
  destruct (drawBatchedTriangles_cases r)
    as [[Hq Hd] | [(Hq & Hno & a & cap & Hd) | [_ Hd]]];
    rewrite Hd in Hrun; [| |done]; injection Hrun as <-.
  - rewrite Hq. by rewrite app_nil_r.
  - destruct (_queuedTriangleCommands r); done.
Qed.

(** The queues after one dispatched command: those before, unless the
    command is a group command, whose queue is then swept after a flush. *)
Lemma process_groups visit c r r' :
  processRenderCommandWith visit (Some c) r = Done r' →
  _renderGroups r' = _renderGroups r
  ∨ ∃ name order b rf,
      c = Group name order b
      ∧ flush r = Done rf
      ∧ visit b rf = Done r'.
Proof.
  unfold processRenderCommandWith. intros Hrun.
  destruct c as [n o | t | n o b | n o | n o | n o].
  - injection Hrun as <-. by left.
  - left. apply bind_Done_inv in Hrun as (r1 & Hr1 & Hrun).
    injection Hrun as <-. simpl.
    destruct (_ || _) in Hr1.
    + apply bind_Done_inv in Hr1 as (? & _ & Hr1).
      apply bind_Done_inv in Hr1 as (? & _ & Hr1).
      by apply flush_frame in Hr1 as [? _].
    + by injection Hr1 as <-.
  - right. apply bind_Done_inv in Hrun as (rf & Hf & Hv). by eauto 10.
  - left. apply bind_Done_inv in Hrun as (rf & Hf & Hv). injection Hv as <-.
    by apply flush_frame in Hf as [? _].
  - left. apply bind_Done_inv in Hrun as (rf & Hf & Hv). injection Hv as <-.
    by apply flush_frame in Hf as [? _].
  - left. apply bind_Done_inv in Hrun as (rf & Hf & Hv). injection Hv as <-.
    by apply flush_frame in Hf as [? _].
Qed.

(** A property of the queues that the sweeps of the group commands of
    [cmds] keep is kept by the dispatch of [cmds]. *)
Lemma dispatch_groups_inv (I : list RenderQueue → Prop) visit cmds r r' :
  (∀ name order b rf rf',
     Group name order b ∈ cmds → I (_renderGroups rf) →
     visit b rf = Done rf' → I (_renderGroups rf')) →
  I (_renderGroups r) →
  for_each (fun c => processRenderCommandWith visit (Some c)) cmds r = Done r' →
  I (_renderGroups r').
Proof.
  intros Hvisit. apply (for_each_inv (fun s => I (_renderGroups s))).
  intros c s1 s2 Hc Hs1 Hrun.
  destruct (process_groups visit c s1 s2 Hrun)
    as [-> | (n & o & b & rf & -> & Hf & Hv)]; [done|].
  apply (Hvisit n o b rf s2); [done | | done].
  apply flush_frame in Hf as [-> _]. done.
Qed.

Lemma visitSubQueue_groups_inv (I : list RenderQueue → Prop) visit sub setup id r r' :
  (∀ q name order b rf rf',
     _renderGroups r !! Z.to_nat id = Some q →
     Group name order b ∈ sub q → I (_renderGroups rf) →
     visit b rf = Done rf' → I (_renderGroups rf')) →
  I (_renderGroups r) →
  visitSubQueue visit sub setup id r = Done r' →
  I (_renderGroups r').
Proof.
  intros Hvisit Hr Hrun. unfold visitSubQueue in Hrun.
  apply bind_Done_inv in Hrun as (q & Hq & Hrun).
  apply at_Done in Hq as [_ Hq].
  destruct (sub q) as [|c0 cmds] eqn:Hsub; [by injection Hrun as <-|].
  apply bind_Done_inv in Hrun as (r1 & Hloop & Hf).
  apply flush_frame in Hf as [-> _].
  revert Hloop. apply dispatch_groups_inv; [|done].
  intros n o b rf rf' Hb. apply (Hvisit q n o b); [done|]. by rewrite Hsub.
Qed.

End Frame.

(** ** The sweep of a queue *)

Ltac in_commands := intros; unfold _commands; rewrite !elem_of_cons; tauto.

Section Sweep.
Context `{Platform}.
Import Renderer.

Lemma structure_save (G : list RenderQueue) (i : nat) (q : RenderQueue) (g : GLState) :
  G !! i = Some q →
  _commands <$> <[i := RenderQueue.saveRenderState g q]> G = _commands <$> G.
Proof.
  intros Hq. rewrite list_fmap_insert. apply list_insert_id.
  by rewrite list_lookup_fmap, Hq.
Qed.

(** The steps of a sweep that completes. *)
Lemma visit_Done_inv n id r r' :
  visitRenderQueue (S n) id r = Done r' →
  ∃ q r1 r2 r3 r4 r5 q5,
    0 <= id
    ∧ _renderGroups r !! Z.to_nat id = Some q
    ∧ visitSubQueue (visitRenderQueue n) GLOBALZ_NEG setup2D id
        (set_renderGroups
           (<[Z.to_nat id := RenderQueue.saveRenderState (gl r) q]> (_renderGroups r)) r)
      = Done r1
    ∧ visitSubQueue (visitRenderQueue n) OPAQUE_3D setupOpaque3D id r1 = Done r2
    ∧ visitSubQueue (visitRenderQueue n) TRANSPARENT_3D setupTransparent3D id r2
      = Done r3
    ∧ visitSubQueue (visitRenderQueue n) GLOBALZ_ZERO setup2D id r3 = Done r4
    ∧ visitSubQueue (visitRenderQueue n) GLOBALZ_POS setup2D id r4 = Done r5
    ∧ _renderGroups r5 !! Z.to_nat id = Some q5
    ∧ r' = set_gl (RenderQueue.restoreRenderState q5 (gl r5)) r5.
Proof.
  cbn [visitRenderQueue]. intros Hrun.
  apply bind_Done_inv in Hrun as (q & Hq & Hrun). apply at_Done in Hq as [Hid Hq].
  apply bind_Done_inv in Hrun as (r1 & H1 & Hrun).
  apply bind_Done_inv in Hrun as (r2 & H2 & Hrun).
  apply bind_Done_inv in Hrun as (r3 & H3 & Hrun).
  apply bind_Done_inv in Hrun as (r4 & H4 & Hrun).
  apply bind_Done_inv in Hrun as (r5 & H5 & Hrun).
  apply bind_Done_inv in Hrun as (q5 & Hq5 & Hrun). apply at_Done in Hq5 as [_ Hq5].
  injection Hrun as <-.
  exists q, r1, r2, r3, r4, r5, q5. done.
Qed.

Lemma edge_of_sub (G : list RenderQueue) (id : Z) (q : RenderQueue)
    (sub : list RenderCommand) name order b :
  0 <= id → G !! Z.to_nat id = Some q → sub ∈ _commands q →
  Group name order b ∈ sub →
  groupEdge (_commands <$> G) id b.
Proof.
  intros Hid Hq Hsub Hb. split; [done|].
  exists (_commands q), sub, name, order.
  by rewrite list_lookup_fmap, Hq.
Qed.

(** A property of the queues that fixes their commands, holds after the
    state is saved and is kept by the sweeps of the queues that [id] has group
    commands for, holds after the sweep of [id]. *)
Lemma visit_groups_inv (I : list RenderQueue → Prop) n id r r' :
  (∀ G, I G → _commands <$> G = structure r) →
  (∀ b rf rf', groupEdge (structure r) id b → I (_renderGroups rf) →
               visitRenderQueue n b rf = Done rf' → I (_renderGroups rf')) →
  (∀ q, _renderGroups r !! Z.to_nat id = Some q →
        I (<[Z.to_nat id := RenderQueue.saveRenderState (gl r) q]> (_renderGroups r))) →
  visitRenderQueue (S n) id r = Done r' →
  I (_renderGroups r').
Proof.
  intros HS Hvisit Hsave Hrun.
  apply visit_Done_inv in Hrun
    as (q & r1 & r2 & r3 & r4 & r5 & q5 & Hid & Hq & H1 & H2 & H3 & H4 & H5 & Hq5 & ->).
  simpl.
  assert (∀ sub setup ra rb,
            (∀ q', sub q' ∈ _commands q') →
            I (_renderGroups ra) →
            visitSubQueue (visitRenderQueue n) sub setup id ra = Done rb →
            I (_renderGroups rb)) as Hstep.
  { intros sub setup ra rb Hsub Hra. apply visitSubQueue_groups_inv; [|done].
    intros q' name order b rf rf' Hq' Hb. apply Hvisit.
    rewrite <- (HS _ Hra). by apply (edge_of_sub _ _ q' (sub q') name order). }
  assert (I (_renderGroups r1)) as I1.
  { eapply (Hstep GLOBALZ_NEG); [in_commands | | exact H1]. by apply Hsave. }
  assert (I (_renderGroups r2)) as I2.
  { eapply (Hstep OPAQUE_3D); [in_commands | exact I1 | exact H2]. }
  assert (I (_renderGroups r3)) as I3.
  { eapply (Hstep TRANSPARENT_3D); [in_commands | exact I2 | exact H3]. }
  assert (I (_renderGroups r4)) as I4.
  { eapply (Hstep GLOBALZ_ZERO); [in_commands | exact I3 | exact H4]. }
  eapply (Hstep GLOBALZ_POS); [in_commands | exact I4 | exact H5].
Qed.

(** A sweep does not change the commands the queues hold. *)
Lemma visit_structure n : ∀ id r r',
  visitRenderQueue n id r = Done r' → structure r' = structure r.
Proof.
  induction n as [|n IH]; intros id r r' Hrun; [done|].
  revert Hrun.
  apply (visit_groups_inv (fun G => _commands <$> G = structure r)); [done | |].
  - intros b rf rf' _ Hrf Hrun. rewrite <- Hrf. by apply (IH b).
  - intros q Hq. by apply structure_save.
Qed.

(** A sweep does not change the state saved in a queue that cannot be
    reached from the swept one through group commands. *)
Lemma visit_snapshot_frame n : ∀ b r r' (k : nat),
  visitRenderQueue n b r = Done r' →
  ¬ rtc (groupEdge (structure r)) b (Z.of_nat k) →
  snapshot <$> (_renderGroups r' !! k) = snapshot <$> (_renderGroups r !! k).
Proof.
  induction n as [|n IH]; intros b r r' k Hrun Hfar; [done|].
  pose proof Hrun as (q & _ & _ & _ & _ & _ & _ & Hb & Hq & _)%visit_Done_inv.
  enough (_commands <$> _renderGroups r' = structure r
          ∧ snapshot <$> (_renderGroups r' !! k)
            = snapshot <$> (_renderGroups r !! k)) as [_ ?]; [done|].
  revert Hrun.
  apply (visit_groups_inv
           (fun G => _commands <$> G = structure r
                     ∧ snapshot <$> (G !! k) = snapshot <$> (_renderGroups r !! k))).
  - by intros G [? _].
  - intros c rf rf' Hedge [HS Hsnap] Hrun. split.
    + rewrite <- HS. by apply (visit_structure n c).
    + rewrite <- Hsnap. apply (IH c); [done|].
      fold (structure rf) in HS. rewrite HS. intros Hreach. apply Hfar.
      by apply (rtc_l _ _ c).
  - intros q' Hq'. split; [by apply structure_save|].
    rewrite list_lookup_insert_ne; [done|].
    intros Heq. apply Hfar. replace (Z.of_nat k) with b by lia. apply rtc_refl.
Qed.

Lemma visitSubQueue_structure n sub setup id r r' :
  visitSubQueue (visitRenderQueue n) sub setup id r = Done r' →
  structure r' = structure r.
Proof.
  apply (visitSubQueue_groups_inv (fun G => _commands <$> G = structure r)); [|done].
  intros q name order b rf rf' _ _ Hrf Hrun. rewrite <- Hrf.
  by apply (visit_structure n b).
Qed.

(** In a sub-queue of a sweep that completes, the sweep of the queue of every
    group command has completed. *)
Lemma visitSubQueue_descend n sub setup id r r' q name order b :
  visitSubQueue (visitRenderQueue n) sub setup id r = Done r' →
  _renderGroups r !! Z.to_nat id = Some q →
  Group name order b ∈ sub q →
  ∃ rf rf', structure rf = structure r ∧ visitRenderQueue n b rf = Done rf'.
Proof.
  intros Hrun Hq Hb. unfold visitSubQueue in Hrun.
  apply bind_Done_inv in Hrun as (q' & Hq' & Hrun).
  apply at_Done in Hq' as [_ Hq']. rewrite Hq in Hq'. injection Hq' as <-.
  destruct (sub q) as [|c0 cmds] eqn:Hsub; [by inversion Hb|].
  apply bind_Done_inv in Hrun as (r1 & Hloop & _).
  destruct (for_each_elem (fun s => structure s = structure r)
              (fun c => processRenderCommandWith (visitRenderQueue n) (Some c))
              (c0 :: cmds) (Group name order b)
              (set_gl (setup r (gl r)) r) r1)
    as (s1 & s2 & Hs1 & Hstep); [|done|done|done|].
  - intros c s1 s2 _ Hs1 Hstep.
    destruct (process_groups _ c s1 s2 Hstep)
      as [HG | (n' & o' & b' & rf & _ & Hf & Hv)].
    + unfold structure. by rewrite HG.
    + apply visit_structure in Hv. rewrite Hv, <- Hs1.
      apply flush_frame in Hf as [HG _]. unfold structure. by rewrite HG.
  - unfold processRenderCommandWith in Hstep.
    apply bind_Done_inv in Hstep as (rf & Hf & Hv).
    exists rf, s2. split; [|done].
    rewrite <- Hs1. apply flush_frame in Hf as [HG _].
    unfold structure. by rewrite HG.
Qed.

Lemma structure_lookup r r1 (i : nat) q :
  structure r1 = structure r → _renderGroups r !! i = Some q →
  ∃ q1, _renderGroups r1 !! i = Some q1 ∧ _commands q1 = _commands q.
Proof.
  unfold structure. intros HS Hq.
  assert ((_commands <$> _renderGroups r1) !! i = Some (_commands q)) as Hq1.
  { by rewrite HS, list_lookup_fmap, Hq. }
  rewrite list_lookup_fmap in Hq1.
  destruct (_renderGroups r1 !! i) as [q1|]; [|done].
  exists q1. split; [done|]. simpl in Hq1. congruence.
Qed.

(** In a sweep that completes, the sweep of every queue the swept one has a
    group command for has completed, with less fuel. *)
Lemma visit_descend n a b r r' :
  visitRenderQueue (S n) a r = Done r' →
  groupEdge (structure r) a b →
  ∃ rf rf', structure rf = structure r ∧ visitRenderQueue n b rf = Done rf'.
Proof.
  intros Hrun (_ & subs & sub & name & order & Hsubs & Hsub & Hb).
  apply visit_Done_inv in Hrun
    as (q & r1 & r2 & r3 & r4 & r5 & q5 & Hid & Hq & H1 & H2 & H3 & H4 & H5 & _).
  unfold structure in Hsubs. rewrite list_lookup_fmap, Hq in Hsubs.
  injection Hsubs as <-.
  set (r0 := set_renderGroups _ r) in H1.
  assert (structure r0 = structure r) as S0 by (by apply structure_save).
  pose proof (visitSubQueue_structure _ _ _ _ _ _ H1) as S1. rewrite S0 in S1.
  pose proof (visitSubQueue_structure _ _ _ _ _ _ H2) as S2. rewrite S1 in S2.
  pose proof (visitSubQueue_structure _ _ _ _ _ _ H3) as S3. rewrite S2 in S3.
  pose proof (visitSubQueue_structure _ _ _ _ _ _ H4) as S4. rewrite S3 in S4.
  assert (∀ proj setup ra rb,
            structure ra = structure r →
            (∀ q1, _commands q1 = _commands q → proj q1 = sub) →
            visitSubQueue (visitRenderQueue n) proj setup a ra = Done rb →
            ∃ rf rf', structure rf = structure r
                      ∧ visitRenderQueue n b rf = Done rf') as Hstep.
  { intros proj setup ra rb Sa Hproj Hsweep.
    destruct (structure_lookup r ra _ q Sa Hq) as (q1 & Hq1 & Hc1).
    destruct (visitSubQueue_descend n proj setup a ra rb q1 name order b)
      as (rf & rf' & Hrf & Hv); [done | done | by rewrite (Hproj q1) |].
    exists rf, rf'. split; [by rewrite Hrf|done]. }
  unfold _commands in Hsub. rewrite !elem_of_cons, elem_of_nil in Hsub.
  destruct Hsub as [-> | [-> | [-> | [-> | [-> | []]]]]].
  - apply (Hstep GLOBALZ_NEG setup2D r0 r1); [done | | done].
    intros q1 Hq1. by injection Hq1.
  - apply (Hstep OPAQUE_3D setupOpaque3D r1 r2); [done | | done].
    intros q1 Hq1. by injection Hq1.
  - apply (Hstep TRANSPARENT_3D setupTransparent3D r2 r3); [done | | done].
    intros q1 Hq1. by injection Hq1.
  - apply (Hstep GLOBALZ_ZERO setup2D r3 r4); [done | | done].
    intros q1 Hq1. by injection Hq1.
  - apply (Hstep GLOBALZ_POS setup2D r4 r5); [done | | done].
    intros q1 Hq1. by injection Hq1.
Qed.

(** A queue reached through group commands from one whose sweep completes
    has a sweep that completes with less fuel. *)
Lemma visit_reach a b S :
  tc (groupEdge S) a b →
  ∀ n r r', structure r = S → visitRenderQueue n a r = Done r' →
  ∃ m rf rf', (m < n)%nat ∧ structure rf = S ∧ visitRenderQueue m b rf = Done rf'.
Proof.
  induction 1 as [a b Hedge | a c b Hedge _ IH]; intros n r r' HS Hrun.
  - destruct n as [|n]; [done|]. subst S.
    destruct (visit_descend n a b r r' Hrun Hedge) as (rf & rf' & ? & ?).
    exists n, rf, rf'. split; [lia|done].
  - destruct n as [|n]; [done|]. subst S.
    destruct (visit_descend n a c r r' Hrun Hedge) as (rf & rf' & HSf & Hv).
    destruct (IH n rf rf' HSf Hv) as (m & rg & rg' & Hm & ? & ?).
    exists m, rg, rg'. split; [lia|done].
Qed.

(** The queue of a sweep that completes is not reached from itself. *)
Lemma visit_no_cycle n : ∀ id r r',
  visitRenderQueue n id r = Done r' → ¬ tc (groupEdge (structure r)) id id.
Proof.
  induction n as [n IH] using lt_wf_ind. intros id r r' Hrun Hcycle.
  destruct (visit_reach id id _ Hcycle n r r' eq_refl Hrun)
    as (m & rf & rf' & Hm & HS & Hv).
  apply (IH m Hm id rf rf' Hv). by rewrite HS.
Qed.

Lemma ambient_restore q g :
  ambient (RenderQueue.restoreRenderState q g) = snapshot q.
Proof. reflexivity. Qed.

(** The state saved at the start of a sweep is the one restored at its end. *)
Lemma visit_ambient n id r r' :
  visitRenderQueue n id r = Done r' → ambient (gl r') = ambient (gl r).
Proof.
  intros Hrun. destruct n as [|n]; [done|].
  pose proof (visit_no_cycle _ _ _ _ Hrun) as Hacyclic.
  pose proof Hrun as (q & r1 & r2 & r3 & r4 & r5 & q5 & Hid & Hq & _ & _ & _ & _
                      & _ & Hq5 & Hr')%visit_Done_inv.
  enough (_commands <$> _renderGroups r' = structure r
          ∧ snapshot <$> (_renderGroups r' !! Z.to_nat id) = Some (ambient (gl r)))
    as [_ Hsnap].
  { rewrite Hr' in Hsnap |- *. simpl in Hsnap. rewrite Hq5 in Hsnap.
    simpl. rewrite ambient_restore. simpl in Hsnap. congruence. }
  revert Hrun.
  apply (visit_groups_inv
           (fun G => _commands <$> G = structure r
                     ∧ snapshot <$> (G !! Z.to_nat id) = Some (ambient (gl r)))).
  - by intros G [? _].
  - intros c rf rf' Hedge [HS Hsnap] Hrun. split.
    + rewrite <- HS. by apply (visit_structure n c).
    + rewrite <- Hsnap. apply (visit_snapshot_frame n c); [done|].
      fold (structure rf) in HS. rewrite HS, Z2Nat.id by done.
      intros Hreach. apply Hacyclic.
      eapply tc_rtc_r; [apply tc_once; exact Hedge | exact Hreach].
  - intros q' Hq'. split; [by apply structure_save|].
    rewrite list_lookup_insert_eq; [done|]. by apply lookup_lt_Some in Hq'.
Qed.

End Sweep.

(** ** The ambient state around a sweep *)

Section Ambient.
Context `{Platform}.
Import Renderer.

Lemma size_zero q :
  RenderQueue.size q = 0 ↔ _commands q = [[]; []; []; []; []].
Proof.
  unfold RenderQueue.size, _commands. simpl. split.
  - intros Hsize.
    destruct (GLOBALZ_NEG q), (OPAQUE_3D q), (TRANSPARENT_3D q),
      (GLOBALZ_ZERO q), (GLOBALZ_POS q); simpl in Hsize; try lia. done.
  - intros [= -> -> -> -> ->]. done.
Qed.

Lemma visitSubQueue_empty visit sub setup id r q :
  0 <= id → _renderGroups r !! Z.to_nat id = Some q → sub q = [] →
  visitSubQueue visit sub setup id r = Done r.
Proof.
  intros Hid Hq Hsub. unfold visitSubQueue.
  rewrite (proj2 (at_Done _ _ _) (conj Hid Hq)), bind_Done. by rewrite Hsub.
Qed.

Lemma restore_saved g q :
  RenderQueue.restoreRenderState (RenderQueue.saveRenderState g q) g = g.
Proof. by destruct g as [[] ?]. Qed.

(** The sweep of a queue that holds no command. *)
Lemma visit_empty_queue n r q :
  _renderGroups r !! 0%nat = Some q →
  _commands q = [[]; []; []; []; []] →
  visitRenderQueue (S n) 0 r
  = Done (set_renderGroups
            (<[0%nat := RenderQueue.saveRenderState (gl r) q]> (_renderGroups r)) r).
Proof.
  intros Hq Hempty. injection Hempty as Hneg Hopaque Htrans Hzero Hpos.
  cbn [visitRenderQueue].
  rewrite (proj2 (at_Done _ 0 _) (conj (Z.le_refl 0) Hq)), bind_Done.
  change (Z.to_nat 0) with 0%nat.
  set (r0 := set_renderGroups _ r).
  assert (_renderGroups r0 !! Z.to_nat 0
          = Some (RenderQueue.saveRenderState (gl r) q)) as Hq0.
  { apply list_lookup_insert_eq. by apply lookup_lt_Some in Hq. }
  do 5 (rewrite (visitSubQueue_empty _ _ _ 0 r0 _ (Z.le_refl 0) Hq0) by done;
        rewrite bind_Done).
  rewrite (proj2 (at_Done _ 0 _) (conj (Z.le_refl 0) Hq0)), bind_Done.
  f_equal. unfold r0, set_gl, set_renderGroups. simpl.
  rewrite restore_saved. reflexivity.
Qed.

Lemma sort_empty `{!StdSortContract} q :
  _commands q = [[]; []; []; []; []] → RenderQueue.sort q = q.
Proof.
  intros [= Hneg Hopaque Htrans Hzero Hpos].
  assert (∀ cmp : RenderCommand → RenderCommand → bool, std_sort cmp [] = [])
    as Hsort.
  { intros cmp. apply Permutation_nil. symmetry. apply std_sort_perm.
    split_and!; intros; exfalso; by eapply not_elem_of_nil. }
  unfold RenderQueue.sort. simpl. rewrite Hneg, Hpos, !Hsort.
  destruct q. simpl in *. by subst.
Qed.

(** C7. The depth-test, cull-face and depth-write flags read at the start of
    a sweep that completes are those the GL context has after it, whatever
    the commands of the queue and of the queues swept through its group
    commands have done; this holds of the sweep a group command starts, too.
    With no command in any queue, [render] completes, issues no call and
    leaves the whole GL state as it was. *)
Theorem C7_ambient_restored `{!StdSortContract} :
  (∀ n id r r',
     visitRenderQueue n id r = Done r' → ambient (gl r') = ambient (gl r))
  ∧ (∀ n name order id r r',
       processRenderCommand n (Some (Group name order id)) r = Done r' →
       ambient (gl r') = ambient (gl r))
  ∧ (∀ fuel r,
       _renderGroups r ≠ [] →
       Forall (fun q => RenderQueue.size q = 0) (_renderGroups r) →
       ∃ r', render (S fuel) r = Done r'
             ∧ gl r' = gl r
             ∧ filter isDraw (calls (gl r')) = filter isDraw (calls (gl r))
             ∧ _drawnBatches r' = _drawnBatches r).
Proof.
  split; [exact visit_ambient|]. split.
  - intros n name order id r r' Hrun.
    unfold processRenderCommand, processRenderCommandWith in Hrun.
    apply bind_Done_inv in Hrun as (rf & Hf & Hv).
    apply visit_ambient in Hv. rewrite Hv.
    apply flush_frame in Hf as (_ & _ & Hflags & _). unfold ambient.
    by rewrite Hflags.
  - intros fuel r Hne Hempty. unfold render.
    change (_glViewAssigned (set_isRendering true r)) with (_glViewAssigned r).
    change (_renderGroups (set_isRendering true r)) with (_renderGroups r).
    destruct (_glViewAssigned r) eqn:Hview.
    + assert (RenderQueue.sort <$> _renderGroups r = _renderGroups r) as Hsort.
      { rewrite <- (list_fmap_id (_renderGroups r)) at 2.
        apply Forall_fmap_ext_1. eapply Forall_impl; [exact Hempty|].
        intros q Hq. simpl. by apply sort_empty, size_zero. }
      change (map RenderQueue.sort (_renderGroups r))
        with (RenderQueue.sort <$> _renderGroups r).
      rewrite Hsort.
      destruct (_renderGroups r) as [|q G] eqn:HG; [done|].
      apply Forall_cons in Hempty as [Hq _]. apply size_zero in Hq.
      rewrite (visit_empty_queue fuel _ q); [|done|done].
      rewrite bind_Done. eexists. split; [reflexivity|]. done.
    + rewrite bind_Done. eexists. split; [reflexivity|]. done.
Qed.

End Ambient.

(** ** Commands of unknown type *)

Section UnknownCommand.
Context `{Platform}.
Import Renderer.

(** C10. The dispatch of a command of unknown type completes; it reports
    the command and leaves the pending queue, the fill positions, the GL
    state with the calls issued, the draw counters and the queues as they
    were: nothing is flushed and nothing is drawn. *)
Theorem C10_unknown_is_skipped (fuel : nat) (name : nat) (order : float)
    (r : Renderer) :
  ∃ r',
    processRenderCommand fuel (Some (Unknown name order)) r = Done r'
    ∧ errorLog r' = errorLog r ++ ["Unknown commands in renderQueue"]
    ∧ _queuedTriangleCommands r' = _queuedTriangleCommands r
    ∧ _filledVertex r' = _filledVertex r
    ∧ _filledIndex r' = _filledIndex r
    ∧ gl r' = gl r
    ∧ _drawnBatches r' = _drawnBatches r
    ∧ _drawnVertices r' = _drawnVertices r
    ∧ _renderGroups r' = _renderGroups r
    ∧ _triBatchesToDraw r' = _triBatchesToDraw r.
Proof. eexists. split; [reflexivity|]. done. Qed.

End UnknownCommand.

(** ** The order of the calls *)

Section Order.
Context `{Platform}.
Import Renderer.

Lemma callCommands_app l1 l2 :
  callCommands (l1 ++ l2) = callCommands l1 ++ callCommands l2.
Proof. apply omap_app. Qed.

(** The commands whose material a flush binds are commands of the pending
    queue, in its order. *)
Lemma batch_commands_sublist cmds : ∀ cur c0 prev,
  batch_cmd cur = Some c0 →
  callCommands (drawCalls (batchesFrom cur prev cmds))
    `sublist_of` (Triangles <$> c0 :: cmds).
Proof.
  induction cmds as [|c rest IH]; intros cur c0 prev Hcur.
  - simpl. unfold drawCalls. simpl. rewrite Hcur. simpl. done.
  - cbn [batchesFrom]. destruct (merges prev c).
    + rewrite fmap_cons. apply sublist_cons. by apply IH.
    + change (cur :: ?l) with ([cur] ++ l).
      rewrite drawCalls_app, callCommands_app.
      unfold drawCalls at 1. simpl. rewrite Hcur. simpl.
      apply sublist_skip. by apply IH.
Qed.

Lemma flushCalls_sublist q :
  callCommands (flushCalls q) `sublist_of` (Triangles <$> q).
Proof.
  destruct q as [|c rest]; [done|].
  unfold flushCalls. rewrite callCommands_app. simpl.
  by apply batch_commands_sublist.
Qed.

Lemma flush_calls r r' :
  flush r = Done r' →
  calls (gl r') = calls (gl r) ++ flushCalls (_queuedTriangleCommands r).
Proof.
  intros Hf. apply flush_frame in Hf as (_ & _ & _ & _ & _ & _ & _ & ->).
  unfold flushCalls. by destruct (_queuedTriangleCommands r).
Qed.

Lemma structure_groups r r' :
  _renderGroups r' = _renderGroups r → structure r' = structure r.
Proof. unfold structure. by intros ->. Qed.

Lemma commands_inj q1 q :
  _commands q1 = _commands q →
  GLOBALZ_NEG q1 = GLOBALZ_NEG q ∧ OPAQUE_3D q1 = OPAQUE_3D q
  ∧ TRANSPARENT_3D q1 = TRANSPARENT_3D q ∧ GLOBALZ_ZERO q1 = GLOBALZ_ZERO q
  ∧ GLOBALZ_POS q1 = GLOBALZ_POS q.
Proof. by intros [= -> -> -> -> ->]. Qed.

(** What a dispatched triangles command does when the run goes on. *)
Lemma process_triangles_Done visit t r r' :
  processRenderCommandWith visit (Some (Triangles t)) r = Done r' →
  ∃ r1, (r1 = r ∨ (flush r = Done r1 ∧ _queuedTriangleCommands r ≠ [] ∨
                   flush r = Done r1 ∧ r1 = r))
        ∧ r' = stageCommand t r1.
Proof.
  unfold processRenderCommandWith. intros Hrun.
  apply bind_Done_inv in Hrun as (r1 & Hr1 & Hrun). injection Hrun as <-.
  exists r1. split; [|done].
  destruct (_ || _) in Hr1; [|left; by injection Hr1].
  apply bind_Done_inv in Hr1 as (? & _ & Hr1).
  apply bind_Done_inv in Hr1 as (? & _ & Hr1). right.
  destruct (_queuedTriangleCommands r) eqn:Hq; [right | left; done].
  split; [done|]. rewrite drawBatchedTriangles_empty in Hr1 by done.
  by injection Hr1.
Qed.

Section WithFuel.
Variable n : nat.
Variable S : list (list (list RenderCommand)).

(** What is assumed of the sweeps with fuel [n] while those with one more
    are looked at. *)
Hypothesis visit_order_n : ∀ b rf rf',
  structure rf = S → _queuedTriangleCommands rf = [] →
  visitRenderQueue n b rf = Done rf' →
  ∃ new, calls (gl rf') = calls (gl rf) ++ new
         ∧ callCommands new `sublist_of` submissionOrder n S b
         ∧ _queuedTriangleCommands rf' = [].

Lemma process_order c r r' :
  structure r = S →
  processRenderCommandWith (visitRenderQueue n) (Some c) r = Done r' →
  ∃ new,
    calls (gl r') = calls (gl r) ++ new
    ∧ structure r' = S
    ∧ (callCommands new ++ (Triangles <$> _queuedTriangleCommands r'))
        `sublist_of`
      ((Triangles <$> _queuedTriangleCommands r) ++ expandGroups n S [c]).
Proof.
  intros HS Hrun.
  destruct c as [nm o | t | nm o b | nm o | nm o | nm o].
  - injection Hrun as <-. exists []. simpl. rewrite app_nil_r.
    split_and!; [done | done |]. by apply sublist_inserts_r.
  - apply process_triangles_Done in Hrun as (r1 & Hr1 & ->).
    destruct Hr1 as [-> | [[Hf Hq] | [Hf ->]]].
    + exists []. simpl. rewrite app_nil_r, fmap_app. done.
    + exists (flushCalls (_queuedTriangleCommands r)).
      pose proof (flush_calls _ _ Hf) as Hcalls.
      apply flush_frame in Hf as (HG & _ & _ & _ & Hq1 & _).
      simpl. rewrite Hq1. split_and!; [done | |].
      * rewrite <- HS. by apply structure_groups.
      * simpl. apply sublist_app; [apply flushCalls_sublist | done].
    + exists []. simpl. rewrite app_nil_r, fmap_app. done.
  - unfold processRenderCommandWith in Hrun.
    apply bind_Done_inv in Hrun as (rf & Hf & Hv).
    pose proof (flush_calls _ _ Hf) as Hcalls.
    apply flush_frame in Hf as (HG & _ & _ & _ & Hq1 & _).
    destruct (visit_order_n b rf r') as (new & Hnew & Hsub & Hq');
      [by rewrite <- HS; apply structure_groups | done | done |].
    exists (flushCalls (_queuedTriangleCommands r) ++ new).
    split_and!.
    + by rewrite Hnew, Hcalls, app_assoc.
    + rewrite <- HS, <- (structure_groups r rf HG). by apply (visit_structure n b).
    + rewrite Hq'. simpl. rewrite !app_nil_r, callCommands_app.
      apply sublist_app; [apply flushCalls_sublist|]. by apply sublist_cons.
  - unfold processRenderCommandWith in Hrun.
    apply bind_Done_inv in Hrun as (rf & Hf & Hv). injection Hv as <-.
    pose proof (flush_calls _ _ Hf) as Hcalls.
    apply flush_frame in Hf as (HG & _ & _ & _ & Hq1 & _).
    exists (flushCalls (_queuedTriangleCommands r) ++ [execute (Custom nm o)]).
    simpl. rewrite Hq1, Hcalls. split_and!.
    + by rewrite app_assoc.
    + rewrite <- HS. by apply structure_groups.
    + simpl. rewrite app_nil_r, callCommands_app.
      apply sublist_app; [apply flushCalls_sublist | done].
  - unfold processRenderCommandWith in Hrun.
    apply bind_Done_inv in Hrun as (rf & Hf & Hv). injection Hv as <-.
    pose proof (flush_calls _ _ Hf) as Hcalls.
    apply flush_frame in Hf as (HG & _ & _ & _ & Hq1 & _).
    exists (flushCalls (_queuedTriangleCommands r) ++ [execute (Batch nm o)]).
    simpl. rewrite Hq1, Hcalls. split_and!.
    + by rewrite app_assoc.
    + rewrite <- HS. by apply structure_groups.
    + simpl. rewrite app_nil_r, callCommands_app.
      apply sublist_app; [apply flushCalls_sublist | done].
  - unfold processRenderCommandWith in Hrun.
    apply bind_Done_inv in Hrun as (rf & Hf & Hv). injection Hv as <-.
    pose proof (flush_calls _ _ Hf) as Hcalls.
    apply flush_frame in Hf as (HG & _ & _ & _ & Hq1 & _).
    exists (flushCalls (_queuedTriangleCommands r) ++ [execute (Primitive nm o)]).
    simpl. rewrite Hq1, Hcalls. split_and!.
    + by rewrite app_assoc.
    + rewrite <- HS. by apply structure_groups.
    + simpl. rewrite app_nil_r, callCommands_app.
      apply sublist_app; [apply flushCalls_sublist | done].
Qed.

Lemma expandGroups_cons c cmds :
  expandGroups n S (c :: cmds) = expandGroups n S [c] ++ expandGroups n S cmds.
Proof. unfold expandGroups. simpl. by rewrite app_nil_r. Qed.

Lemma dispatch_order cmds : ∀ r r',
  structure r = S →
  for_each (fun c => processRenderCommandWith (visitRenderQueue n) (Some c)) cmds r
  = Done r' →
  ∃ new,
    calls (gl r') = calls (gl r) ++ new
    ∧ structure r' = S
    ∧ (callCommands new ++ (Triangles <$> _queuedTriangleCommands r'))
        `sublist_of`
      ((Triangles <$> _queuedTriangleCommands r) ++ expandGroups n S cmds).
Proof.
  induction cmds as [|c cmds IH]; intros r r' HS Hrun.
  - injection Hrun as <-. exists []. simpl. by rewrite !app_nil_r.
  - cbn [for_each] in Hrun. apply bind_Done_inv in Hrun as (r1 & Hc & Hrun).
    destruct (process_order c r r1 HS Hc) as (new1 & Hnew1 & HS1 & Hsub1).
    destruct (IH r1 r' HS1 Hrun) as (new2 & Hnew2 & HS2 & Hsub2).
    exists (new1 ++ new2). split_and!.
    + by rewrite Hnew2, Hnew1, app_assoc.
    + done.
    + rewrite callCommands_app, <- app_assoc, expandGroups_cons.
      etransitivity; [apply sublist_app; [reflexivity | exact Hsub2]|].
      rewrite !app_assoc. apply sublist_app; [exact Hsub1 | reflexivity].
Qed.

Lemma visitSubQueue_order sub setup id r r' q :
  (∀ ra g, calls (setup ra g) = calls g) →
  structure r = S → _queuedTriangleCommands r = [] →
  _renderGroups r !! Z.to_nat id = Some q →
  visitSubQueue (visitRenderQueue n) sub setup id r = Done r' →
  ∃ new,
    calls (gl r') = calls (gl r) ++ new
    ∧ structure r' = S
    ∧ callCommands new `sublist_of` expandGroups n S (sub q)
    ∧ _queuedTriangleCommands r' = [].
Proof.
  intros Hsetup HS Hq0 Hq Hrun. unfold visitSubQueue in Hrun.
  apply bind_Done_inv in Hrun as (q' & Hq' & Hrun).
  apply at_Done in Hq' as [_ Hq']. rewrite Hq in Hq'. injection Hq' as <-.
  destruct (sub q) as [|c0 cmds] eqn:Hsub.
  { injection Hrun as <-. exists []. by rewrite app_nil_r. }
  apply bind_Done_inv in Hrun as (r1 & Hloop & Hf).
  apply dispatch_order in Hloop as (new & Hnew & HS1 & Hsublist); [|done].
  simpl in Hnew, Hsublist. rewrite Hq0 in Hsublist. simpl in Hsublist.
  rewrite Hsetup in Hnew.
  pose proof (flush_calls _ _ Hf) as Hcalls.
  apply flush_frame in Hf as (HG & _ & _ & _ & Hq1 & _).
  exists (new ++ flushCalls (_queuedTriangleCommands r1)). split_and!.
  - by rewrite Hcalls, Hnew, app_assoc.
  - rewrite <- HS1. by apply structure_groups.
  - rewrite callCommands_app. etransitivity; [|exact Hsublist].
    apply sublist_app; [done | apply flushCalls_sublist].
  - done.
Qed.

End WithFuel.

(** The calls of a sweep are issued for commands in the order of their
    submission. *)
Lemma visit_order n : ∀ id r r',
  _queuedTriangleCommands r = [] →
  visitRenderQueue n id r = Done r' →
  ∃ new, calls (gl r') = calls (gl r) ++ new
         ∧ callCommands new `sublist_of` submissionOrder n (structure r) id
         ∧ _queuedTriangleCommands r' = [].
Proof.
  induction n as [|n IH]; intros id r r' Hq0 Hrun; [done|].
  assert (∀ b rf rf',
            structure rf = structure r → _queuedTriangleCommands rf = [] →
            visitRenderQueue n b rf = Done rf' →
            ∃ new, calls (gl rf') = calls (gl rf) ++ new
                   ∧ callCommands new `sublist_of` submissionOrder n (structure r) b
                   ∧ _queuedTriangleCommands rf' = []) as IH'.
  { intros b rf rf' <- Hq Hv. by apply IH. }
  apply visit_Done_inv in Hrun
    as (q & r1 & r2 & r3 & r4 & r5 & q5 & Hid & Hq & H1 & H2 & H3 & H4 & H5 & Hq5 & ->).
  set (r0 := set_renderGroups _ r) in H1.
  assert (structure r0 = structure r) as S0 by (by apply structure_save).
  assert (∀ ra, structure ra = structure r →
                ∃ qa, _renderGroups ra !! Z.to_nat id = Some qa
                      ∧ _commands qa = _commands q) as Hlookup.
  { intros ra Sa. by apply (structure_lookup r). }
  destruct (Hlookup r0 S0) as (q0 & Hq0' & Hc0).
  destruct (visitSubQueue_order n _ IH' GLOBALZ_NEG setup2D id r0 r1 q0 ltac:(done)
              S0 Hq0 Hq0' H1)
    as (new1 & Hn1 & S1 & Hs1 & Hq1).
  destruct (Hlookup r1 S1) as (q1 & Hq1' & Hc1).
  destruct (visitSubQueue_order n _ IH' OPAQUE_3D setupOpaque3D id r1 r2 q1 ltac:(done)
              S1 Hq1 Hq1' H2)
    as (new2 & Hn2 & S2 & Hs2 & Hq2).
  destruct (Hlookup r2 S2) as (q2 & Hq2' & Hc2).
  destruct (visitSubQueue_order n _ IH' TRANSPARENT_3D setupTransparent3D id r2 r3 q2 ltac:(done)
              S2 Hq2 Hq2' H3)
    as (new3 & Hn3 & S3 & Hs3 & Hq3).
  destruct (Hlookup r3 S3) as (q3 & Hq3' & Hc3).
  destruct (visitSubQueue_order n _ IH' GLOBALZ_ZERO setup2D id r3 r4 q3 ltac:(done)
              S3 Hq3 Hq3' H4)
    as (new4 & Hn4 & S4 & Hs4 & Hq4).
  destruct (Hlookup r4 S4) as (q4 & Hq4' & Hc4).
  destruct (visitSubQueue_order n _ IH' GLOBALZ_POS setup2D id r4 r5 q4 ltac:(done)
              S4 Hq4 Hq4' H5)
    as (new5 & Hn5 & S5 & Hs5 & Hq5').
  exists (new1 ++ new2 ++ new3 ++ new4 ++ new5). split_and!.
  - simpl. rewrite Hn5, Hn4, Hn3, Hn2, Hn1. simpl. by rewrite <- !app_assoc.
  - cbn [submissionOrder]. unfold structure at 1.
    rewrite list_lookup_fmap, Hq. simpl.
    apply commands_inj in Hc0 as (E0 & _ & _ & _ & _).
    apply commands_inj in Hc1 as (_ & E1 & _ & _ & _).
    apply commands_inj in Hc2 as (_ & _ & E2 & _ & _).
    apply commands_inj in Hc3 as (_ & _ & _ & E3 & _).
    apply commands_inj in Hc4 as (_ & _ & _ & _ & E4).
    rewrite E0 in Hs1. rewrite E1 in Hs2. rewrite E2 in Hs3.
    rewrite E3 in Hs4. rewrite E4 in Hs5.
    unfold expandGroups in *.
    rewrite !flat_map_app, !callCommands_app. simpl. rewrite app_nil_r.
    repeat (apply sublist_app; [assumption|]). assumption.
  - done.
Qed.

End Order.

(** ** Flush barriers *)

Section Barriers.
Context `{Platform}.
Import Renderer.









End Barriers.

(** ** Sub-queues and their order *)

Section Queues.
Context `{Platform}.

Lemma isNeg_not_isPos c : isNeg c = true → isPos c = false.
Proof.
  unfold isNeg, isPos, float_ltb, float_zero.
  destruct (getGlobalOrder c) as [|x]; [done|].
  rewrite Z.ltb_lt, Z.ltb_ge. lia.
Qed.

(** [push_back] sends each command to the sub-queue of the sign of its
    global order, behind the commands already there. *)
Lemma submit_buckets cmds : ∀ q,
  submit cmds q
  = mkQueue (GLOBALZ_NEG q ++ List.filter isNeg cmds) (OPAQUE_3D q)
      (TRANSPARENT_3D q) (GLOBALZ_ZERO q ++ List.filter isZero cmds)
      (GLOBALZ_POS q ++ List.filter isPos cmds)
      (_isDepthEnabled q) (_isCullEnabled q) (_isDepthWrite q).
Proof.
  induction cmds as [|c cmds IH]; intros q.
  - simpl. rewrite !app_nil_r. by destruct q.
  - unfold submit in *. cbn [fold_left List.filter]. rewrite IH.
    unfold RenderQueue.push_back, isZero. fold (isNeg c) (isPos c).
    destruct (isNeg c) eqn:Hn.
    + rewrite (isNeg_not_isPos c Hn). simpl. by rewrite <- app_assoc.
    + destruct (isPos c); simpl; by rewrite <- app_assoc.
Qed.

Lemma isNeg_hasNumber c : isNeg c = true → hasNumber c.
Proof. unfold isNeg, hasNumber. by destruct (getGlobalOrder c). Qed.

Lemma isPos_hasNumber c : isPos c = true → hasNumber c.
Proof. unfold isPos, hasNumber. by destruct (getGlobalOrder c). Qed.

(** On commands whose global order is a number, [compareRenderCommand] is a
    strict weak ordering. *)
Lemma compare_strict_weak l :
  Forall hasNumber l → strict_weak_on compareRenderCommand l.
Proof.
  intros Hl. rewrite Forall_forall in Hl.
  unfold strict_weak_on, compareRenderCommand, float_ltb. split_and!.
  - intros a _. destruct (getGlobalOrder a); [done|]. apply Z.ltb_irrefl.
  - intros a b c _ _ _.
    destruct (getGlobalOrder a), (getGlobalOrder b), (getGlobalOrder c); try done.
    rewrite !Z.ltb_lt. lia.
  - intros a b c Ha Hb Hc.
    pose proof (Hl a Ha) as Na. pose proof (Hl b Hb) as Nb.
    pose proof (Hl c Hc) as Nc. unfold hasNumber in *.
    destruct (getGlobalOrder a), (getGlobalOrder b), (getGlobalOrder c); try done.
    rewrite !Z.ltb_ge. lia.
Qed.

(** Sorted by [compareRenderCommand], the global orders do not decrease. *)
Lemma is_sorted_keys l :
  Forall hasNumber l → is_sorted compareRenderCommand l →
  Sorted float_le (getGlobalOrder <$> l).
Proof.
  unfold is_sorted. intros Hnum Hsorted.
  induction Hsorted as [|a l Hl IH Hhd]; [constructor|].
  apply Forall_cons in Hnum as [Ha Hnum]. rewrite fmap_cons.
  constructor; [by apply IH|].
  destruct Hhd as [|b l' Hab]; [constructor|]. rewrite fmap_cons. constructor.
  apply Forall_cons in Hnum as [Hb _]. unfold hasNumber in *.
  unfold compareRenderCommand, float_ltb in Hab. unfold float_le.
  destruct (getGlobalOrder a), (getGlobalOrder b); try done.
  by apply Z.ltb_ge in Hab.
Qed.

(** [operator[]] reads the sub-queues one after the other. *)
Lemma index_loop_concat subs : ∀ i,
  0 <= i →
  RenderQueue.index_loop subs i
  = match concat subs !! Z.to_nat i with
    | Some c => Done c
    | None => Abort "invalid index"
    end.
Proof.
  induction subs as [|sub subs IH]; intros i Hi; [done|].
  cbn [RenderQueue.index_loop concat].
  destruct (i <? Z.of_nat (length sub)) eqn:Hlt.
  - apply Z.ltb_lt in Hlt. unfold RenderQueue.at_.
    destruct (i <? 0) eqn:Hneg; [apply Z.ltb_lt in Hneg; lia|].
    rewrite lookup_app_l by lia.
    destruct (sub !! Z.to_nat i) eqn:Hsub; [done|].
    apply lookup_ge_None in Hsub. lia.
  - apply Z.ltb_ge in Hlt. rewrite IH by lia.
    rewrite lookup_app_r by lia.
    replace (Z.to_nat (i - Z.of_nat (length sub)))
      with (Z.to_nat i - length sub)%nat by lia.
    done.
Qed.

Lemma index_Done q i c :
  RenderQueue.index q i = Done c
  ↔ 0 <= i ∧ concat (_commands q) !! Z.to_nat i = Some c.
Proof.
  unfold RenderQueue.index. destruct (Z.lt_ge_cases i 0) as [Hneg|Hpos].
  - split; [|lia]. unfold _commands. cbn [RenderQueue.index_loop].
    assert ((i <? Z.of_nat (length (GLOBALZ_NEG q))) = true) as ->
      by (apply Z.ltb_lt; lia).
    unfold RenderQueue.at_.
    assert ((i <? 0) = true) as -> by (by apply Z.ltb_lt).
    done.
  - rewrite index_loop_concat by done.
    destruct (concat (_commands q) !! Z.to_nat i); split;
      [by intros [= ->] | by intros [_ [= ->]] | done | by intros [_ ?]].
Qed.

Lemma Forall_filter_true (f : RenderCommand → bool) l :
  Forall (fun c => f c = true) (List.filter f l).
Proof.
  apply List.Forall_forall. intros c Hc. by apply filter_In in Hc as [_ ?].
Qed.

(** Where an element of [l1 ++ l2] sits, when a test tells the elements of
    the two lists apart. *)
Lemma lookup_app_left (f : RenderCommand → bool) l1 l2 (i : nat) x :
  Forall (fun c => f c = false) l2 →
  (l1 ++ l2) !! i = Some x → f x = true → (i < length l1)%nat.
Proof.
  intros Hl2 Hx Hf. apply lookup_app_Some in Hx as [Hx | [_ Hx]].
  - by apply lookup_lt_Some in Hx.
  - rewrite Forall_lookup in Hl2. rewrite (Hl2 _ _ Hx) in Hf. done.
Qed.

Lemma lookup_app_right (f : RenderCommand → bool) l1 l2 (i : nat) x :
  Forall (fun c => f c = true) l1 →
  (l1 ++ l2) !! i = Some x → f x = false → (length l1 <= i)%nat.
Proof.
  intros Hl1 Hx Hf. apply lookup_app_Some in Hx as [Hx | [? _]]; [|done].
  rewrite Forall_lookup in Hl1. rewrite (Hl1 _ _ Hx) in Hf. done.
Qed.

(** What [sort] does to a queue whose sorted sub-queues hold commands with
    a number for global order. *)
Lemma sort_spec `{!StdSortContract} q :
  Forall hasNumber (GLOBALZ_NEG q) → Forall hasNumber (GLOBALZ_POS q) →
  GLOBALZ_NEG (RenderQueue.sort q) ≡ₚ GLOBALZ_NEG q
  ∧ is_sorted compareRenderCommand (GLOBALZ_NEG (RenderQueue.sort q))
  ∧ Sorted float_le (getGlobalOrder <$> GLOBALZ_NEG (RenderQueue.sort q))
  ∧ GLOBALZ_POS (RenderQueue.sort q) ≡ₚ GLOBALZ_POS q
  ∧ is_sorted compareRenderCommand (GLOBALZ_POS (RenderQueue.sort q))
  ∧ Sorted float_le (getGlobalOrder <$> GLOBALZ_POS (RenderQueue.sort q))
  ∧ GLOBALZ_ZERO (RenderQueue.sort q) = GLOBALZ_ZERO q
  ∧ OPAQUE_3D (RenderQueue.sort q) = OPAQUE_3D q
  ∧ TRANSPARENT_3D (RenderQueue.sort q) = TRANSPARENT_3D q
  ∧ snapshot (RenderQueue.sort q) = snapshot q.
Proof.
  intros Hneg Hpos. unfold RenderQueue.sort. simpl.
  pose proof (compare_strict_weak _ Hneg) as Wneg.
  pose proof (compare_strict_weak _ Hpos) as Wpos.
  pose proof (std_sort_perm _ _ Wneg) as Pneg.
  pose proof (std_sort_perm _ _ Wpos) as Ppos.
  pose proof (std_sort_sorted _ _ Wneg) as Sneg.
  pose proof (std_sort_sorted _ _ Wpos) as Spos.
  split_and!; try done.
  - apply is_sorted_keys; [|done].
    by apply (Permutation_Forall (Permutation_sym Pneg)).
  - apply is_sorted_keys; [|done].
    by apply (Permutation_Forall (Permutation_sym Ppos)).
Qed.

(** C5. After the commands are pushed and the queue is sorted, the global
    orders do not decrease along the sub-queue of negative orders nor along
    that of positive orders; the two hold the commands of negative and of
    positive order, and the sub-queue of order zero the others, as
    submitted; [operator[]] reads the negative sub-queue, then the zero one,
    then the positive one, so a command of negative order comes before any
    other and a command of positive order after any other. *)
Theorem C5_sort_orders_buckets `{!StdSortContract} (cmds : list RenderCommand) :
  let q := RenderQueue.sort (submit cmds emptyQueue) in
  Sorted float_le (getGlobalOrder <$> GLOBALZ_NEG q)
  ∧ Sorted float_le (getGlobalOrder <$> GLOBALZ_POS q)
  ∧ GLOBALZ_NEG q ≡ₚ List.filter isNeg cmds
  ∧ GLOBALZ_ZERO q = List.filter isZero cmds
  ∧ GLOBALZ_POS q ≡ₚ List.filter isPos cmds
  ∧ OPAQUE_3D q = [] ∧ TRANSPARENT_3D q = []
  ∧ (∀ i c, RenderQueue.index q i = Done c
            ↔ 0 <= i
              ∧ (GLOBALZ_NEG q ++ GLOBALZ_ZERO q ++ GLOBALZ_POS q) !! Z.to_nat i
                = Some c)
  ∧ (∀ i j a b,
       RenderQueue.index q i = Done a → RenderQueue.index q j = Done b →
       (isNeg a = true ∧ isNeg b = false) ∨ (isPos a = false ∧ isPos b = true) →
       i < j).
Proof.
  intros q. unfold q. rewrite submit_buckets. simpl app.
  set (q0 := mkQueue _ _ _ _ _ _ _ _).
  assert (Forall (fun c => isNeg c = true) (GLOBALZ_NEG q0)) as Hneg
    by apply Forall_filter_true.
  assert (Forall (fun c => isPos c = true) (GLOBALZ_POS q0)) as Hpos
    by apply Forall_filter_true.
  assert (Forall (fun c => isZero c = true) (GLOBALZ_ZERO q0)) as Hzero
    by apply Forall_filter_true.
  destruct (sort_spec q0)
    as (Pneg & _ & Sneg & Ppos & _ & Spos & Ezero & Eopaque & Etrans & _).
  { eapply Forall_impl; [exact Hneg|]. apply isNeg_hasNumber. }
  { eapply Forall_impl; [exact Hpos|]. apply isPos_hasNumber. }
  assert (∀ i c, RenderQueue.index (RenderQueue.sort q0) i = Done c
            ↔ 0 <= i
              ∧ (GLOBALZ_NEG (RenderQueue.sort q0)
                 ++ GLOBALZ_ZERO (RenderQueue.sort q0)
                 ++ GLOBALZ_POS (RenderQueue.sort q0)) !! Z.to_nat i = Some c)
    as Hindex.
  { intros i c. rewrite index_Done. unfold _commands. cbn [concat].
    rewrite Eopaque, Etrans. simpl. by rewrite app_nil_r. }
  split_and!; try done.
  intros i j a b Ha Hb Hab.
  apply Hindex in Ha as [Hi Ha]. apply Hindex in Hb as [Hj Hb].
  apply (Permutation_Forall (Permutation_sym Pneg)) in Hneg.
  apply (Permutation_Forall (Permutation_sym Ppos)) in Hpos.
  rewrite <- Ezero in Hzero.
  set (N := GLOBALZ_NEG (RenderQueue.sort q0)) in *.
  set (Z0 := GLOBALZ_ZERO (RenderQueue.sort q0)) in *.
  set (P := GLOBALZ_POS (RenderQueue.sort q0)) in *.
  destruct Hab as [[Hna Hnb] | [Hpa Hpb]].
  - assert (Z.to_nat i < length N)%nat.
    { apply (lookup_app_left isNeg N (Z0 ++ P) _ a); [|done|done].
      apply Forall_app. split.
      - eapply Forall_impl; [exact Hzero|]. intros c Hc.
        unfold isZero in Hc. apply andb_true_iff in Hc as [Hc _].
        by apply negb_true_iff in Hc.
      - eapply Forall_impl; [exact Hpos|]. intros c Hc.
        destruct (isNeg c) eqn:E; [|done].
        apply isNeg_not_isPos in E. congruence. }
    assert (length N <= Z.to_nat j)%nat
      by (by apply (lookup_app_right isNeg N (Z0 ++ P) _ b)).
    lia.
  - rewrite app_assoc in Ha, Hb.
    assert (Z.to_nat i < length (N ++ Z0))%nat.
    { apply (lookup_app_left (fun c => negb (isPos c)) (N ++ Z0) P _ a);
        [|done|by rewrite Hpa].
      eapply Forall_impl; [exact Hpos|]. intros c Hc. by rewrite Hc. }
    assert (length (N ++ Z0) <= Z.to_nat j)%nat.
    { apply (lookup_app_right (fun c => negb (isPos c)) (N ++ Z0) P _ b);
        [|done|by rewrite Hpb].
      apply Forall_app. split.
      - eapply Forall_impl; [exact Hneg|]. intros c Hc.
        by rewrite (isNeg_not_isPos c Hc).
      - eapply Forall_impl; [exact Hzero|]. intros c Hc.
        unfold isZero in Hc. by apply andb_true_iff in Hc as [_ Hc]. }
    lia.
Qed.


End Queues.

(** ** An insertion sort that meets the contract of [std::sort] *)

Section InsertionSort.
Context {A : Type}.
Implicit Types (cmp : A → A → bool) (l : list A).

Lemma insert_behind_perm cmp x l : insert_behind cmp x l ≡ₚ x :: l.
Proof.
  induction l as [|y l IH]; simpl; [done|].
  destruct (cmp x y); [done|]. rewrite IH. apply perm_swap.
Qed.

Lemma insertion_sort_perm cmp l : insertion_sort cmp l ≡ₚ l.
Proof.
  induction l as [|x l IH]; simpl; [done|].
  rewrite insert_behind_perm. by constructor.
Qed.

Lemma insert_behind_sorted cmp x l :
  (∀ a b, a ∈ x :: l → b ∈ x :: l → cmp a b = true → cmp b a = false) →
  is_sorted cmp l → is_sorted cmp (insert_behind cmp x l).
Proof.
  unfold is_sorted. intros Hasym Hl.
  induction Hl as [|y l Hl IH Hhd]; simpl.
  - repeat constructor.
  - destruct (cmp x y) eqn:Hxy.
    + constructor; [by constructor|]. constructor.
      apply Hasym; [by left | by right; left | done].
    + constructor.
      * apply IH. intros a b Ha Hb. apply Hasym.
        -- apply elem_of_cons in Ha as [->|Ha]; [by left | by do 2 right].
        -- apply elem_of_cons in Hb as [->|Hb]; [by left | by do 2 right].
      * destruct Hhd as [|z l' Hyz]; simpl; [by constructor|].
        destruct (cmp x z); by constructor.
Qed.

Lemma insertion_sort_sorted cmp l :
  strict_weak_on cmp l → is_sorted cmp (insertion_sort cmp l).
Proof.
  intros (Hirr & Htrans & _).
  assert (∀ a b, a ∈ l → b ∈ l → cmp a b = true → cmp b a = false) as Hasym.
  { intros a b Ha Hb Hab. destruct (cmp b a) eqn:Hba; [|done].
    rewrite <- (Hirr a Ha). symmetry. by apply (Htrans a b a). }
  clear Hirr Htrans.
  induction l as [|x l IH]; simpl; [constructor|].
  apply insert_behind_sorted.
  - intros a b Ha Hb. apply Hasym.
    + apply elem_of_cons in Ha as [->|Ha]; [by left|right].
      by rewrite <- (insertion_sort_perm cmp l).
    + apply elem_of_cons in Hb as [->|Hb]; [by left|right].
      by rewrite <- (insertion_sort_perm cmp l).
  - apply IH. intros a b Ha Hb. apply Hasym; by right.
Qed.

End InsertionSort.

Lemma sample_platform_contract : @StdSortContract sample_platform.
Proof.
  split; intros cmp l Hcmp.
  - apply insertion_sort_perm.
  - by apply insertion_sort_sorted.
Qed.

Lemma sample_scale (c : Z) : 3 <= c → c < @scaleCapacity sample_platform c.
Proof.
  intros Hc. simpl.
  pose proof (Z.div_mod (c * 14) 10 ltac:(lia)).
  pose proof (Z.mod_pos_bound (c * 14) 10 ltac:(lia)). lia.
Qed.

(** ** Routing commands to queues *)

Section Routing.
Context `{Platform}.
Import Renderer.

(** What [addCommand] with a queue id has done when it completes. *)
Lemma addCommandTo_Done command renderQueue r r' :
  addCommandTo command renderQueue r = Done r' →
  _isRendering r = false ∧ 0 <= renderQueue
  ∧ getType command ≠ UNKNOWN_COMMAND
  ∧ (∃ q, _renderGroups r !! Z.to_nat renderQueue = Some q
          ∧ _renderGroups r' !! Z.to_nat renderQueue
            = Some (RenderQueue.push_back command q))
  ∧ length (_renderGroups r') = length (_renderGroups r)
  ∧ (∀ j, j ≠ Z.to_nat renderQueue →
          _renderGroups r' !! j = _renderGroups r !! j)
  ∧ _commandGroupStack r' = _commandGroupStack r
  ∧ _queuedTriangleCommands r' = _queuedTriangleCommands r
  ∧ gl r' = gl r.
Proof.
  intros Hrun. unfold addCommandTo, CCASSERT in Hrun.
  destruct (_isRendering r); [done|]. simpl in Hrun.
  destruct (0 <=? renderQueue) eqn:Hid; [|done]. simpl in Hrun.
  destruct (bool_decide (getType command = UNKNOWN_COMMAND)) eqn:Hty; [done|].
  simpl in Hrun. apply bind_Done_inv in Hrun as (q & Hq & Hrun).
  apply at_Done in Hq as [Hid' Hq]. injection Hrun as <-. simpl.
  split_and!; try done.
  - by apply bool_decide_eq_false in Hty.
  - exists q. split; [done|]. apply list_lookup_insert_eq.
    by apply lookup_lt_Some in Hq.
  - apply length_insert.
  - intros j Hj. by apply list_lookup_insert_ne.
Qed.


Lemma int_cast_small (z : Z) : - 2 ^ 31 <= z < 2 ^ 31 → int_cast z = z.
Proof.
  intros Hz. unfold int_cast. rewrite Z.mod_small; lia.
Qed.

Lemma render_groups_length fuel r r' :
  render fuel r = Done r' →
  length (_renderGroups r') = length (_renderGroups r).
Proof.
  unfold render. intros Hrun.
  apply bind_Done_inv in Hrun as (r1 & Hr1 & Hrun). injection Hrun as <-.
  simpl. rewrite length_map.
  destruct (_glViewAssigned _) in Hr1.
  - apply visit_structure in Hr1.
    apply (f_equal length) in Hr1. unfold structure in Hr1.
    rewrite !length_fmap in Hr1. simpl in Hr1. by rewrite length_map in Hr1.
  - by injection Hr1 as <-.
Qed.

(** What a served request does to the number of queues and to the ids
    returned so far. *)
Lemma serve_groups req r ids r' ids' :
  serve req (r, ids) = Done (r', ids') →
  (req = CreateRenderQueue
   ∧ _renderGroups r' = _renderGroups r ++ [emptyQueue]
   ∧ ids' = ids ++ [int_cast (Z.of_nat (length (_renderGroups r')) ) - 1])
  ∨ (length (_renderGroups r') = length (_renderGroups r) ∧ ids' = ids).
Proof.
  destruct req as [c | c id | id | | | fuel]; simpl; intros Hrun.
  - right. apply bind_Done_inv in Hrun as (r1 & Hr1 & [= <- <-]).
    unfold addCommand in Hr1. destruct (_commandGroupStack r); [done|].
    by apply addCommandTo_Done in Hr1 as (_ & _ & _ & _ & ? & _).
  - right. apply bind_Done_inv in Hrun as (r1 & Hr1 & [= <- <-]).
    by apply addCommandTo_Done in Hr1 as (_ & _ & _ & _ & ? & _).
  - right. apply bind_Done_inv in Hrun as (r1 & Hr1 & [= <- <-]).
    unfold pushGroup, CCASSERT in Hr1. destruct (negb _); [|done].
    by injection Hr1 as <-.
  - right. apply bind_Done_inv in Hrun as (r1 & Hr1 & [= <- <-]).
    unfold popGroup, CCASSERT in Hr1. destruct (negb _); [|done].
    simpl in Hr1. destruct (_commandGroupStack r); [done|].
    by injection Hr1 as <-.
  - left. by injection Hrun as <- <-.
  - right. apply bind_Done_inv in Hrun as (r1 & Hr1 & [= <- <-]).
    split; [|done]. by apply (render_groups_length fuel).
Qed.

Lemma StronglySorted_snoc (l : list Z) (y : Z) :
  StronglySorted Z.lt l → Forall (fun x => x < y) l →
  StronglySorted Z.lt (l ++ [y]).
Proof.
  induction 1 as [|x l Hl IH Hx]; intros Hy; simpl.
  - repeat constructor.
  - apply Forall_cons in Hy as [Hxy Hy]. constructor; [by apply IH|].
    apply Forall_app. split; [done|]. by constructor.
Qed.

(** Queues are added, never removed. *)
Lemma lifetime_groups_mono reqs : ∀ r ids r' ids',
  for_each serve reqs (r, ids) = Done (r', ids') →
  (length (_renderGroups r) <= length (_renderGroups r'))%nat.
Proof.
  induction reqs as [|req reqs IH]; intros r ids r' ids' Hrun.
  - by injection Hrun as <- <-.
  - cbn [for_each] in Hrun.
    apply bind_Done_inv in Hrun as ([r1 ids1] & Hreq & Hrun).
    apply IH in Hrun.
    apply serve_groups in Hreq as [(_ & HG & _) | [Hlen _]].
    + rewrite HG, length_app in Hrun. simpl in Hrun. lia.
    + lia.
Qed.

(** The ids returned so far increase and are indices of queues added since
    the start. *)
Lemma lifetime_ids reqs : ∀ r ids r' ids' (base : nat),
  for_each serve reqs (r, ids) = Done (r', ids') →
  Z.of_nat (length (_renderGroups r')) < 2 ^ 31 →
  StronglySorted Z.lt ids →
  Forall (fun id => Z.of_nat base <= id < Z.of_nat (length (_renderGroups r))) ids →
  (base <= length (_renderGroups r))%nat →
  StronglySorted Z.lt ids'
  ∧ Forall (fun id => Z.of_nat base <= id < Z.of_nat (length (_renderGroups r'))) ids'.
Proof.
  induction reqs as [|req reqs IH]; intros r ids r' ids' base Hrun Hmax Hs Hids Hbase.
  - injection Hrun as <- <-. done.
  - cbn [for_each] in Hrun. apply bind_Done_inv in Hrun as ([r1 ids1] & Hreq & Hrun).
    pose proof (lifetime_groups_mono _ _ _ _ _ Hrun) as Hmono.
    apply serve_groups in Hreq as [(_ & HG & Hids1) | [Hlen ->]].
    + assert (length (_renderGroups r1) = S (length (_renderGroups r))) as Hlen
        by (rewrite HG, length_app; simpl; lia).
      rewrite int_cast_small in Hids1 by lia.
      apply (IH r1 ids1 r' ids' base Hrun Hmax).
      * rewrite Hids1. apply StronglySorted_snoc; [done|].
        eapply Forall_impl; [exact Hids|]. simpl. intros id ?. lia.
      * rewrite Hids1. apply Forall_app. split.
        -- eapply Forall_impl; [exact Hids|]. simpl. intros id ?. lia.
        -- constructor; [lia|done].
      * lia.
    + apply (IH r1 ids r' ids' base Hrun Hmax); [done | by rewrite Hlen | lia].
Qed.

(** C9. [createRenderQueue] adds an empty queue behind the others and
    returns its index. Over the requests a renderer serves, with fewer than
    2^31 queues in the end, the ids returned increase from call to call, and
    each is the index of a queue added since the start. A command added
    with a queue id is then read by [operator[]] in the queue of that id,
    and the other queues are as they were. *)
Theorem C9_queue_ids (reqs : list Request) (r r' : Renderer) (ids : list Z) :
  lifetime reqs r = Done (r', ids) →
  Z.of_nat (length (_renderGroups r')) < 2 ^ 31 →
  (StronglySorted Z.lt ids
   ∧ Forall (fun id => Z.of_nat (length (_renderGroups r)) <= id
                       < Z.of_nat (length (_renderGroups r'))) ids)
  ∧ (∀ r0,
       Z.of_nat (length (_renderGroups r0)) < 2 ^ 31 - 1 →
       _renderGroups (createRenderQueue r0).1 = _renderGroups r0 ++ [emptyQueue]
       ∧ (createRenderQueue r0).2 = Z.of_nat (length (_renderGroups r0))
       ∧ RenderQueue.at_ (_renderGroups (createRenderQueue r0).1)
           (createRenderQueue r0).2 = Done emptyQueue)
  ∧ (∀ command id r0 r1,
       addCommandTo command id r0 = Done r1 →
       (∃ q i, RenderQueue.at_ (_renderGroups r1) id = Done q
               ∧ RenderQueue.index q i = Done command)
       ∧ ∀ j, j ≠ id →
              RenderQueue.at_ (_renderGroups r1) j
              = RenderQueue.at_ (_renderGroups r0) j).
Proof.
  intros Hrun Hmax. split_and!.
  - apply (lifetime_ids reqs r [] r' ids (length (_renderGroups r)) Hrun Hmax);
      [constructor | done | done].
  - apply (lifetime_ids reqs r [] r' ids (length (_renderGroups r)) Hrun Hmax);
      [constructor | done | done].
  - intros r0 Hsmall. unfold createRenderQueue. cbn [fst snd].
    split; [done|]. cbn [_renderGroups set_renderGroups].
    rewrite length_app. simpl length.
    rewrite int_cast_small by lia. split; [lia|].
    apply at_Done. split; [lia|].
    rewrite lookup_app_r by lia.
    replace (Z.to_nat _ - length (_renderGroups r0))%nat with 0%nat by lia.
    done.
  - intros command id r0 r1 Hadd.
    apply addCommandTo_Done in Hadd
      as (_ & Hid & _ & (q & Hq & Hq') & _ & Hother & _).
    split.
    + exists (RenderQueue.push_back command q).
      assert (command ∈ concat (_commands (RenderQueue.push_back command q)))
        as (i & Hi)%list_elem_of_lookup.
      { unfold RenderQueue.push_back, _commands.
        destruct (float_ltb _ _); [|destruct (float_ltb _ _)]; simpl;
          rewrite !elem_of_app, list_elem_of_singleton; tauto. }
      exists (Z.of_nat i). split.
      * by apply at_Done.
      * apply index_Done. split; [lia|]. by rewrite Nat2Z.id.
    + intros j Hj. unfold RenderQueue.at_.
      destruct (j <? 0) eqn:Hneg; [done|]. apply Z.ltb_ge in Hneg.
      rewrite Hother; [done|]. lia.
Qed.

End Routing.

(** ** The capacity of the batch array *)

Section Capacity.
Context `{Platform}.
Import Renderer.

(** While the capacity grows when scaled, every entry the scan writes lies
    below the capacity: the scan writes at [batchesTotal] or one above. *)
Lemma capacity_respected cmd r scan r' scan' :
  (∀ c, 3 <= c → c < scaleCapacity c) →
  3 <= _triBatchesToDrawCapacity r →
  0 <= batchesTotal scan →
  batchesTotal scan + 1 < _triBatchesToDrawCapacity r →
  scanStep cmd (r, scan) = Done (r', scan') →
  batchesTotal scan <= batchesTotal scan' <= batchesTotal scan + 1
  ∧ batchesTotal scan' + 1 < _triBatchesToDrawCapacity r'
  ∧ 3 <= _triBatchesToDrawCapacity r'.
Proof.
  intros Hscale Hcap Hn0 Hn Hstep. unfold scanStep in Hstep.
  cbn [fst snd] in Hstep.
  apply bind_Done_inv in Hstep as ([[a n'] m] & Hbranch & Hstep).
  cbn [fst snd] in Hstep.
  assert (batchesTotal scan <= n' <= batchesTotal scan + 1) as Hn'.
  { destruct (sameBatch scan cmd).
    - apply bind_Done_inv in Hbranch as (? & _ & [= _ <- _]). lia.
    - injection Hbranch as _ <- _. destruct (negb (firstCommand scan)); lia. }
  injection Hstep as <- <-. cbn [batchesTotal].
  split; [done|].
  change (_triBatchesToDrawCapacity
            (set_triBatchesToDraw a (fillVerticesAndIndices cmd r)))
    with (_triBatchesToDrawCapacity r).
  destruct (n' + 1 >=? _triBatchesToDrawCapacity r) eqn:Hfull; simpl.
  - pose proof (Hscale _ Hcap). rewrite Z.geb_le in Hfull. lia.
  - rewrite Z.geb_leb in Hfull. apply Z.leb_gt in Hfull. lia.
Qed.

End Capacity.

(** ** The properties at concrete inputs *)

Lemma C1_batch_membership_witness :
  Forall (fun x => materialID x ≠ NO_MATERIAL)
    ([quad 1 0 1 false] ++ [quad 2 0 1 false; quad 3 0 2 false])
  ∧ ∃ r1 s1,
      for_each Renderer.scanStep [quad 1 0 1 false; quad 2 0 1 false]
        (Renderer.scanStart sample_renderer) = Done (r1, s1)
      ∧ Renderer.sameBatch s1 (quad 3 0 2 false) = false.
Proof.
  assert (Forall (fun x => materialID x ≠ NO_MATERIAL)
            ([quad 1 0 1 false] ++ [quad 2 0 1 false; quad 3 0 2 false])) as Hall.
  { repeat constructor; discriminate. }
  split; [exact Hall|].
  destruct (C1_batch_membership sample_renderer [quad 1 0 1 false]
              (quad 2 0 1 false) (quad 3 0 2 false) Hall)
    as (_ & r1 & s1 & r2 & s2 & Hrun & _ & _ & Hiff & _).
  exists r1, s1. split; [exact Hrun|].
  destruct (Renderer.sameBatch s1 (quad 3 0 2 false)); [|reflexivity].
  destruct (proj1 Hiff eq_refl) as (_ & _ & Hm). discriminate Hm.
Defined.

(** The claim C1 read to the letter fails where the command before is
    flagged skip-batching: the second quad is not flagged, has the material
    of the first, and does not join its batch. *)
Lemma C1_counterexample :
  let p := quad 1 0 7 true in
  let c := quad 2 0 7 false in
  ∃ r1 s1,
    for_each Renderer.scanStep [p] (Renderer.scanStart sample_renderer)
    = Done (r1, s1)
    ∧ ¬ (Renderer.sameBatch s1 c = true
         ↔ skipBatching c = false ∧ materialID c = materialID p).
Proof.
  intros p c. eexists _, _. split; [vm_compute; reflexivity|].
  intros [_ Hback]. specialize (Hback (conj eq_refl eq_refl)).
  vm_compute in Hback. discriminate Hback.
Qed.





Lemma C5_sort_orders_buckets_witness :
  let cmds := [Custom 1 (Num 3); Custom 2 (Num (-2)); Custom 3 (Num 0);
               Custom 4 (Num 1); Custom 5 (Num (-5)); Custom 6 NaN] in
  StdSortContract
  ∧ Sorted float_le
      (getGlobalOrder <$> GLOBALZ_NEG (RenderQueue.sort (submit cmds emptyQueue)))
  ∧ RenderQueue.index (RenderQueue.sort (submit cmds emptyQueue)) 0
    = Done (Custom 5 (Num (-5))).
Proof.
  intros cmds. split; [exact sample_platform_contract|].
  pose proof (@C5_sort_orders_buckets sample_platform sample_platform_contract cmds)
    as (Hneg & _ & _ & _ & _ & _ & _ & Hindex & _).
  split; [exact Hneg|]. apply Hindex. split; [lia | reflexivity].
Defined.



Lemma C7_ambient_restored_witness :
  StdSortContract
  ∧ ∃ r', Renderer.visitRenderQueue 3 0 sample_scene = Done r'
          ∧ length (calls (gl r')) = 13%nat
          ∧ ambient (gl r') = ambient (gl sample_scene).
Proof.
  split; [exact sample_platform_contract|].
  destruct (Renderer.visitRenderQueue 3 0 sample_scene) as [r'| | |] eqn:Hrun;
    try (vm_compute in Hrun; discriminate Hrun).
  exists r'. split; [reflexivity|]. split.
  - vm_compute in Hrun. injection Hrun as <-. reflexivity.
  - exact (proj1 (@C7_ambient_restored sample_platform sample_platform_contract)
             3%nat 0 sample_scene r' Hrun).
Defined.


Lemma C9_queue_ids_witness :
  let reqs := [CreateRenderQueue; AddCommandTo (Custom 1 (Num 2)) 1;
               PushGroup 1; AddCommand (Triangles (quad 2 0 1 false));
               CreateRenderQueue; PopGroup; Render 2; CreateRenderQueue] in
  ∃ r', lifetime reqs sample_renderer = Done (r', [1; 2; 3])
        ∧ StronglySorted Z.lt [1; 2; 3].
Proof.
  intros reqs.
  destruct (lifetime reqs sample_renderer) as [[r' ids]| | |] eqn:Hrun;
    try (vm_compute in Hrun; discriminate Hrun).
  assert (ids = [1; 2; 3]) as Hids.
  { vm_compute in Hrun. injection Hrun as _ <-. reflexivity. }
  assert (Z.of_nat (length (_renderGroups r')) < 2 ^ 31) as Hmax.
  { vm_compute in Hrun. injection Hrun as <- _. reflexivity. }
  exists r'. subst ids. split; [reflexivity|].
  exact (proj1 (proj1 (C9_queue_ids reqs sample_renderer r' [1; 2; 3] Hrun Hmax))).
Defined.

(** ** A sweep of a well-formed scene returns *)

Section Completion.
Context `{Platform}.
Import Renderer.

Variable S : list (list (list RenderCommand)).
Variable rank : Z → nat.
Hypothesis S_ranked : wellRanked S rank.
Hypothesis S_drawable : sceneDrawable S.

Lemma dispatchInv_noClash r :
  dispatchInv S r → noClashIn (_queuedTriangleCommands r) = true.
Proof.
  intros (_ & _ & _ & Hq). destruct (_queuedTriangleCommands r) as [|t q]; [done|].
  simpl. apply noClash_no_sentinel. apply Forall_cons in Hq as [_ Hq].
  eapply Forall_impl; [exact Hq|]. by intros ? [_ ?].
Qed.

Lemma flush_completes r :
  dispatchInv S r →
  ∃ r', flush r = Done r' ∧ dispatchInv S r' ∧ _queuedTriangleCommands r' = [].
Proof.
  intros Hinv. pose proof (dispatchInv_noClash r Hinv) as Hno.
  destruct Hinv as (HS & Hst & Hw & Hq).
  unfold flush, flush2D, flushTriangles.
  destruct (drawBatchedTriangles_cases r)
    as [[Hempty Hd] | [(_ & _ & a & cap & Hd) | [Habs _]]]; [| |congruence].
  - exists r. by rewrite Hd.
  - eexists. split; [exact Hd|]. split; [|done].
    destruct Hw as [[? ?] [? ?]].
    split_and!; [done | by split | | by constructor].
    unfold withinCapacity. simpl. lia.
Qed.

Lemma dispatchInv_frame r r' :
  _renderGroups r' = _renderGroups r →
  _queuedTriangleCommands r' = _queuedTriangleCommands r →
  _filledVertex r' = _filledVertex r → _filledIndex r' = _filledIndex r →
  dispatchInv S r → dispatchInv S r'.
Proof.
  intros HG Hq Hv Hi (HS & [Hsv Hsi] & Hw & Hd).
  unfold dispatchInv, staged, withinCapacity, structure in *.
  rewrite HG, Hq, Hv, Hi. done.
Qed.

Section WithFuel.
Variable n : nat.

(** The sweeps with fuel [n] of the queues of rank below [n] return. *)
Hypothesis visit_completes_n : ∀ b r,
  (rank b < n)%nat → 0 <= b < Z.of_nat (length S) →
  dispatchInv S r → _queuedTriangleCommands r = [] →
  ∃ r', visitRenderQueue n b r = Done r' ∧ dispatchInv S r'
        ∧ _queuedTriangleCommands r' = [].

Lemma process_completes id c r :
  (rank id <= n)%nat →
  (∀ name order b, c = Group name order b → groupEdge S id b) →
  (∀ t, c = Triangles t → drawable t) →
  dispatchInv S r →
  ∃ r', processRenderCommandWith (visitRenderQueue n) (Some c) r = Done r'
        ∧ dispatchInv S r'.
Proof.
  intros Hrank Hgroup Htri Hinv.
  destruct c as [nm o | t | nm o b | nm o | nm o | nm o].
  - eexists. split; [reflexivity|]. revert Hinv. by apply dispatchInv_frame.
  - destruct (Htri t eq_refl) as [Hfit Hmat].
    pose proof (dispatchInv_noClash r Hinv) as Hno.
    destruct Hinv as (HS & Hst & Hw & Hq).
    destruct (process_triangles_step n t r Hst Hw Hfit)
      as [(r' & Hrun & Hst' & Hw' & Hq') | [Habs _]]; [|congruence].
    exists r'. split; [exact Hrun|].
    assert (_renderGroups r' = _renderGroups r) as HG.
    { destruct (process_groups _ _ _ _ Hrun) as [?|(? & ? & ? & ? & ? & _)]; done. }
    split_and!; [by rewrite <- HS; apply structure_groups | done | done |].
    destruct Hq' as [-> | [_ ->]].
    + apply Forall_app. split; [done|]. apply Forall_singleton. by split.
    + apply Forall_singleton. by split.
  - destruct (flush_completes r Hinv) as (rf & Hf & Hinvf & Hqf).
    destruct (S_ranked id b (Hgroup nm o b eq_refl)) as [Hb Hlt].
    destruct (visit_completes_n b rf) as (r' & Hv & Hinv' & _);
      [lia | done | done | done |].
    exists r'. split; [|done].
    unfold processRenderCommandWith. by rewrite Hf.
  - destruct (flush_completes r Hinv) as (rf & Hf & Hinvf & Hqf).
    eexists. split.
    + unfold processRenderCommandWith. rewrite Hf. reflexivity.
    + revert Hinvf. by apply dispatchInv_frame.
  - destruct (flush_completes r Hinv) as (rf & Hf & Hinvf & Hqf).
    eexists. split.
    + unfold processRenderCommandWith. rewrite Hf. reflexivity.
    + revert Hinvf. by apply dispatchInv_frame.
  - destruct (flush_completes r Hinv) as (rf & Hf & Hinvf & Hqf).
    eexists. split.
    + unfold processRenderCommandWith. rewrite Hf. reflexivity.
    + revert Hinvf. by apply dispatchInv_frame.
Qed.

Lemma dispatch_completes id cmds : ∀ r,
  (rank id <= n)%nat →
  (∀ name order b, Group name order b ∈ cmds → groupEdge S id b) →
  (∀ t, Triangles t ∈ cmds → drawable t) →
  dispatchInv S r →
  ∃ r', for_each (fun c => processRenderCommandWith (visitRenderQueue n) (Some c))
          cmds r = Done r'
        ∧ dispatchInv S r'.
Proof.
  induction cmds as [|c cmds IH]; intros r Hrank Hgroup Htri Hinv.
  - by exists r.
  - destruct (process_completes id c r Hrank) as (r1 & Hc & Hinv1); [| |done|].
    { intros nm o b ->. apply (Hgroup nm o b). by left. }
    { intros t ->. apply Htri. by left. }
    destruct (IH r1 Hrank) as (r' & Hrun & Hinv'); [| |done|].
    { intros nm o b Hb. apply (Hgroup nm o b). by right. }
    { intros t Ht. apply Htri. by right. }
    exists r'. split; [|done]. cbn [for_each]. by rewrite Hc.
Qed.

Lemma visitSubQueue_completes sub setup id r q :
  (∀ q', sub q' ∈ _commands q') →
  (rank id <= n)%nat → 0 <= id →
  _renderGroups r !! Z.to_nat id = Some q →
  dispatchInv S r → _queuedTriangleCommands r = [] →
  ∃ r', visitSubQueue (visitRenderQueue n) sub setup id r = Done r'
        ∧ dispatchInv S r' ∧ _queuedTriangleCommands r' = [].
Proof.
  intros Hsub Hrank Hid Hq Hinv Hempty. unfold visitSubQueue.
  rewrite (proj2 (at_Done _ _ _) (conj Hid Hq)), bind_Done.
  destruct (sub q) as [|c0 cmds] eqn:Hcmds; [by exists r|].
  assert (_commands q ∈ S) as HqS.
  { destruct Hinv as (<- & _). unfold structure.
    apply list_elem_of_lookup. exists (Z.to_nat id).
    by rewrite list_lookup_fmap, Hq. }
  destruct (dispatch_completes id (c0 :: cmds) (set_gl (setup r (gl r)) r))
    as (r1 & Hrun & Hinv1); [done | | | |].
  - intros nm o b Hb. destruct Hinv as (<- & _).
    apply (edge_of_sub _ _ q (sub q) nm o); [done | done | done | by rewrite Hcmds].
  - intros t Ht. apply (S_drawable (_commands q) (sub q)); [done | done |].
    by rewrite Hcmds.
  - revert Hinv. by apply dispatchInv_frame.
  - rewrite Hrun, bind_Done. by apply flush_completes.
Qed.

End WithFuel.

(** With more fuel than the rank of the queue, the sweep of a queue of a
    well-formed scene returns, from a state that the dispatch keeps. *)
Lemma visit_completes_inv n : ∀ id r,
  (rank id < n)%nat → 0 <= id < Z.of_nat (length S) →
  dispatchInv S r → _queuedTriangleCommands r = [] →
  ∃ r', visitRenderQueue n id r = Done r' ∧ dispatchInv S r'
        ∧ _queuedTriangleCommands r' = [].
Proof.
  induction n as [|n IH]; intros id r Hrank Hid Hinv Hempty; [lia|].
  assert (∃ q, _renderGroups r !! Z.to_nat id = Some q) as [q Hq].
  { apply lookup_lt_is_Some. destruct Hinv as (<- & _).
    unfold structure in Hid. rewrite length_fmap in Hid. lia. }
  cbn [visitRenderQueue].
  rewrite (proj2 (at_Done _ _ _) (conj (proj1 Hid) Hq)), bind_Done.
  set (r0 := set_renderGroups _ r).
  assert (dispatchInv S r0 ∧ _queuedTriangleCommands r0 = []) as [Hinv0 Hempty0].
  { split; [|done]. destruct Hinv as (HS & Hst & Hw & Hd).
    split_and!; try done. rewrite <- HS. by apply structure_save. }
  assert (∀ sub setup ra,
            (∀ q', sub q' ∈ _commands q') →
            dispatchInv S ra → _queuedTriangleCommands ra = [] →
            ∃ rb, visitSubQueue (visitRenderQueue n) sub setup id ra = Done rb
                  ∧ dispatchInv S rb ∧ _queuedTriangleCommands rb = []) as Hstep.
  { intros sub setup ra Hsub Hinva Hemptya.
    assert (∃ qa, _renderGroups ra !! Z.to_nat id = Some qa) as [qa Hqa].
    { apply lookup_lt_is_Some. destruct Hinva as (<- & _).
      unfold structure in Hid. rewrite length_fmap in Hid. lia. }
    apply (visitSubQueue_completes n IH sub setup id ra qa); try done; lia. }
  destruct (Hstep GLOBALZ_NEG setup2D r0) as (r1 & H1 & Hinv1 & Hempty1);
    [in_commands | done | done |].
  destruct (Hstep OPAQUE_3D setupOpaque3D r1) as (r2 & H2 & Hinv2 & Hempty2);
    [in_commands | done | done |].
  destruct (Hstep TRANSPARENT_3D setupTransparent3D r2) as (r3 & H3 & Hinv3 & Hempty3);
    [in_commands | done | done |].
  destruct (Hstep GLOBALZ_ZERO setup2D r3) as (r4 & H4 & Hinv4 & Hempty4);
    [in_commands | done | done |].
  destruct (Hstep GLOBALZ_POS setup2D r4) as (r5 & H5 & Hinv5 & Hempty5);
    [in_commands | done | done |].
  rewrite H1, bind_Done, H2, bind_Done, H3, bind_Done, H4, bind_Done, H5, bind_Done.
  assert (∃ q5, _renderGroups r5 !! Z.to_nat id = Some q5) as [q5 Hq5].
  { apply lookup_lt_is_Some. destruct Hinv5 as (<- & _).
    unfold structure in Hid. rewrite length_fmap in Hid. lia. }
  rewrite (proj2 (at_Done _ _ _) (conj (proj1 Hid) Hq5)), bind_Done.
  eexists. split; [reflexivity|]. split; [|done].
  revert Hinv5. by apply dispatchInv_frame.
Qed.

End Completion.

Section Totality.
Context `{Platform}.

(** The sweep of a queue returns when group commands name queues of the
    table and form no cycle, every triangles command passes the assertions,
    and nothing is pending at the start. *)
Lemma visit_completes (rank : Z → nat) (n : nat) (id : Z) (r : Renderer) :
  wellRanked (structure r) rank → sceneDrawable (structure r) →
  staged r → withinCapacity r → _queuedTriangleCommands r = [] →
  0 <= id < Z.of_nat (length (_renderGroups r)) → (rank id < n)%nat →
  ∃ r', Renderer.visitRenderQueue n id r = Done r'
        ∧ ambient (gl r') = ambient (gl r)
        ∧ _queuedTriangleCommands r' = [].
Proof.
  intros Hrank Hdraw Hst Hw Hempty Hid Hn.
  destruct (visit_completes_inv (structure r) rank Hrank Hdraw n id r)
    as (r' & Hrun & _ & Hempty'); try done.
  - unfold structure. rewrite length_fmap. lia.
  - split_and!; try done. rewrite Hempty. constructor.
  - exists r'. split; [done|]. split; [|done]. by apply (visit_ambient n id).
Qed.

End Totality.

(** ** The sample scene is well formed, and its sweep returns *)

Ltac members H :=
  repeat (apply elem_of_cons in H as [H|H]);
  try (apply elem_of_nil in H; contradiction).

Lemma sample_scene_ranked : wellRanked (structure sample_scene) sample_rank.
Proof.
  intros a b [Ha (subs & sub & nm & o & Hs & Hsub & Hg)].
  destruct (Z.to_nat a) as [|[|k]] eqn:Ea; cbn in Hs; [| |done].
  - injection Hs as <-. members Hsub; subst sub; members Hg; try discriminate Hg.
    injection Hg as _ _ ->. replace a with 0 by lia.
    split; [done|]. unfold sample_rank. simpl. lia.
  - injection Hs as <-. members Hsub; subst sub; members Hg; discriminate Hg.
Qed.

Lemma sample_scene_drawable : sceneDrawable (structure sample_scene).
Proof.
  intros subs sub t Hsubs Hsub Ht. cbn in Hsubs.
  members Hsubs; subst subs; members Hsub; subst sub; members Ht;
    try discriminate Ht; injection Ht as ->;
    (split; [split; simpl; lia | discriminate]).
Qed.

Lemma sample_scene_completes :
  ∃ r', Renderer.visitRenderQueue 2 0 sample_scene = Done r'
        ∧ ambient (gl r') = ambient (gl sample_scene)
        ∧ _queuedTriangleCommands r' = [].
Proof.
  apply (visit_completes sample_rank).
  - exact sample_scene_ranked.
  - exact sample_scene_drawable.
  - by split.
  - unfold withinCapacity. simpl. lia.
  - reflexivity.
  - simpl. lia.
  - unfold sample_rank. simpl. lia.
Defined.

Section QueueIndex.

Lemma size_concat q :
  RenderQueue.size q = Z.of_nat (length (concat (_commands q))).
Proof.
  unfold RenderQueue.size, _commands. simpl.
  rewrite !length_app. simpl. lia.
Qed.

(** X1. [operator[]] reads the five sub-queues as one sequence: an index
    from 0 to [size() - 1] gives the command at that position of the
    sub-queues laid end to end; an index of [size()] or more fails the
    assertion "invalid index"; a negative index is not caught by it and
    reads before the first sub-queue's storage. *)
Theorem X1_index_bounds (q : RenderQueue) (i : Z) :
  RenderQueue.size q = Z.of_nat (length (concat (_commands q)))
  ∧ (0 <= i < RenderQueue.size q →
     ∃ c, RenderQueue.index q i = Done c
          ∧ concat (_commands q) !! Z.to_nat i = Some c)
  ∧ (RenderQueue.size q <= i → RenderQueue.index q i = Abort "invalid index")
  ∧ (i < 0 → RenderQueue.index q i = Undefined).
Proof.
  split; [apply size_concat|]. rewrite size_concat. split_and!.
  - intros [Hi Hlt].
    destruct (lookup_lt_is_Some_2 (concat (_commands q)) (Z.to_nat i)) as [c Hc];
      [lia|].
    exists c. split; [|done]. by apply index_Done.
  - intros Hi. unfold RenderQueue.index.
    rewrite index_loop_concat by lia.
    rewrite (lookup_ge_None_2 (concat (_commands q)) (Z.to_nat i)) by lia. done.
  - intros Hi. unfold RenderQueue.index, _commands. cbn [RenderQueue.index_loop].
    rewrite (proj2 (Z.ltb_lt i _)) by lia.
    unfold RenderQueue.at_. by rewrite (proj2 (Z.ltb_lt i 0)) by lia.
Qed.

End QueueIndex.

(** ** What the queues of a renderer hold *)

Section Admissible.
Context `{Platform}.
Import Renderer.

Lemma admissible_empty : admissible emptyQueue.
Proof. unfold admissible. simpl. split_and!; by try constructor. Qed.

Lemma admissible_clear q : admissible (RenderQueue.clear q).
Proof. unfold admissible. simpl. split_and!; by try constructor. Qed.

Lemma admissible_push c q :
  getType c ≠ UNKNOWN_COMMAND → admissible q →
  admissible (RenderQueue.push_back c q).
Proof.
  intros Hc (Hneg & Ho & Ht & Hzero & Hpos & Hknown).
  unfold _commands in Hknown. simpl in Hknown.
  rewrite app_nil_r, !Forall_app in Hknown.
  destruct Hknown as (K1 & K2 & K3 & K4 & K5).
  unfold RenderQueue.push_back, admissible, _commands.
  fold (isNeg c). fold (isPos c).
  destruct (isNeg c) eqn:En; [|destruct (isPos c) eqn:Ep]; simpl;
    rewrite app_nil_r, !Forall_app; split_and!; try done;
    apply Forall_singleton; try done.
  unfold isZero. by rewrite En, Ep.
Qed.

Lemma render_groups_cleared fuel r r' :
  render fuel r = Done r' →
  ∃ G, _renderGroups r' = RenderQueue.clear <$> G.
Proof.
  unfold render. intros Hrun.
  apply bind_Done_inv in Hrun as (r1 & _ & Hrun). injection Hrun as <-.
  by exists (_renderGroups r1).
Qed.

Lemma serve_admissible req r ids r' ids' :
  serve req (r, ids) = Done (r', ids') →
  Forall admissible (_renderGroups r) → Forall admissible (_renderGroups r').
Proof.
  assert (∀ c id r1, addCommandTo c id r = Done r1 →
            Forall admissible (_renderGroups r) →
            Forall admissible (_renderGroups r1)) as Hadd.
  { intros c id r1 Hr1 Hall.
    apply addCommandTo_Done in Hr1
      as (_ & _ & Hc & (q & Hq & Hq') & _ & Hother & _).
    apply Forall_lookup. intros j x Hx.
    destruct (decide (j = Z.to_nat id)) as [->|Hj].
    - rewrite Hq' in Hx. injection Hx as <-.
      apply admissible_push; [done|]. by eapply Forall_lookup_1.
    - rewrite (Hother j Hj) in Hx. by eapply Forall_lookup_1. }
  destruct req as [c | c id | id | | | fuel]; simpl; intros Hrun Hall.
  - apply bind_Done_inv in Hrun as (r1 & Hr1 & [= <- <-]).
    unfold addCommand in Hr1. destruct (_commandGroupStack r); [done|].
    by eapply Hadd.
  - apply bind_Done_inv in Hrun as (r1 & Hr1 & [= <- <-]). by eapply Hadd.
  - apply bind_Done_inv in Hrun as (r1 & Hr1 & [= <- <-]).
    unfold pushGroup, CCASSERT in Hr1. destruct (negb _); [|done].
    by injection Hr1 as <-.
  - apply bind_Done_inv in Hrun as (r1 & Hr1 & [= <- <-]).
    unfold popGroup, CCASSERT in Hr1. destruct (negb _); [|done].
    simpl in Hr1. destruct (_commandGroupStack r); [done|].
    by injection Hr1 as <-.
  - injection Hrun as <- <-. simpl. apply Forall_app. split; [done|].
    apply Forall_singleton, admissible_empty.
  - apply bind_Done_inv in Hrun as (r1 & Hr1 & [= <- <-]).
    apply render_groups_cleared in Hr1 as [G ->].
    apply Forall_fmap, Forall_true. intros q. apply admissible_clear.
Qed.

Lemma new_admissible g : Forall admissible (_renderGroups (new g)).
Proof. apply Forall_singleton, admissible_empty. Qed.

(** X2. Whatever requests a renderer serves ([addCommand], [pushGroup],
    [popGroup], [createRenderQueue], [render]), each of its queues holds in
    GLOBALZ_NEG only commands of negative global order, in GLOBALZ_POS only
    commands of positive global order and in GLOBALZ_ZERO the others, a
    command whose order is NaN among them; OPAQUE_3D and TRANSPARENT_3D stay
    empty; and no queued command is of unknown type. This holds of the
    renderer the constructor makes. *)
Theorem X2_queues_admissible (reqs : list Request) (r r' : Renderer)
    (ids : list Z) :
  Forall admissible (_renderGroups r) →
  lifetime reqs r = Done (r', ids) →
  Forall admissible (_renderGroups r')
  ∧ (∀ g, Forall admissible (_renderGroups (new g)))
  ∧ (∀ c, getGlobalOrder c = NaN → isZero c = true).
Proof.
  intros Hall Hrun. split_and!.
  - unfold lifetime in Hrun.
    apply (for_each_inv (fun st => Forall admissible (_renderGroups st.1))
             serve reqs (r, []) (r', ids)); [|done|done].
    intros req [r1 ids1] [r2 ids2] _ H1 H2. by eapply serve_admissible.
  - apply new_admissible.
  - intros c Hc. unfold isZero, isNeg, isPos. by rewrite Hc.
Qed.

End Admissible.

(** ** What a sweep and a frame leave as they were *)

Section Settings.
Context `{Platform}.
Import Renderer.

Lemma flush_settings r r' : flush r = Done r' → settings r' = settings r.
Proof.
  unfold flush, flush2D, flushTriangles. intros Hf.
  destruct (drawBatchedTriangles_cases r)
    as [[_ Hd] | [(_ & _ & a & cap & Hd) | [_ Hd]]];
    rewrite Hd in Hf; [| |done]; by injection Hf as <-.
Qed.

Lemma process_settings visit c r r' :
  (∀ b rf rf', visit b rf = Done rf' → settings rf' = settings rf) →
  processRenderCommandWith visit (Some c) r = Done r' →
  settings r' = settings r.
Proof.
  intros Hvisit Hrun.
  destruct c as [nm o | t | nm o b | nm o | nm o | nm o].
  - by injection Hrun as <-.
  - apply process_triangles_Done in Hrun as (r1 & Hr1 & ->).
    change (settings (stageCommand t r1)) with (settings r1).
    destruct Hr1 as [-> | [[Hf _] | [Hf _]]]; [done | |]; by apply flush_settings.
  - apply bind_Done_inv in Hrun as (rf & Hf & Hv).
    rewrite (Hvisit _ _ _ Hv). by apply flush_settings.
  - apply bind_Done_inv in Hrun as (rf & Hf & [= <-]).
    change (settings (executeCommand (Custom nm o) rf)) with (settings rf).
    by apply flush_settings.
  - apply bind_Done_inv in Hrun as (rf & Hf & [= <-]).
    change (settings (executeCommand (Batch nm o) rf)) with (settings rf).
    by apply flush_settings.
  - apply bind_Done_inv in Hrun as (rf & Hf & [= <-]).
    change (settings (executeCommand (Primitive nm o) rf)) with (settings rf).
    by apply flush_settings.
Qed.

Lemma visitSubQueue_settings visit sub setup id r r' :
  (∀ b rf rf', visit b rf = Done rf' → settings rf' = settings rf) →
  visitSubQueue visit sub setup id r = Done r' →
  settings r' = settings r.
Proof.
  intros Hvisit Hrun. unfold visitSubQueue in Hrun.
  apply bind_Done_inv in Hrun as (q & _ & Hrun).
  destruct (sub q) as [|c0 cmds]; [by injection Hrun as <-|].
  apply bind_Done_inv in Hrun as (r1 & Hr1 & Hf).
  rewrite (flush_settings _ _ Hf).
  revert Hr1. apply (for_each_inv (fun s => settings s = settings r)); [|done].
  intros x s1 s2 _ Hs1 Hs2. rewrite <- Hs1.
  exact (process_settings visit x s1 s2 Hvisit Hs2).
Qed.

Lemma visit_settings n : ∀ id r r',
  visitRenderQueue n id r = Done r' → settings r' = settings r.
Proof.
  induction n as [|n IH]; intros id r r' Hrun; [done|].
  apply visit_Done_inv in Hrun
    as (q & r1 & r2 & r3 & r4 & r5 & q5 & _ & _ & H1 & H2 & H3 & H4 & H5 & _ & ->).
  change (settings (set_gl (RenderQueue.restoreRenderState q5 (gl r5)) r5))
    with (settings r5).
  rewrite (visitSubQueue_settings _ _ _ _ _ _ IH H5),
    (visitSubQueue_settings _ _ _ _ _ _ IH H4),
    (visitSubQueue_settings _ _ _ _ _ _ IH H3),
    (visitSubQueue_settings _ _ _ _ _ _ IH H2),
    (visitSubQueue_settings _ _ _ _ _ _ IH H1).
  reflexivity.
Qed.

Lemma render_post fuel r r' :
  render fuel r = Done r' →
  length (_renderGroups r') = length (_renderGroups r)
  ∧ Forall (fun q => RenderQueue.size q = 0) (_renderGroups r')
  ∧ _queuedTriangleCommands r' = []
  ∧ _filledVertex r' = 0 ∧ _filledIndex r' = 0
  ∧ _isRendering r' = false
  ∧ _commandGroupStack r' = _commandGroupStack r
  ∧ _isDepthTestFor2D r' = _isDepthTestFor2D r
  ∧ _glViewAssigned r' = _glViewAssigned r
  ∧ ambient (gl r') = ambient (gl r).
Proof.
  intros Hrun. split; [by apply (render_groups_length fuel)|].
  unfold render in Hrun.
  apply bind_Done_inv in Hrun as (r1 & Hr1 & Hrun). injection Hrun as <-.
  split.
  { simpl. change (map RenderQueue.clear (_renderGroups r1))
      with (RenderQueue.clear <$> _renderGroups r1).
    apply Forall_fmap, Forall_true. intros q. reflexivity. }
  do 4 (split; [reflexivity|]).
  assert (settings r1 = settings (set_isRendering true r)
          ∧ ambient (gl r1) = ambient (gl r)) as [Hset Hamb].
  { change (_glViewAssigned (set_isRendering true r))
      with (_glViewAssigned r) in Hr1.
    destruct (_glViewAssigned r).
    - split; [by apply visit_settings in Hr1 | by apply visit_ambient in Hr1].
    - by injection Hr1 as <-. }
  injection Hset as Hstack _ Hview Hdepth.
  by split_and!.
Qed.

(** A frame that completes with a view assigned has swept queue 0. *)
Lemma render_root fuel r r' :
  render fuel r = Done r' → _glViewAssigned r = true →
  ∃ q, _renderGroups r !! 0%nat = Some q.
Proof.
  unfold render. intros Hrun Hview.
  apply bind_Done_inv in Hrun as (r1 & Hr1 & _).
  change (_glViewAssigned (set_isRendering true r))
    with (_glViewAssigned r) in Hr1. rewrite Hview in Hr1.
  destruct fuel as [|fuel]; [done|].
  apply visit_Done_inv in Hr1 as (q & _ & _ & _ & _ & _ & _ & _ & Hq & _).
  simpl in Hq. apply lookup_lt_is_Some. apply lookup_lt_Some in Hq.
  by rewrite length_map in Hq.
Qed.

(** A frame in which nothing is swept: no view is assigned, or queue 0
    holds no command. *)
Lemma render_nothing `{!StdSortContract} fuel r :
  _glViewAssigned r = false
  ∨ (∃ q, _renderGroups r !! 0%nat = Some q ∧ RenderQueue.size q = 0) →
  ∃ r', render (S fuel) r = Done r'
        ∧ gl r' = gl r
        ∧ _drawnBatches r' = _drawnBatches r
        ∧ _drawnVertices r' = _drawnVertices r
        ∧ errorLog r' = errorLog r.
Proof.
  intros Hcase. unfold render.
  change (_glViewAssigned (set_isRendering true r)) with (_glViewAssigned r).
  change (_renderGroups (set_isRendering true r)) with (_renderGroups r).
  destruct (_glViewAssigned r) eqn:Hview.
  - destruct Hcase as [?|(q & Hq & Hsize)]; [done|].
    apply size_zero in Hsize.
    rewrite (visit_empty_queue fuel _ (RenderQueue.sort q)).
    + rewrite bind_Done. eexists. split; [reflexivity|]. done.
    + simpl. change (map RenderQueue.sort (_renderGroups r))
        with (RenderQueue.sort <$> _renderGroups r).
      by rewrite list_lookup_fmap, Hq.
    + by rewrite (sort_empty q Hsize).
  - rewrite bind_Done. eexists. split; [reflexivity|]. done.
Qed.

(** X3. A frame that completes leaves the renderer ready for the next one:
    the table of queues has the entries it had, each without commands; no
    triangles command is pending and the fill positions are zero;
    [_isRendering] is false again. The stack of group ids, the 2D depth-test
    setting and the view flag are as before the frame, and so are the
    depth-test, cull-face and depth-write flags of the GL context. *)
Theorem X3_render_leaves_clean (fuel : nat) (r r' : Renderer) :
  render fuel r = Done r' →
  length (_renderGroups r') = length (_renderGroups r)
  ∧ Forall (fun q => RenderQueue.size q = 0) (_renderGroups r')
  ∧ _queuedTriangleCommands r' = []
  ∧ _filledVertex r' = 0 ∧ _filledIndex r' = 0
  ∧ _isRendering r' = false
  ∧ _commandGroupStack r' = _commandGroupStack r
  ∧ _isDepthTestFor2D r' = _isDepthTestFor2D r
  ∧ _glViewAssigned r' = _glViewAssigned r
  ∧ ambient (gl r') = ambient (gl r).
Proof. apply render_post. Qed.

(** X4. [render] draws what is reached from queue 0 only. When no view is
    assigned, or when queue 0 holds no command, the frame completes without
    an upload, a draw call or an executed command, and with the GL flags
    and the draw counters as they were, whatever the other queues hold;
    their commands are dropped with the frame. *)
Theorem X4_render_only_from_root `{!StdSortContract} (fuel : nat) (r : Renderer) :
  _glViewAssigned r = false
  ∨ (∃ q, _renderGroups r !! 0%nat = Some q ∧ RenderQueue.size q = 0) →
  ∃ r', render (S fuel) r = Done r'
        ∧ gl r' = gl r
        ∧ _drawnBatches r' = _drawnBatches r
        ∧ _drawnVertices r' = _drawnVertices r
        ∧ Forall (fun q => RenderQueue.size q = 0) (_renderGroups r').
Proof.
  intros Hcase.
  destruct (render_nothing fuel r Hcase) as (r' & Hrun & Hgl & Hb & Hv & _).
  exists r'. split_and!; try done.
  by apply render_post in Hrun as (_ & ? & _).
Qed.

(** X5. Commands last one frame: after a frame that completes, a second
    [render] with no command added in between completes without an upload,
    a draw call or an executed command, and leaves the GL flags and the
    draw counters as the first frame left them. *)
Theorem X5_render_twice `{!StdSortContract} (fuel fuel' : nat) (r r1 : Renderer) :
  render fuel r = Done r1 →
  ∃ r2, render (S fuel') r1 = Done r2
        ∧ gl r2 = gl r1
        ∧ _drawnBatches r2 = _drawnBatches r1
        ∧ _drawnVertices r2 = _drawnVertices r1.
Proof.
  intros Hrun.
  pose proof (render_post _ _ _ Hrun)
    as (Hlen & Hsize & _ & _ & _ & _ & _ & _ & Hview & _).
  destruct (render_nothing fuel' r1) as (r2 & Hrun2 & ? & ? & ? & _);
    [|by exists r2].
  destruct (_glViewAssigned r) eqn:Hv; [right | by left].
  destruct (render_root _ _ _ Hrun Hv) as [q Hq].
  destruct (lookup_lt_is_Some_2 (_renderGroups r1) 0) as [q1 Hq1].
  { rewrite Hlen. by apply lookup_lt_Some in Hq. }
  exists q1. split; [done|]. by eapply Forall_lookup_1 in Hsize.
Qed.

End Settings.

(** ** The stack of group ids and the ids of queues *)

Section GroupStack.
Context `{Platform}.
Import Renderer.

Lemma set_commandGroupStack_id r : set_commandGroupStack (_commandGroupStack r) r = r.
Proof. by destruct r. Qed.

Lemma set_commandGroupStack_twice s1 s2 r :
  set_commandGroupStack s2 (set_commandGroupStack s1 r) = set_commandGroupStack s2 r.
Proof. reflexivity. Qed.

(** [addCommand(command, renderQueue)] does not read the stack. *)
Lemma addCommandTo_stack c id s r :
  addCommandTo c id (set_commandGroupStack s r)
  = addCommandTo c id r ≫= (fun r' => Done (set_commandGroupStack s r')).
Proof.
  unfold addCommandTo, CCASSERT. simpl.
  destruct (negb (_isRendering r)); [|done]. simpl.
  destruct (0 <=? id); [|done]. simpl.
  destruct (negb (bool_decide (getType c = UNKNOWN_COMMAND))); [|done]. simpl.
  by destruct (RenderQueue.at_ (_renderGroups r) id).
Qed.

Lemma addCommandTo_rendering c id r r' :
  addCommandTo c id r = Done r' → _isRendering r' = _isRendering r.
Proof.
  unfold addCommandTo. intros Hrun.
  apply bind_Done_inv in Hrun as (_ & _ & Hrun).
  apply bind_Done_inv in Hrun as (_ & _ & Hrun).
  apply bind_Done_inv in Hrun as (_ & _ & Hrun).
  apply bind_Done_inv in Hrun as (q & _ & Hrun).
  by injection Hrun as <-.
Qed.

(** The commands added with the id [id] on top of the stack. *)
Lemma addCommand_under_group cmds id : ∀ r ids s,
  _isRendering r = false →
  for_each serve ((AddCommand <$> cmds) ++ [PopGroup])
    (set_commandGroupStack (id :: s) r, ids)
  = for_each serve ((fun c => AddCommandTo c id) <$> cmds) (r, ids)
    ≫= (fun st => Done (set_commandGroupStack s st.1, st.2)).
Proof.
  induction cmds as [|c cmds IH]; intros r ids s Hr.
  - simpl. unfold popGroup, CCASSERT. simpl. by rewrite Hr.
  - cbn [fmap list_fmap app for_each]. cbn [serve fst snd].
    unfold addCommand. cbn [_commandGroupStack set_commandGroupStack].
    rewrite addCommandTo_stack.
    destruct (addCommandTo c id r) as [r1| | |] eqn:Hadd; try done.
    rewrite !bind_Done. cbn [fst snd].
    apply IH. by rewrite (addCommandTo_rendering _ _ _ _ Hadd).
Qed.

(** X6. Between [pushGroup(id)] and the matching [popGroup()], outside a
    frame, [addCommand(command)] adds to queue [id]: the three steps leave
    the renderer as the calls [addCommand(command, id)] alone do, with the
    stack of group ids as it was before, and they fail as those calls
    fail. *)
Theorem X6_group_bracket (cmds : list RenderCommand) (id : Z) (r : Renderer) :
  _isRendering r = false →
  lifetime ([PushGroup id] ++ (AddCommand <$> cmds) ++ [PopGroup]) r
  = lifetime ((fun c => AddCommandTo c id) <$> cmds) r.
Proof.
  intros Hr. unfold lifetime.
  cbn [app for_each]. cbn [serve fst snd].
  unfold pushGroup, CCASSERT. rewrite Hr. simpl negb. cbv iota.
  rewrite !bind_Done. cbn [fst snd].
  rewrite (addCommand_under_group cmds id r [] (_commandGroupStack r) Hr).
  destruct (for_each serve ((λ c, AddCommandTo c id) <$> cmds) (r, []))
    as [[r' ids']| | |] eqn:Hrun; try done.
  rewrite bind_Done. cbn [fst snd]. do 2 f_equal.
  assert (_commandGroupStack r' = _commandGroupStack r) as <-;
    [|apply set_commandGroupStack_id].
  revert Hrun.
  apply (for_each_inv (fun st => _commandGroupStack st.1 = _commandGroupStack r));
    [|done].
  intros req [r1 ids1] [r2 ids2] Hreq Hs1 Hs2.
  apply list_elem_of_fmap in Hreq as (c & -> & _). simpl in Hs2.
  apply bind_Done_inv in Hs2 as (r3 & Hadd & [= <- _]).
  apply addCommandTo_Done in Hadd as (_ & _ & _ & _ & _ & _ & Hstack & _).
  simpl in *. congruence.
Qed.

(** X7. The id of a queue is checked against negative values only, and only
    by [addCommand]. [pushGroup] accepts any id. Outside a frame, a command
    of a known type added to an id at or beyond the size of the table of
    queues indexes the table out of range; so does [addCommand(command)]
    with such an id on top of the stack. [popGroup] with an empty stack, and
    [addCommand(command)] after the last id has been popped, read an empty
    stack. *)
Theorem X7_queue_id_unchecked (c : RenderCommand) (id : Z) (r : Renderer) :
  _isRendering r = false →
  getType c ≠ UNKNOWN_COMMAND →
  pushGroup id r = Done (set_commandGroupStack (id :: _commandGroupStack r) r)
  ∧ (Z.of_nat (length (_renderGroups r)) <= id →
     addCommandTo c id r = Undefined
     ∧ pushGroup id r ≫= addCommand c = Undefined)
  ∧ (id < 0 → pushGroup id r ≫= addCommand c = Abort "Invalid render queue")
  ∧ (_commandGroupStack r = [] →
     popGroup r = Undefined ∧ addCommand c r = Undefined)
  ∧ (∀ top, _commandGroupStack r = [top] →
            popGroup r ≫= addCommand c = Undefined).
Proof.
  intros Hr Hc.
  assert (pushGroup id r
          = Done (set_commandGroupStack (id :: _commandGroupStack r) r)) as Hpush.
  { unfold pushGroup, CCASSERT. by rewrite Hr. }
  assert (Z.of_nat (length (_renderGroups r)) <= id →
          ∀ s, addCommandTo c id (set_commandGroupStack s r) = Undefined) as Hout.
  { intros Hid s. unfold addCommandTo, CCASSERT. simpl. rewrite Hr. simpl.
    rewrite (proj2 (Z.leb_le 0 id)) by lia. simpl.
    rewrite bool_decide_eq_false_2 by done. simpl.
    unfold RenderQueue.at_. rewrite (proj2 (Z.ltb_ge id 0)) by lia.
    rewrite lookup_ge_None_2 by lia. done. }
  split; [done|]. split_and!.
  - intros Hid. split.
    + rewrite <- (set_commandGroupStack_id r). by apply Hout.
    + rewrite Hpush, bind_Done. unfold addCommand. simpl. by apply Hout.
  - intros Hid. rewrite Hpush, bind_Done. unfold addCommand. simpl.
    unfold addCommandTo, CCASSERT. simpl. rewrite Hr. simpl.
    by rewrite (proj2 (Z.leb_gt 0 id)) by lia.
  - intros Hs. unfold popGroup, addCommand, CCASSERT. by rewrite Hr, Hs.
  - intros top Hs. unfold popGroup, CCASSERT. rewrite Hr, Hs. simpl.
    reflexivity.
Qed.

End GroupStack.

(** ** Group commands that name no queue, or a queue that reaches itself *)

Section GroupTargets.
Context `{Platform}.
Import Renderer.

(** X8. The queue id of a group command is not checked. When it is negative,
    or at or beyond the size of the table of queues, the dispatch of the
    command flushes the pending triangles and then indexes the table out of
    range. *)
Theorem X8_group_dangling (n : nat) (name : nat) (order : float) (b : Z)
    (r rf : Renderer) :
  b < 0 ∨ Z.of_nat (length (_renderGroups r)) <= b →
  flush r = Done rf →
  processRenderCommand (S n) (Some (Group name order b)) r = Undefined.
Proof.
  intros Hb Hf. unfold processRenderCommand, processRenderCommandWith.
  rewrite Hf, bind_Done. cbn [visitRenderQueue].
  apply flush_frame in Hf as (-> & _).
  unfold RenderQueue.at_. destruct (b <? 0) eqn:Hneg; [done|].
  apply Z.ltb_ge in Hneg. rewrite lookup_ge_None_2 by lia. done.
Qed.

Lemma visit_in_range n id r r' :
  visitRenderQueue n id r = Done r' →
  0 <= id < Z.of_nat (length (_renderGroups r)).
Proof.
  destruct n as [|n]; [done|]. intros Hrun.
  apply visit_Done_inv in Hrun as (q & _ & _ & _ & _ & _ & _ & Hid & Hq & _).
  apply lookup_lt_Some in Hq. lia.
Qed.

(** X9. A sweep returns only if every queue it reaches through group
    commands is a queue of the table and is not reached from itself: with a
    group command for a missing queue, or with group commands that lead
    from a queue back to it, the sweep of a queue that reaches them does not
    return, whatever the fuel. *)
Theorem X9_sweep_needs_targets (n : nat) (id b : Z) (r r' : Renderer) :
  visitRenderQueue n id r = Done r' →
  rtc (groupEdge (structure r)) id b →
  0 <= b < Z.of_nat (length (_renderGroups r))
  ∧ ¬ tc (groupEdge (structure r)) b b.
Proof.
  intros Hrun Hreach.
  assert (∃ m rf rf', structure rf = structure r
                      ∧ visitRenderQueue m b rf = Done rf')
    as (m & rf & rf' & HS & Hb).
  { apply rtc_tc in Hreach as [<- | Htc]; [by exists n, r, r'|].
    destruct (visit_reach _ _ _ Htc n r r' eq_refl Hrun)
      as (m & rf & rf' & _ & HS & Hb).
    by exists m, rf, rf'. }
  split.
  - apply visit_in_range in Hb.
    apply (f_equal length) in HS. unfold structure in HS.
    rewrite !length_fmap in HS. lia.
  - rewrite <- HS. by eapply visit_no_cycle.
Qed.

End GroupTargets.

(** ** A frame of a well-formed scene returns *)

Section FrameCompletes.
Context `{Platform} `{!StdSortContract}.
Import Renderer.

Lemma admissible_sortable q :
  admissible q →
  Forall hasNumber (GLOBALZ_NEG q) ∧ Forall hasNumber (GLOBALZ_POS q).
Proof.
  intros (Hneg & _ & _ & _ & Hpos & _). split.
  - eapply Forall_impl; [exact Hneg|]. apply isNeg_hasNumber.
  - eapply Forall_impl; [exact Hpos|]. apply isPos_hasNumber.
Qed.

(** Sorting a queue keeps the commands it holds. *)
Lemma sort_commands_elem q c :
  admissible q →
  c ∈ concat (_commands (RenderQueue.sort q)) ↔ c ∈ concat (_commands q).
Proof.
  intros [Hneg Hpos]%admissible_sortable.
  destruct (sort_spec q Hneg Hpos)
    as (Pn & _ & _ & Pp & _ & _ & Ez & Eo & Et & _).
  unfold _commands. rewrite !concat_cons, concat_nil, !app_nil_r, !elem_of_app.
  rewrite Ez, Eo, Et, Pn, Pp. done.
Qed.

Lemma commands_elem (q : RenderQueue) (c : RenderCommand) :
  c ∈ concat (_commands q) ↔ ∃ sub, sub ∈ _commands q ∧ c ∈ sub.
Proof.
  unfold _commands. rewrite !concat_cons, concat_nil, !app_nil_r, !elem_of_app.
  split.
  - intros [?|[?|[?|[?|?]]]]; eexists; (split; [|eassumption]);
      rewrite !elem_of_cons; tauto.
  - intros (sub & Hsub & Hc). rewrite !elem_of_cons, elem_of_nil in Hsub.
    destruct Hsub as [->|[->|[->|[->|[->|[]]]]]]; tauto.
Qed.

Lemma sorted_sub q sub c :
  admissible q → sub ∈ _commands (RenderQueue.sort q) → c ∈ sub →
  ∃ sub0, sub0 ∈ _commands q ∧ c ∈ sub0.
Proof.
  intros Hq Hsub Hc.
  assert (c ∈ concat (_commands q)) as Hin.
  { apply sort_commands_elem; [done|]. apply commands_elem. eauto. }
  apply commands_elem in Hin as (sub0 & ? & ?). eauto.
Qed.

Lemma sorted_lookup (G : list RenderQueue) (i : nat) subs :
  (_commands <$> (RenderQueue.sort <$> G)) !! i = Some subs →
  ∃ q, G !! i = Some q ∧ subs = _commands (RenderQueue.sort q).
Proof.
  rewrite !list_lookup_fmap. destruct (G !! i) as [q|]; [|done].
  intros [= <-]. eauto.
Qed.

Lemma sorted_edge (G : list RenderQueue) a b :
  Forall admissible G →
  groupEdge (_commands <$> (RenderQueue.sort <$> G)) a b →
  groupEdge (_commands <$> G) a b.
Proof.
  intros Hall [Ha (subs & sub & nm & o & Hs & Hsub & Hg)].
  apply sorted_lookup in Hs as (q & Hq & ->).
  destruct (sorted_sub q sub _ (Forall_lookup_1 _ _ _ _ Hall Hq) Hsub Hg)
    as (sub0 & Hsub0 & Hg0).
  by eapply edge_of_sub.
Qed.

(** X10. [render] returns for a well-formed scene: when the queues are as
    [addCommand] fills them, every group command names a queue of the table,
    no queue is reached from itself through group commands, every triangles
    command alone fits the staging arrays and has a material identifier
    other than the reserved one, and nothing is pending, a frame with more
    fuel than the rank of queue 0 completes. *)
Theorem X10_render_completes (rank : Z → nat) (fuel : nat) (r : Renderer) :
  Forall admissible (_renderGroups r) →
  wellRanked (structure r) rank → sceneDrawable (structure r) →
  staged r → withinCapacity r → _queuedTriangleCommands r = [] →
  _renderGroups r ≠ [] → (rank 0%Z < fuel)%nat →
  ∃ r', render fuel r = Done r'.
Proof.
  intros Hall Hrank Hdraw Hst Hw Hempty Hne Hfuel. unfold render.
  change (_glViewAssigned (set_isRendering true r)) with (_glViewAssigned r).
  destruct (_glViewAssigned r); [|by eexists].
  set (r0 := set_renderGroups _ _).
  assert (structure r0 = _commands <$> (RenderQueue.sort <$> _renderGroups r))
    as HS by done.
  destruct (visit_completes rank fuel 0 r0) as (r1 & -> & _); try done.
  - intros a b Hedge. rewrite HS in Hedge.
    apply sorted_edge in Hedge; [|done].
    destruct (Hrank a b Hedge) as [Hb ?]. split; [|done].
    rewrite HS. unfold structure in Hb. by rewrite !length_fmap in *.
  - intros subs sub t Hsubs Hsub Ht. rewrite HS in Hsubs.
    apply list_elem_of_lookup in Hsubs as [i Hi].
    apply sorted_lookup in Hi as (q & Hq & ->).
    destruct (sorted_sub q sub _ (Forall_lookup_1 _ _ _ _ Hall Hq) Hsub Ht)
      as (sub0 & Hsub0 & Ht0).
    apply (Hdraw (_commands q) sub0); [|done|done].
    unfold structure. apply list_elem_of_lookup. exists i.
    by rewrite list_lookup_fmap, Hq.
  - unfold r0. simpl. rewrite length_map.
    destruct (_renderGroups r); [done|]. simpl. lia.
  - by eexists.
Qed.

End FrameCompletes.

Section SweepFrame.
Context `{Platform}.
Import Renderer.

(** X11. A sweep that returns has consumed nothing: every queue holds the
    commands it held, in the same sub-queues and order, and the table has
    the same size; only [clean], at the end of the frame, empties the
    queues. The stack of group ids, [_isRendering], the view flag and the 2D
    depth-test setting are not written, and if no triangles command was
    pending before the sweep none is pending after it. *)
Theorem X11_sweep_consumes_nothing (n : nat) (id : Z) (r r' : Renderer) :
  visitRenderQueue n id r = Done r' →
  (_commands <$> _renderGroups r') = (_commands <$> _renderGroups r)
  ∧ length (_renderGroups r') = length (_renderGroups r)
  ∧ _commandGroupStack r' = _commandGroupStack r
  ∧ _isRendering r' = _isRendering r
  ∧ _glViewAssigned r' = _glViewAssigned r
  ∧ _isDepthTestFor2D r' = _isDepthTestFor2D r
  ∧ (_queuedTriangleCommands r = [] → _queuedTriangleCommands r' = []).
Proof.
  intros Hrun.
  pose proof (visit_structure _ _ _ _ Hrun) as HS.
  pose proof (visit_settings _ _ _ _ Hrun) as [= Hstack Hrendering Hview Hdepth].
  split_and!; try done.
  - apply (f_equal length) in HS. unfold structure in HS.
    by rewrite !length_fmap in HS.
  - intros Hempty.
    by destruct (visit_order n id r r' Hempty Hrun) as (_ & _ & _ & ?).
Qed.

End SweepFrame.

(** ** The array of batches and the ranges a flush draws *)

Section BatchArray.
Context `{Platform}.
Import Renderer.

(** An iteration of the scan writes the entry at [batchesTotal] or the one
    above it, and no other. *)
Lemma scanStep_writes cmd r scan r' scan' i :
  scanStep cmd (r, scan) = Done (r', scan') →
  i ≠ batchesTotal scan → i ≠ batchesTotal scan + 1 →
  _triBatchesToDraw r' i = _triBatchesToDraw r i.
Proof.
  intros Hstep Hi Hi'. unfold scanStep in Hstep. cbn [fst snd] in Hstep.
  apply bind_Done_inv in Hstep as ([[a n'] m] & Hbranch & Hstep).
  cbn [fst snd] in Hstep. injection Hstep as <- _.
  assert (a i = _triBatchesToDraw r i) as <-.
  { destruct (sameBatch scan cmd).
    - apply bind_Done_inv in Hbranch as (? & _ & [= <- _ _]).
      unfold store. by destruct (i =? batchesTotal scan) eqn:E; [lia|].
    - injection Hbranch as <- _ _.
      destruct (negb (firstCommand scan)); unfold store;
        repeat match goal with
               | |- context [?x =? ?y] => destruct (x =? y) eqn:?; [lia|]
               end; done. }
  by destruct (_ >=? _).
Qed.

Lemma scan_capacity cmds : ∀ r scan r' scan',
  (∀ c, 3 <= c → c < scaleCapacity c) →
  3 <= _triBatchesToDrawCapacity r →
  0 <= batchesTotal scan →
  batchesTotal scan + 1 < _triBatchesToDrawCapacity r →
  for_each scanStep cmds (r, scan) = Done (r', scan') →
  batchesTotal scan <= batchesTotal scan'
                    <= batchesTotal scan + Z.of_nat (length cmds)
  ∧ batchesTotal scan' + 1 < _triBatchesToDrawCapacity r'
  ∧ 3 <= _triBatchesToDrawCapacity r'.
Proof.
  induction cmds as [|c cmds IH]; intros r scan r' scan' Hscale Hcap Hn0 Hn Hrun.
  - injection Hrun as <- <-. simpl. lia.
  - cbn [for_each] in Hrun.
    apply bind_Done_inv in Hrun as ([r1 s1] & Hstep & Hrun).
    destruct (capacity_respected _ _ _ _ _ Hscale Hcap Hn0 Hn Hstep)
      as (Hn1 & Hcap1 & Hcap1').
    assert (0 <= batchesTotal s1) as Hn0' by lia.
    destruct (IH r1 s1 r' scan' Hscale Hcap1' Hn0' Hcap1 Hrun) as (? & ? & ?).
    cbn [length]. split_and!; try done; lia.
Qed.

(** X12. The scan of [drawBatchedTriangles] stays inside the array of
    batches. With a capacity of at least 3 at the start, and a capacity that
    grows when scaled by 1.4, after any number of iterations the entry at
    [batchesTotal] and the one above it lie below the capacity, and these
    are the only entries the next iteration writes. The number of batches,
    [batchesTotal + 1], is at most the number of commands scanned. *)
Theorem X12_batch_array_bounds (cmds : list TrianglesCommand) (r r1 : Renderer)
    (s1 : BatchScan) :
  (∀ c, 3 <= c → c < scaleCapacity c) →
  3 <= _triBatchesToDrawCapacity r →
  for_each scanStep cmds (scanStart r) = Done (r1, s1) →
  0 <= batchesTotal s1
  ∧ (cmds ≠ [] → batchesTotal s1 + 1 <= Z.of_nat (length cmds))
  ∧ batchesTotal s1 + 1 < _triBatchesToDrawCapacity r1
  ∧ ∀ c r2 s2,
      scanStep c (r1, s1) = Done (r2, s2) →
      (∀ i, i ≠ batchesTotal s1 → i ≠ batchesTotal s1 + 1 →
            _triBatchesToDraw r2 i = _triBatchesToDraw r1 i)
      ∧ batchesTotal s2 + 1 < _triBatchesToDrawCapacity r2.
Proof.
  intros Hscale Hcap Hrun.
  assert (0 <= batchesTotal s1
          ∧ (cmds ≠ [] → batchesTotal s1 + 1 <= Z.of_nat (length cmds))
          ∧ batchesTotal s1 + 1 < _triBatchesToDrawCapacity r1
          ∧ 3 <= _triBatchesToDrawCapacity r1) as (Hn0 & Hn & Hcap1 & Hcap1').
  { destruct cmds as [|c rest].
    - injection Hrun as <- <-. simpl. split_and!; try done; lia.
    - cbn [for_each] in Hrun.
      apply bind_Done_inv in Hrun as ([r0 s0] & Hstep & Hrun).
      assert (batchesTotal s0 = 0) as Hs0.
      { destruct (scanStep_first r c) as (a' & cap' & Hfirst & _).
        rewrite Hfirst in Hstep. by injection Hstep as _ <-. }
      destruct (capacity_respected c (scanStart r).1 (scanStart r).2 r0 s0)
        as (_ & Hcap0 & Hcap0');
        [done | done | simpl; lia | simpl; lia | exact Hstep |].
      assert (0 <= batchesTotal s0) as Hn0 by lia.
      destruct (scan_capacity rest r0 s0 r1 s1 Hscale Hcap0' Hn0 Hcap0 Hrun)
        as (Hn & Hcap1 & Hcap1').
      cbn [length]. split_and!; try done; lia. }
  do 3 (split; [done|]).
  intros c r2 s2 Hstep. split.
  - intros i Hi Hi'. by eapply scanStep_writes.
  - by destruct (capacity_respected _ _ _ _ _ Hscale Hcap1' Hn0 Hcap1 Hstep)
      as (_ & ? & _).
Qed.

Lemma batchesFrom_tiles cmds : ∀ cur prev,
  tiles (offset cur) (batchesFrom cur prev cmds).
Proof.
  induction cmds as [|c cmds IH]; intros cur prev; simpl.
  - done.
  - destruct (merges prev c).
    + apply (IH (mkBatch (Some c) (indicesToDraw cur + indexCount c) (offset cur))).
    + split; [done|].
      apply (IH (mkBatch (Some c) (indexCount c) (offset cur + indicesToDraw cur))).
Qed.

Lemma batchesFrom_length cmds : ∀ cur prev,
  (1 <= length (batchesFrom cur prev cmds) <= 1 + length cmds)%nat.
Proof.
  induction cmds as [|c cmds IH]; intros cur prev; simpl; [lia|].
  destruct (merges prev c); simpl.
  - specialize (IH (mkBatch (Some c) (indicesToDraw cur + indexCount c) (offset cur))
                  (effectiveMaterial c)). lia.
  - specialize (IH (mkBatch (Some c) (indexCount c) (offset cur + indicesToDraw cur))
                  (effectiveMaterial c)). lia.
Qed.

(** X13. A flush that completes draws every staged index once and in order:
    the draw calls follow the two uploads, one call per batch; the ranges of
    the batches start at 0 and follow one another without a gap or an
    overlap, and their lengths add up to the number of indices staged. There
    are at most as many batches as pending commands, and at least one if any
    command is pending. [_drawnBatches] grows by the number of batches, and
    [_drawnVertices] by the number of indices drawn. Nothing is pending
    afterwards, so that a second flush changes nothing. *)
Theorem X13_flush_draws_each_index_once (r r' : Renderer) :
  flush r = Done r' →
  let q := _queuedTriangleCommands r in
  calls (gl r') = calls (gl r) ++ flushCalls q
  ∧ tiles 0 (batchesOf q)
  ∧ sumBatches (batchesOf q) = sumIndices q
  ∧ (length (batchesOf q) <= length q)%nat
  ∧ (q ≠ [] → batchesOf q ≠ [])
  ∧ _drawnBatches r' = _drawnBatches r + Z.of_nat (length (batchesOf q))
  ∧ _drawnVertices r' = _drawnVertices r + sumIndices q
  ∧ _queuedTriangleCommands r' = []
  ∧ flush r' = Done r'.
Proof.
  intros Hf q. split; [by apply flush_calls|].
  assert (tiles 0 (batchesOf q)) as Htiles.
  { destruct q as [|c rest]; [done|].
    apply (batchesFrom_tiles rest (mkBatch (Some c) (indexCount c) 0)). }
  assert ((length (batchesOf q) <= length q)%nat ∧ (q ≠ [] → batchesOf q ≠ []))
    as [Hlen Hne].
  { destruct q as [|c rest]; [done|]. simpl.
    pose proof (batchesFrom_length rest (mkBatch (Some c) (indexCount c) 0)
                  (effectiveMaterial c)).
    split; [lia|]. intros _. apply batchesFrom_nonempty. }
  split; [done|]. split; [apply sumBatches_batchesOf|].
  do 2 (split; [done|]).
  unfold flush, flush2D, flushTriangles in *.
  destruct (drawBatchedTriangles_cases r)
    as [[Hq Hd] | [(_ & _ & a & cap & Hd) | [_ Hd]]];
    rewrite Hd in Hf; [| |done]; injection Hf as <-.
  - unfold q. rewrite Hq. simpl. split_and!; try lia; done.
  - done.
Qed.

End BatchArray.

(** ** What a sweep draws *)

Section Tally.
Context `{Platform}.
Import Renderer.

Ltac tally_eq := repeat (apply (f_equal2 pair)); lia.

Lemma indicesOf_app l1 l2 : indicesOf (l1 ++ l2) = indicesOf l1 + indicesOf l2.
Proof.
  induction l1 as [|c l1 IH]; simpl; [done|]. destruct c; lia.
Qed.

Lemma drawnIndices_app l1 l2 :
  drawnIndices (l1 ++ l2) = drawnIndices l1 + drawnIndices l2.
Proof.
  induction l1 as [|c l1 IH]; simpl; [done|]. destruct c; lia.
Qed.

Lemma drawCount_app l1 l2 : drawCount (l1 ++ l2) = drawCount l1 + drawCount l2.
Proof.
  induction l1 as [|c l1 IH]; simpl; [done|]. destruct (isDraw c); lia.
Qed.

Lemma drawCalls_stats bs :
  Forall (fun b => is_Some (batch_cmd b)) bs →
  drawnIndices (drawCalls bs) = sumBatches bs
  ∧ drawCount (drawCalls bs) = Z.of_nat (length bs).
Proof.
  induction 1 as [|b bs [c Hc] _ [IH1 IH2]]; [done|].
  unfold drawCalls in *. cbn [flat_map]. rewrite Hc.
  rewrite drawnIndices_app, drawCount_app, IH1, IH2.
  cbn [length sumBatches foldr]. simpl. fold (sumBatches bs). lia.
Qed.

Lemma batchesOf_cmd q : Forall (fun b => is_Some (batch_cmd b)) (batchesOf q).
Proof.
  destruct q as [|c rest]; [constructor|]. by apply batchesFrom_cmd.
Qed.

Lemma flushCalls_stats q :
  drawnIndices (flushCalls q) = sumIndices q
  ∧ drawCount (flushCalls q) = Z.of_nat (length (batchesOf q)).
Proof.
  destruct q as [|c rest]; [done|].
  destruct (drawCalls_stats _ (batchesOf_cmd (c :: rest))) as [H1 H2].
  unfold flushCalls. rewrite drawnIndices_app, drawCount_app, H1, H2.
  rewrite sumBatches_batchesOf. simpl. lia.
Qed.

Lemma flush_tally r r' : flush r = Done r' → tally r' = tally r.
Proof.
  intros Hf. pose proof (flush_calls _ _ Hf) as Hcalls.
  destruct (flushCalls_stats (_queuedTriangleCommands r)) as [Hi Hc].
  unfold tally. rewrite Hcalls, drawnIndices_app, drawCount_app, Hi, Hc.
  unfold flush, flush2D, flushTriangles in Hf.
  destruct (drawBatchedTriangles_cases r)
    as [[Hq Hd] | [(_ & _ & a & cap & Hd) | [_ Hd]]];
    rewrite Hd in Hf; [| |done]; injection Hf as <-.
  - rewrite Hq. simpl. tally_eq.
  - simpl. tally_eq.
Qed.

Lemma stage_tally t r :
  tally (stageCommand t r) = advance (indexCount t) (tally r).
Proof.
  unfold tally, advance, stageCommand. simpl. rewrite sumIndices_app. simpl.
  tally_eq.
Qed.

Lemma execute_tally c r : tally (executeCommand c r) = tally r.
Proof.
  unfold tally, executeCommand, glCall. simpl.
  rewrite drawnIndices_app, drawCount_app. simpl. tally_eq.
Qed.

Lemma advance_0 t : advance 0 t = t.
Proof. destruct t as [[a b] c]. unfold advance. simpl. tally_eq. Qed.

Lemma advance_advance j k t : advance k (advance j t) = advance (j + k) t.
Proof. unfold advance. simpl. tally_eq. Qed.

Section WithFuel.
Variable n : nat.
Variable S : list (list (list RenderCommand)).

Hypothesis visit_tally_n : ∀ b rf rf',
  structure rf = S →
  visitRenderQueue n b rf = Done rf' →
  tally rf' = advance (indicesOf (submissionOrder n S b)) (tally rf).

Lemma process_tally c r r' :
  structure r = S →
  processRenderCommandWith (visitRenderQueue n) (Some c) r = Done r' →
  structure r' = S
  ∧ tally r' = advance (indicesOf (expandGroups n S [c])) (tally r).
Proof.
  intros HS Hrun.
  destruct c as [nm o | t | nm o b | nm o | nm o | nm o].
  - injection Hrun as <-. split; [done|]. by rewrite advance_0.
  - apply process_triangles_Done in Hrun as (r1 & Hr1 & ->).
    simpl. rewrite Z.add_0_r, stage_tally.
    change (structure (stageCommand t r1)) with (structure r1).
    destruct Hr1 as [-> | [[Hf _] | [Hf ->]]]; [done | | done].
    rewrite (flush_tally _ _ Hf).
    apply flush_frame in Hf as (HG & _). split; [|done].
    rewrite <- HS. by apply structure_groups.
  - unfold processRenderCommandWith in Hrun.
    apply bind_Done_inv in Hrun as (rf & Hf & Hv).
    pose proof (flush_tally _ _ Hf) as Ht.
    apply flush_frame in Hf as (HG & _).
    assert (structure rf = S) as HSf by (by rewrite <- HS; apply structure_groups).
    split.
    + rewrite <- HSf. by apply (visit_structure n b).
    + rewrite (visit_tally_n b rf r' HSf Hv), Ht. simpl.
      by rewrite app_nil_r.
  - unfold processRenderCommandWith in Hrun.
    apply bind_Done_inv in Hrun as (rf & Hf & [= <-]).
    rewrite execute_tally, (flush_tally _ _ Hf), advance_0.
    apply flush_frame in Hf as (HG & _). split; [|done].
    rewrite <- HS. by apply structure_groups.
  - unfold processRenderCommandWith in Hrun.
    apply bind_Done_inv in Hrun as (rf & Hf & [= <-]).
    rewrite execute_tally, (flush_tally _ _ Hf), advance_0.
    apply flush_frame in Hf as (HG & _). split; [|done].
    rewrite <- HS. by apply structure_groups.
  - unfold processRenderCommandWith in Hrun.
    apply bind_Done_inv in Hrun as (rf & Hf & [= <-]).
    rewrite execute_tally, (flush_tally _ _ Hf), advance_0.
    apply flush_frame in Hf as (HG & _). split; [|done].
    rewrite <- HS. by apply structure_groups.
Qed.

Lemma dispatch_tally cmds : ∀ r r',
  structure r = S →
  for_each (fun c => processRenderCommandWith (visitRenderQueue n) (Some c)) cmds r
  = Done r' →
  structure r' = S
  ∧ tally r' = advance (indicesOf (expandGroups n S cmds)) (tally r).
Proof.
  induction cmds as [|c cmds IH]; intros r r' HS Hrun.
  - injection Hrun as <-. split; [done|]. by rewrite advance_0.
  - cbn [for_each] in Hrun. apply bind_Done_inv in Hrun as (r1 & Hc & Hrun).
    destruct (process_tally c r r1 HS Hc) as [HS1 Ht1].
    destruct (IH r1 r' HS1 Hrun) as [HS2 Ht2].
    split; [done|].
    rewrite Ht2, Ht1, advance_advance, (expandGroups_cons n S c cmds), indicesOf_app.
    done.
Qed.

Lemma visitSubQueue_tally sub setup id r r' q :
  (∀ ra g, calls (setup ra g) = calls g) →
  structure r = S →
  _renderGroups r !! Z.to_nat id = Some q →
  visitSubQueue (visitRenderQueue n) sub setup id r = Done r' →
  structure r' = S
  ∧ tally r' = advance (indicesOf (expandGroups n S (sub q))) (tally r).
Proof.
  intros Hsetup HS Hq Hrun. unfold visitSubQueue in Hrun.
  apply bind_Done_inv in Hrun as (q' & Hq' & Hrun).
  apply at_Done in Hq' as [_ Hq']. rewrite Hq in Hq'. injection Hq' as <-.
  destruct (sub q) as [|c0 cmds] eqn:Hsub.
  { injection Hrun as <-. split; [done|]. by rewrite advance_0. }
  apply bind_Done_inv in Hrun as (r1 & Hloop & Hf).
  apply dispatch_tally in Hloop as [HS1 Ht1]; [|done].
  rewrite (flush_tally _ _ Hf), Ht1.
  apply flush_frame in Hf as (HG & _). split.
  - rewrite <- HS1. by apply structure_groups.
  - f_equal. unfold tally. simpl. by rewrite Hsetup.
Qed.

End WithFuel.

Lemma restore_calls q g : calls (RenderQueue.restoreRenderState q g) = calls g.
Proof. reflexivity. Qed.

Lemma visit_tally n : ∀ id r r',
  visitRenderQueue n id r = Done r' →
  tally r' = advance (indicesOf (submissionOrder n (structure r) id)) (tally r).
Proof.
  induction n as [|n IH]; intros id r r' Hrun; [done|].
  assert (∀ b rf rf',
            structure rf = structure r →
            visitRenderQueue n b rf = Done rf' →
            tally rf' = advance (indicesOf (submissionOrder n (structure r) b))
                          (tally rf)) as IH'.
  { intros b rf rf' <- Hv. by apply IH. }
  apply visit_Done_inv in Hrun
    as (q & r1 & r2 & r3 & r4 & r5 & q5 & Hid & Hq & H1 & H2 & H3 & H4 & H5 & Hq5 & ->).
  set (r0 := set_renderGroups _ r) in H1.
  assert (structure r0 = structure r) as S0 by (by apply structure_save).
  assert (∀ ra, structure ra = structure r →
                ∃ qa, _renderGroups ra !! Z.to_nat id = Some qa
                      ∧ _commands qa = _commands q) as Hlookup.
  { intros ra Sa. by apply (structure_lookup r). }
  destruct (Hlookup r0 S0) as (q0 & Hq0' & Hc0).
  destruct (visitSubQueue_tally n _ IH' GLOBALZ_NEG setup2D id r0 r1 q0
              ltac:(done) S0 Hq0' H1) as [S1 T1].
  destruct (Hlookup r1 S1) as (q1 & Hq1' & Hc1).
  destruct (visitSubQueue_tally n _ IH' OPAQUE_3D setupOpaque3D id r1 r2 q1
              ltac:(done) S1 Hq1' H2) as [S2 T2].
  destruct (Hlookup r2 S2) as (q2 & Hq2' & Hc2).
  destruct (visitSubQueue_tally n _ IH' TRANSPARENT_3D setupTransparent3D id r2 r3 q2
              ltac:(done) S2 Hq2' H3) as [S3 T3].
  destruct (Hlookup r3 S3) as (q3 & Hq3' & Hc3).
  destruct (visitSubQueue_tally n _ IH' GLOBALZ_ZERO setup2D id r3 r4 q3
              ltac:(done) S3 Hq3' H4) as [S4 T4].
  destruct (Hlookup r4 S4) as (q4 & Hq4' & Hc4).
  destruct (visitSubQueue_tally n _ IH' GLOBALZ_POS setup2D id r4 r5 q4
              ltac:(done) S4 Hq4' H5) as [S5 T5].
  change (tally (set_gl (RenderQueue.restoreRenderState q5 (gl r5)) r5))
    with (tally r5).
  rewrite T5, T4, T3, T2, T1, !advance_advance.
  change (tally r0) with (tally r). f_equal.
  cbn [submissionOrder]. unfold structure at 6.
  rewrite list_lookup_fmap, Hq. simpl.
  apply commands_inj in Hc0 as (E0 & _ & _ & _ & _).
  apply commands_inj in Hc1 as (_ & E1 & _ & _ & _).
  apply commands_inj in Hc2 as (_ & _ & E2 & _ & _).
  apply commands_inj in Hc3 as (_ & _ & _ & E3 & _).
  apply commands_inj in Hc4 as (_ & _ & _ & _ & E4).
  rewrite E0, E1, E2, E3, E4. unfold expandGroups.
  rewrite !flat_map_app, !indicesOf_app. simpl. lia.
Qed.

(** X14. A sweep that returns has drawn every index of every triangles
    command it dispatched, once: started with nothing pending, it adds to
    [_drawnVertices] the number of indices of the triangles commands of the
    queue and of the queues reached through its group commands, which is
    also the number of indices its draw calls draw; and it adds to
    [_drawnBatches] the number of its draw calls. *)
Theorem X14_sweep_draws_all (n : nat) (id : Z) (r r' : Renderer) :
  _queuedTriangleCommands r = [] →
  visitRenderQueue n id r = Done r' →
  ∃ new,
    calls (gl r') = calls (gl r) ++ new
    ∧ drawnIndices new = indicesOf (submissionOrder n (structure r) id)
    ∧ _drawnVertices r'
      = _drawnVertices r + indicesOf (submissionOrder n (structure r) id)
    ∧ _drawnBatches r' = _drawnBatches r + drawCount new.
Proof.
  intros Hq Hrun.
  destruct (visit_order n id r r' Hq Hrun) as (new & Hnew & _ & Hq').
  pose proof (visit_tally n id r r' Hrun) as Ht.
  unfold tally, advance in Ht. rewrite Hq, Hq', Hnew in Ht. simpl in Ht.
  rewrite drawnIndices_app, drawCount_app in Ht.
  injection Ht as Hv Hi Hb.
  exists new. split; [done|]. split_and!; lia.
Qed.

End Tally.

(** ** The indices in the staging array *)

Section StagedIndices.
Context `{Platform} {V M : Type}.
Variable transformPoint : M → V → V.
Import Staging.


Lemma poke_eq {A : Type} i (x : A) a : poke i x a i = x.
Proof. unfold poke. by rewrite Z.eqb_refl. Qed.

Lemma poke_ne {A : Type} i j (x : A) a : j ≠ i → poke i x a j = a j.
Proof. unfold poke. intros. by destruct (j =? i) eqn:E; [lia|]. Qed.

Lemma transformStep_inside (mv : M) (fv i : Z) (a : Z → V) :
  0 <= i + fv < VBO_SIZE →
  transformStep transformPoint mv fv i a
  = Done (poke (i + fv) (transformPoint mv (a (i + fv))) a).
Proof.
  intros Hi. unfold transformStep.
  rewrite (proj2 (Z.leb_le 0 (i + fv))) by lia.
  by rewrite (proj2 (Z.ltb_lt (i + fv) VBO_SIZE)) by lia.
Qed.

Lemma indexStep_inside (indices : list Z) (fv fi : Z) (i : nat) (x : Z)
    (a : Z → Z) :
  indices !! i = Some x → 0 <= fi + Z.of_nat i < INDEX_VBO_SIZE →
  indexStep indices fv fi (Z.of_nat i) a
  = Done (poke (fi + Z.of_nat i) (to_ushort (fv + x)) a).
Proof.
  intros Hx Hi. unfold indexStep. rewrite Nat2Z.id, Hx.
  rewrite (proj2 (Z.leb_le 0 (fi + Z.of_nat i))) by lia.
  by rewrite (proj2 (Z.ltb_lt (fi + Z.of_nat i) INDEX_VBO_SIZE)) by lia.
Qed.

(** The loop that transforms the vertices from [lo] on. *)
Lemma transform_loop (mv : M) (fv : Z) (n : nat) : ∀ (lo : Z) (a : Z → V),
  0 <= lo + fv → lo + fv + Z.of_nat n <= VBO_SIZE →
  ∃ a', for_each (transformStep transformPoint mv fv) (seqZ lo (Z.of_nat n)) a
        = Done a'
        ∧ ∀ k, a' k = if (lo + fv <=? k) && (k <? lo + fv + Z.of_nat n)
                      then transformPoint mv (a k) else a k.
Proof.
  induction n as [|n IH]; intros lo a Hlo Hhi.
  - exists a. split; [done|]. intros k.
    destruct (Z.leb_spec (lo + fv) k), (Z.ltb_spec k (lo + fv + Z.of_nat 0));
      simpl; try lia; done.
  - rewrite seqZ_cons by lia. cbn [for_each].
    rewrite transformStep_inside by lia. rewrite bind_Done.
    replace (Z.pred (Z.of_nat (S n))) with (Z.of_nat n) by lia.
    destruct (IH (Z.succ lo) (poke (lo + fv) (transformPoint mv (a (lo + fv))) a))
      as (a' & -> & Ha'); [lia | lia |].
    exists a'. split; [done|]. intros k. rewrite Ha'.
    destruct (decide (k = lo + fv)) as [->|Hk].
    + rewrite poke_eq.
      destruct (Z.leb_spec (Z.succ lo + fv) (lo + fv)),
        (Z.leb_spec (lo + fv) (lo + fv)),
        (Z.ltb_spec (lo + fv) (lo + fv + Z.of_nat (S n))); simpl; try lia; done.
    + rewrite poke_ne by done.
      destruct (Z.leb_spec (Z.succ lo + fv) k), (Z.leb_spec (lo + fv) k),
        (Z.ltb_spec k (Z.succ lo + fv + Z.of_nat n)),
        (Z.ltb_spec k (lo + fv + Z.of_nat (S n))); simpl; try lia; done.
Qed.

(** The loop that rebases the indices from position [lo] on. *)
Lemma index_store_loop (indices : list Z) (fv fi : Z) (n : nat) : ∀ (lo : nat) (a : Z → Z),
  (lo + n = length indices)%nat →
  0 <= fi → fi + Z.of_nat (length indices) <= INDEX_VBO_SIZE →
  ∃ a', for_each (indexStep indices fv fi) (seqZ (Z.of_nat lo) (Z.of_nat n)) a
        = Done a'
        ∧ (∀ k, k < fi + Z.of_nat lo → a' k = a k)
        ∧ (∀ j x, (lo <= j)%nat → indices !! j = Some x →
                  a' (fi + Z.of_nat j) = to_ushort (fv + x)).
Proof.
  induction n as [|n IH]; intros lo a Hlen Hfi Hhi.
  - exists a. split; [done|]. split; [done|].
    intros j x Hj Hx. apply lookup_lt_Some in Hx. lia.
  - rewrite seqZ_cons by lia. cbn [for_each].
    destruct (lookup_lt_is_Some_2 indices lo) as [x0 Hx0]; [lia|].
    rewrite (indexStep_inside _ _ _ _ x0) by (done || lia). rewrite bind_Done.
    replace (Z.pred (Z.of_nat (S n))) with (Z.of_nat n) by lia.
    replace (Z.succ (Z.of_nat lo)) with (Z.of_nat (S lo)) by lia.
    destruct (IH (S lo) (poke (fi + Z.of_nat lo) (to_ushort (fv + x0)) a))
      as (a' & -> & Hbelow & Hat); [lia | lia | lia |].
    exists a'. split; [done|]. split.
    + intros k Hk. rewrite Hbelow by lia. apply poke_ne. lia.
    + intros j x Hj Hx. destruct (decide (j = lo)) as [->|Hne].
      * rewrite Hbelow by lia. rewrite poke_eq. congruence.
      * apply Hat; [lia | done].
Qed.

(** One command staged. *)
Lemma fill_spec (cmd : @Payload V M) (s : @Staging.t V) :
  wellFormed cmd →
  0 <= _filledVertex s →
  _filledVertex s + vertexCount (command cmd) <= VBO_SIZE →
  0 <= _filledIndex s →
  _filledIndex s + indexCount (command cmd) <= INDEX_VBO_SIZE →
  ∃ s', fillVerticesAndIndices transformPoint cmd s = Done s'
        ∧ _filledVertex s' = _filledVertex s + vertexCount (command cmd)
        ∧ _filledIndex s' = _filledIndex s + indexCount (command cmd)
        ∧ (∀ k, k < _filledVertex s → _verts s' k = _verts s k)
        ∧ (∀ k, k < _filledIndex s → _indices s' k = _indices s k)
        ∧ (∀ i v, getVertices cmd !! i = Some v →
                  _verts s' (_filledVertex s + Z.of_nat i)
                  = transformPoint (getModelView cmd) v)
        ∧ (∀ j x, getIndices cmd !! j = Some x →
                  _indices s' (_filledIndex s + Z.of_nat j)
                  = to_ushort (_filledVertex s + x)).
Proof.
  intros (Hvc & Hic & _) Hfv Hfv' Hfi Hfi'.
  unfold fillVerticesAndIndices, memcpy.
  rewrite <- Hvc, <- Hic in *.
  set (fv := _filledVertex s) in *. set (fi := _filledIndex s) in *.
  set (nv := length (getVertices cmd)) in *.
  set (ni := length (getIndices cmd)) in *.
  rewrite (proj2 (Z.ltb_ge (Z.of_nat nv) 0)) by lia.
  rewrite (proj2 (Z.ltb_ge (Z.of_nat nv) (Z.of_nat nv))) by lia.
  rewrite (proj2 (Z.ltb_ge fv 0)) by lia.
  rewrite (proj2 (Z.ltb_ge VBO_SIZE (fv + Z.of_nat nv))) by lia.
  cbn [orb]. rewrite bind_Done.
  match goal with |- context [for_each _ _ ?a0] =>
    destruct (transform_loop (getModelView cmd) fv nv 0 a0) as (verts & -> & Hverts)
  end; [lia | lia |].
  rewrite bind_Done.
  destruct (index_store_loop (getIndices cmd) fv fi ni 0%nat (_indices s))
    as (indices & Hloop & Hbelow & Hat); [done | lia | lia |].
  change (Z.of_nat 0) with 0 in Hloop. rewrite Hloop, bind_Done.
  eexists. split; [reflexivity|]. cbn.
  split; [done|]. split; [done|]. split_and!.
  - intros k Hk. rewrite Hverts.
    rewrite (proj2 (Z.leb_gt (0 + fv) k)) by lia. cbn [andb].
    by rewrite (proj2 (Z.leb_gt fv k)) by lia.
  - intros k Hk. apply Hbelow. lia.
  - intros i v Hv. pose proof (lookup_lt_Some _ _ _ Hv). rewrite Hverts.
    rewrite (proj2 (Z.leb_le (0 + fv) (fv + Z.of_nat i))) by lia.
    rewrite (proj2 (Z.ltb_lt (fv + Z.of_nat i) (0 + fv + Z.of_nat nv))) by (unfold nv; lia).
    cbn [andb].
    rewrite (proj2 (Z.leb_le fv (fv + Z.of_nat i))) by lia.
    rewrite (proj2 (Z.ltb_lt (fv + Z.of_nat i) (fv + Z.of_nat nv))) by (unfold nv; lia).
    cbn [andb].
    replace (Z.to_nat (fv + Z.of_nat i - fv)) with i by lia. by rewrite Hv.
  - intros j x Hx. apply Hat; [lia | done].
Qed.

Lemma wellFormed_counts (cmds : list (@Payload V M)) :
  Forall wellFormed cmds →
  0 <= sumVertices (command <$> cmds) ∧ 0 <= sumIndices (command <$> cmds).
Proof.
  induction cmds as [|c rest IH]; intros Hwf; [done|].
  apply Forall_cons in Hwf as [(Hv & Hi & _) Hrest].
  specialize (IH Hrest). rewrite fmap_cons. unfold sumVertices, sumIndices in *.
  cbn [foldr]. lia.
Qed.

Lemma sums_cons (c : @Payload V M) (rest : list (@Payload V M)) :
  sumVertices (command <$> c :: rest)
  = vertexCount (command c) + sumVertices (command <$> rest)
  ∧ sumIndices (command <$> c :: rest)
    = indexCount (command c) + sumIndices (command <$> rest).
Proof. done. Qed.

(** The commands staged one after the other. *)
Lemma fill_all (cmds : list (@Payload V M)) : ∀ (s : @Staging.t V),
  VBO_SIZE <= 65536 →
  Forall wellFormed cmds →
  0 <= _filledVertex s →
  _filledVertex s + sumVertices (command <$> cmds) <= VBO_SIZE →
  0 <= _filledIndex s →
  _filledIndex s + sumIndices (command <$> cmds) <= INDEX_VBO_SIZE →
  ∃ s', for_each (fillVerticesAndIndices transformPoint) cmds s = Done s'
        ∧ _filledVertex s' = _filledVertex s + sumVertices (command <$> cmds)
        ∧ _filledIndex s' = _filledIndex s + sumIndices (command <$> cmds)
        ∧ (∀ k, k < _filledVertex s → _verts s' k = _verts s k)
        ∧ (∀ k, k < _filledIndex s → _indices s' k = _indices s k)
        ∧ ∀ pre cmd post (j : nat) x,
            cmds = pre ++ cmd :: post → getIndices cmd !! j = Some x →
            _indices s' (_filledIndex s + sumIndices (command <$> pre) + Z.of_nat j)
            = _filledVertex s + sumVertices (command <$> pre) + x
            ∧ ∃ v, getVertices cmd !! Z.to_nat x = Some v
                   ∧ _verts s' (_filledVertex s + sumVertices (command <$> pre) + x)
                     = transformPoint (getModelView cmd) v.
Proof.
  induction cmds as [|c rest IH]; intros s Hvbo Hwf Hfv Hfv' Hfi Hfi'.
  - exists s. simpl. split_and!; try done; try lia.
    intros pre cmd post j x Hpre. by destruct pre.
  - apply Forall_cons in Hwf as [Hc Hrest].
    pose proof (wellFormed_counts rest Hrest) as [Hsv Hsi].
    pose proof Hc as (Hvc & Hic & Hrange).
    destruct (sums_cons c rest) as [Ev Ei]. rewrite Ev in Hfv'. rewrite Ei in Hfi'.
    destruct (fill_spec c s Hc) as (s1 & Hrun1 & Hfv1 & Hfi1 & Hv1 & Hi1 & Hverts & Hidx);
      [lia | lia | lia | lia |].
    destruct (IH s1) as (s' & Hrun & Hfvs & Hfis & Hvs & His & Hall);
      [done | done | lia | lia | lia | lia |].
    exists s'. cbn [for_each]. rewrite Hrun1, bind_Done.
    split; [done|]. rewrite Ev, Ei.
    split; [lia|]. split; [lia|]. split_and!.
    + intros k Hk. rewrite Hvs by lia. by apply Hv1.
    + intros k Hk. rewrite His by lia. by apply Hi1.
    + intros pre cmd post j x Hpre Hx. destruct pre as [|c0 pre].
      * injection Hpre as <- <-. rewrite fmap_nil.
        change (sumIndices []) with 0. change (sumVertices []) with 0.
        rewrite !Z.add_0_r.
        pose proof (lookup_lt_Some _ _ _ Hx) as Hj.
        pose proof (Forall_lookup_1 _ _ _ _ Hrange Hx) as Hxr. simpl in Hxr.
        split.
        -- rewrite His by lia. rewrite (Hidx j x Hx).
           unfold to_ushort. apply Z.mod_small. lia.
        -- destruct (lookup_lt_is_Some_2 (getVertices c) (Z.to_nat x))
             as [v Hv]; [lia|].
           exists v. split; [done|]. rewrite Hvs by lia.
           rewrite <- (Hverts _ _ Hv). f_equal. lia.
      * injection Hpre as <- ->.
        destruct (sums_cons c pre) as [-> ->].
        destruct (Hall pre cmd post j x eq_refl Hx) as (Hi & v & Hv & Hvert).
        rewrite Hfv1, Hfi1 in *. split.
        -- etrans; [|etrans; [exact Hi|lia]]. f_equal. lia.
        -- exists v. split; [done|]. rewrite <- Hvert. f_equal. lia.
Qed.

(** X15. The staged indices point at the vertices their commands meant.
    When the commands of a scan are staged from the fill positions 0, with
    vertex and index totals within [VBO_SIZE] and [INDEX_VBO_SIZE] and at
    most 65536 vertices in the array: every copy and store stays inside the
    two arrays; the fill positions end at the totals; and the entry of
    [_indices] written for an index [x] of a command is the position of the
    command's block of vertices plus [x], without wrapping in the 16 bits of
    an entry, where [_verts] holds the command's vertex [x] transformed by
    the command's matrix, even after the commands behind it are staged. *)
Theorem X15_staged_indices_resolve (cmds : list (@Payload V M))
    (s : @Staging.t V) :
  VBO_SIZE <= 65536 →
  Forall wellFormed cmds →
  _filledVertex s = 0 → _filledIndex s = 0 →
  sumVertices (command <$> cmds) <= VBO_SIZE →
  sumIndices (command <$> cmds) <= INDEX_VBO_SIZE →
  ∃ s', for_each (fillVerticesAndIndices transformPoint) cmds s = Done s'
        ∧ _filledVertex s' = sumVertices (command <$> cmds)
        ∧ _filledIndex s' = sumIndices (command <$> cmds)
        ∧ ∀ pre cmd post (j : nat) x,
            cmds = pre ++ cmd :: post → getIndices cmd !! j = Some x →
            _indices s' (sumIndices (command <$> pre) + Z.of_nat j)
            = sumVertices (command <$> pre) + x
            ∧ ∃ v, getVertices cmd !! Z.to_nat x = Some v
                   ∧ _verts s' (sumVertices (command <$> pre) + x)
                     = transformPoint (getModelView cmd) v.
Proof.
  intros Hvbo Hwf Hfv Hfi Hsv Hsi.
  destruct (fill_all cmds s Hvbo Hwf) as (s' & Hrun & Hfv' & Hfi' & _ & _ & Hall);
    [lia | lia | lia | lia |].
  exists s'. rewrite Hfv, Hfi in *. split; [done|].
  split; [lia|]. split; [lia|].
  intros pre cmd post j x Hpre Hx.
  destruct (Hall pre cmd post j x Hpre Hx) as (Hi & v & Hv & Hvert).
  rewrite !Z.add_0_l in *. eauto.
Qed.

End StagedIndices.

Section StagedCounters.
Context `{Platform} {V M : Type}.
Variable transformPoint : M → V → V.

(** The fill positions of the staging arrays advance as those the renderer
    keeps. *)
Lemma fill_counters (cmd : @Staging.Payload V M) (s s' : @Staging.t V)
    (r : Renderer) :
  Staging.fillVerticesAndIndices transformPoint cmd s = Done s' →
  _filledVertex r = Staging._filledVertex s →
  _filledIndex r = Staging._filledIndex s →
  _filledVertex (Renderer.fillVerticesAndIndices (Staging.command cmd) r)
  = Staging._filledVertex s'
  ∧ _filledIndex (Renderer.fillVerticesAndIndices (Staging.command cmd) r)
    = Staging._filledIndex s'.
Proof.
  unfold Staging.fillVerticesAndIndices. intros Hrun Hv Hi.
  apply bind_Done_inv in Hrun as (? & _ & Hrun).
  apply bind_Done_inv in Hrun as (? & _ & Hrun).
  apply bind_Done_inv in Hrun as (? & _ & Hrun).
  injection Hrun as <-. simpl. by rewrite Hv, Hi.
Qed.

End StagedCounters.

(** * Properties of the GPU buffers *)

Section BufferProperties.
Import GLES2Buffer.
Variable BAKUP_BUFFER : Z.
Variable INDIRECT : Z.
Variable counterBits : Z.
Variable newGPUBuffer : GLES2GPUBuffer.
Hypothesis counterBits_nonneg : 0 <= counterBits.

Lemma counter_once (x s : Z) :
  0 <= x < 2 ^ counterBits →
  ((x + s) mod 2 ^ counterBits - s) mod 2 ^ counterBits = x.
Proof.
  intros Hx. rewrite Zminus_mod_idemp_l.
  replace (x + s - s) with x by lia. by apply Z.mod_small.
Qed.

Lemma counter_twice (x s : Z) :
  0 <= x < 2 ^ counterBits →
  ((((x + s) mod 2 ^ counterBits + s) mod 2 ^ counterBits - s)
     mod 2 ^ counterBits - s) mod 2 ^ counterBits = x.
Proof.
  intros Hx. rewrite Zminus_mod_idemp_l.
  replace (((x + s) mod 2 ^ counterBits + s) mod 2 ^ counterBits - s - s)
    with (((x + s) mod 2 ^ counterBits + s) mod 2 ^ counterBits - (s + s)) by lia.
  rewrite Zminus_mod_idemp_l.
  replace ((x + s) mod 2 ^ counterBits + s - (s + s))
    with ((x + s) mod 2 ^ counterBits + (s - (s + s))) by lia.
  rewrite Zplus_mod_idemp_l.
  replace (x + s + (s - (s + s))) with x by lia. by apply Z.mod_small.
Qed.

Lemma insert_last {A : Type} (h : list A) (x y : A) :
  <[length h := y]> (h ++ [x]) = h ++ [y].
Proof.
  rewrite <- (Nat.add_0_r (length h)). by rewrite insert_app_r.
Qed.

Lemma free_last (h : list Block) (bs : list (option Z)) :
  CC_FREE (length h) (h ++ [mkBlock true bs]) = Done (h ++ [mkBlock false bs]).
Proof.
  unfold CC_FREE. rewrite lookup_app_r by lia. rewrite Nat.sub_diag. simpl.
  f_equal. apply insert_last.
Qed.

Lemma live_blocks_free_last (h : list Block) (bs : list (option Z)) :
  List.filter alive (h ++ [mkBlock false bs]) = List.filter alive h.
Proof. rewrite List.filter_app. simpl. apply app_nil_r. Qed.


(** X16. [initialize] followed by [destroy] gives back what was taken. On a
    buffer without backup storage yet, [initialize] returns true; the stride
    is at least 1, also when [info.stride] is 0, and [_count] is the number
    of whole strides in [_size]. [destroy] then completes: the device's
    [buffer_size] is what it was before [initialize], whether or not backup
    storage was allocated; no block allocated in between is left live; both
    pointers are null; and a second [destroy] changes nothing. *)
Theorem X16_buffer_initialize_destroy (info : GFXBufferInfo) (b : t) (d : Device) :
  0 <= buffer_size d < 2 ^ counterBits →
  0 <= size info →
  _buffer b = None →
  (initialize BAKUP_BUFFER INDIRECT counterBits newGPUBuffer info b d).1 = true
  ∧ ∃ b1 d1,
      (initialize BAKUP_BUFFER INDIRECT counterBits newGPUBuffer info b d).2 = (b1, d1)
      ∧ 1 <= _stride b1
      ∧ _count b1 * _stride b1 <= _size b1 < (_count b1 + 1) * _stride b1
      ∧ ∃ b2 d2,
          destroy counterBits b1 d1 = Done (b2, d2)
          ∧ _buffer b2 = None ∧ gpu_buffer_ b2 = None
          ∧ buffer_size d2 = buffer_size d
          ∧ List.filter alive (heap d2) = List.filter alive (heap d)
          ∧ destroy counterBits b2 d2 = Done (b2, d2).
Proof.
  intros Hx Hsize Hb. unfold GLES2Buffer.initialize.
  assert (1 <= Z.max (stride info) 1) as Hstride by lia.
  assert (size info / Z.max (stride info) 1 * Z.max (stride info) 1 <= size info
          < (size info / Z.max (stride info) 1 + 1) * Z.max (stride info) 1)
    as Hcount.
  { pose proof (Z.mul_div_le (size info) (Z.max (stride info) 1)).
    pose proof (Z.mul_succ_div_gt (size info) (Z.max (stride info) 1)). lia. }
  destruct (negb (Z.land (flags info) BAKUP_BUFFER =? 0) && (0 <? size info)).
  - cbn. split; [done|]. do 2 eexists. split; [reflexivity|]. cbn.
    split; [done|]. split; [done|].
    unfold GLES2Buffer.destroy. cbn. rewrite free_last. cbn.
    do 2 eexists. split; [reflexivity|]. cbn.
    split; [done|]. split; [done|]. split; [by apply counter_twice|].
    split; [apply live_blocks_free_last | done].
  - cbn. rewrite Hb. split; [done|]. do 2 eexists. split; [reflexivity|]. cbn.
    split; [done|]. split; [done|].
    unfold GLES2Buffer.destroy. cbn.
    do 2 eexists. split; [reflexivity|]. cbn.
    split; [done|]. split; [done|]. split; [by apply counter_once | done].
Qed.

Lemma memcpy_dead dst offset src n h bs :
  h !! dst = Some (mkBlock false bs) → memcpy dst offset src n h = Undefined.
Proof. intros Hd. unfold memcpy, read. by rewrite Hd. Qed.

(** X17. [update] copies into the backup storage without a check of the
    range. With backup storage of [length bs] bytes, a copy of [n] bytes of
    [data] to [offset] that ends inside the storage writes exactly the bytes
    from [offset] to [offset + n], leaves the other bytes and the other
    blocks as they were, and hands [data], [offset] and [n] to the backend;
    a copy that ends beyond the storage is not refused: it writes outside
    the block. *)
Theorem X17_buffer_update (data : list Z) (offset n : Z) (b : t) (d : Device)
    (p : nat) (bs : list (option Z)) :
  _buffer b = Some p → heap d !! p = Some (mkBlock true bs) →
  0 <= offset → 0 <= n → n <= Z.of_nat (length data) →
  (offset + n <= Z.of_nat (length bs) →
   ∃ d' bs',
     update data offset n b d = Done d'
     ∧ heap d' !! p = Some (mkBlock true bs')
     ∧ length bs' = length bs
     ∧ (∀ i, (i < Z.to_nat n)%nat →
             bs' !! (Z.to_nat offset + i)%nat = Some (data !! i))
     ∧ (∀ i, (i < Z.to_nat offset)%nat ∨ (Z.to_nat (offset + n) <= i)%nat →
             bs' !! i = bs !! i)
     ∧ (∀ q, q ≠ p → heap d' !! q = heap d !! q)
     ∧ buffer_size d' = buffer_size d
     ∧ calls d'
       = calls d ++ [GLES2CmdFuncUpdateBuffer (gpu_buffer_ b) data offset n])
  ∧ (Z.of_nat (length bs) < offset + n →
     update data offset n b d = Undefined).
Proof.
  intros Hb Hp Hoff Hn Hdata. unfold update, memcpy, read. rewrite Hb, Hp.
  rewrite bind_Done, length_fmap.
  rewrite (proj2 (Z.ltb_ge (Z.of_nat (length data)) n)) by lia. cbn [orb].
  split.
  - intros Hin. rewrite (proj2 (Z.ltb_ge (Z.of_nat (length bs)) (offset + n))) by lia.
    rewrite bind_Done.
    set (bs' := take (Z.to_nat offset) bs ++ take (Z.to_nat n) (Some <$> data)
                ++ drop (Z.to_nat (offset + n)) bs).
    assert (length (take (Z.to_nat offset) bs) = Z.to_nat offset) as Ltake.
    { rewrite length_take. lia. }
    assert (length (take (Z.to_nat n) (Some <$> data)) = Z.to_nat n) as Ldata.
    { rewrite length_take, length_fmap. lia. }
    exists (call (GLES2CmdFuncUpdateBuffer (gpu_buffer_ b) data offset n)
              (set_heap (<[p := mkBlock true bs']> (heap d)) d)), bs'.
    split; [done|]. cbn. split_and!; try done.
    + apply list_lookup_insert_eq. by apply lookup_lt_Some in Hp.
    + unfold bs'. rewrite !length_app, Ltake, Ldata, length_drop. lia.
    + intros i Hi. unfold bs'.
      rewrite lookup_app_r by lia. rewrite Ltake.
      replace (Z.to_nat offset + i - Z.to_nat offset)%nat with i by lia.
      rewrite lookup_app_l by lia.
      rewrite lookup_take_lt by lia. rewrite list_lookup_fmap.
      destruct (lookup_lt_is_Some_2 data i) as [x ->]; [lia|]. done.
    + intros i [Hi|Hi]; unfold bs'.
      * rewrite lookup_app_l by lia. by rewrite lookup_take_lt by lia.
      * rewrite lookup_app_r by lia. rewrite lookup_app_r by lia.
        rewrite Ltake, Ldata, lookup_drop. f_equal. lia.
    + intros q Hq. by apply list_lookup_insert_ne.
  - intros Hout.
    by rewrite (proj2 (Z.ltb_lt (Z.of_nat (length bs)) (offset + n))) by lia.
Qed.

(** X18. [resize] of a buffer with backup storage releases the block it has
    just allocated. To a larger size, it completes with the new size and
    count and with the counter adjusted, but [_buffer] is left pointing at
    the new block, already released, the old block stays allocated, and the
    descriptor of the backend keeps the old pointer; every later [update]
    copies into the released block and [destroy] releases it a second time.
    To a smaller size, the old contents are copied beyond the end of the new
    block. Without backup storage, [resize] completes and only adjusts the
    size, the count and the counter. *)
Theorem X18_buffer_resize (size' : Z) (b : t) (d : Device) (gpu : GLES2GPUBuffer) :
  gpu_buffer_ b = Some gpu → _stride b ≠ 0 → 0 <= size' → size' ≠ _size b →
  (_buffer b = None →
   ∃ b' d',
     resize counterBits size' b d = Done (b', d')
     ∧ _size b' = size' ∧ _count b' = size' / _stride b
     ∧ _buffer b' = None ∧ heap d' = heap d
     ∧ buffer_size d'
       = ((buffer_size d - _size b) mod 2 ^ counterBits + size') mod 2 ^ counterBits)
  ∧ (∀ p bs,
       _buffer b = Some p → heap d !! p = Some (mkBlock true bs) →
       Z.of_nat (length bs) = _size b →
       (size' < _size b → resize counterBits size' b d = Undefined)
       ∧ (_size b < size' →
          ∃ b' d' p' bs',
            resize counterBits size' b d = Done (b', d')
            ∧ _size b' = size' ∧ _count b' = size' / _stride b
            ∧ _buffer b' = Some p' ∧ p' ≠ p
            ∧ heap d' !! p' = Some (mkBlock false bs')
            ∧ heap d' !! p = Some (mkBlock true bs)
            ∧ (gpu_buffer <$> gpu_buffer_ b') = Some (gpu_buffer gpu)
            ∧ (∀ data offset n, update data offset n b' d' = Undefined)
            ∧ destroy counterBits b' d' = Undefined)).
Proof.
  intros Hgpu Hstride Hsize Hne. unfold GLES2Buffer.resize.
  rewrite (proj2 (Z.eqb_neq (_size b) size')) by lia.
  rewrite (proj2 (Z.eqb_neq (_stride b) 0)) by lia.
  rewrite Hgpu. split.
  - intros Hb. rewrite Hb. do 2 eexists. split; [reflexivity|]. by cbn.
  - intros p bs Hb Hp Hlen. rewrite Hb.
    pose proof (lookup_lt_Some _ _ _ Hp) as Hlt.
    assert (∀ k : list Block → outcome (t * Device),
      (let '(p0, h) := CC_MALLOC size' (heap d) in
       read p h ≫= (λ src, memcpy p0 0 src (_size b) h ≫= (λ h0, CC_FREE p0 h0 ≫= k)))
      = if size' <? _size b then Undefined
        else k (heap d ++ [mkBlock false
                             (take (Z.to_nat (_size b)) bs
                              ++ drop (Z.to_nat (_size b))
                                   (replicate (Z.to_nat size') None))])) as Hsteps.
    { intros k. cbn. unfold read at 1. rewrite lookup_app_l by done.
      rewrite Hp, bind_Done.
      unfold memcpy, read. rewrite lookup_app_r by lia. rewrite Nat.sub_diag. cbn.
      rewrite length_replicate.
      rewrite (proj2 (Z.ltb_ge (Z.of_nat (length bs)) (_size b))) by lia. cbn [orb].
      destruct (Z.ltb_spec size' (_size b)) as [Hshrink|Hgrow].
      - by rewrite (proj2 (Z.ltb_lt (Z.of_nat (Z.to_nat size')) (0 + _size b))) by lia.
      - rewrite (proj2 (Z.ltb_ge (Z.of_nat (Z.to_nat size')) (0 + _size b))) by lia.
        rewrite bind_Done.
        rewrite insert_last.
        by rewrite free_last, bind_Done. }
    cbn in Hsteps |- *. split.
    + intros Hshrink. rewrite Hsteps.
      by rewrite (proj2 (Z.ltb_lt size' (_size b))) by lia.
    + intros Hgrow. do 4 eexists. split.
      { rewrite Hsteps. rewrite (proj2 (Z.ltb_ge size' (_size b))) by lia.
        reflexivity. }
      cbn. split; [done|]. split; [done|]. split; [done|]. split; [lia|].
      split.
      { rewrite lookup_app_r by lia. by rewrite Nat.sub_diag. }
      split; [by rewrite lookup_app_l|]. split; [done|]. split.
      * intros data offset n. unfold update. cbn.
        erewrite memcpy_dead; [done|].
        rewrite lookup_app_r by lia. by rewrite Nat.sub_diag.
      * unfold GLES2Buffer.destroy. cbn. unfold CC_FREE.
        rewrite lookup_app_r by lia. by rewrite Nat.sub_diag.
Qed.

End BufferProperties.

(** * Properties of the extension test *)

Section Extensions.
Import GLES3Device.

Lemma prefix_append (p s : string) :
  String.prefix p s = true ↔ ∃ after, s = (p +:+ after)%string.
Proof.
  revert s. induction p as [|a p IH]; intros s.
  - destruct s; simpl; (split; [eauto | done]).
  - destruct s as [|b s]; simpl; [split; [done | by intros [? ?]]|].
    destruct (Ascii.ascii_dec a b) as [->|Hne].
    + rewrite IH. split; intros [after Heq]; exists after.
      * by rewrite Heq.
      * by injection Heq.
    + split; [done|]. intros [after [= ? _]]. done.
Qed.

Lemma find_Some (s pattern : string) (n : nat) :
  find s pattern = Some n →
  ∃ before after, s = (before +:+ pattern +:+ after)%string
                  ∧ String.length before = n.
Proof.
  revert n. induction s as [|a s IH]; intros n; cbn [find].
  - destruct (String.prefix pattern "") eqn:Hp; [|done].
    intros [= <-]. apply prefix_append in Hp as [after Heq].
    exists ""%string, after. split; [exact Heq | done].
  - destruct (String.prefix pattern (String a s)) eqn:Hp.
    + intros [= <-]. apply prefix_append in Hp as [after Heq].
      exists ""%string, after. split; [exact Heq | done].
    + destruct (find s pattern) as [m|]; [|done]. intros [= <-].
      destruct (IH m eq_refl) as (before & after & -> & <-).
      by exists (String a before), after.
Qed.

Lemma find_None (s pattern : string) :
  find s pattern = None → ¬ occursIn pattern s.
Proof.
  induction s as [|a s IH]; cbn [find].
  - destruct (String.prefix pattern "") eqn:Hp; [done|]. intros _.
    intros (before & after & Heq). destruct before as [|? ?]; [|done].
    simpl in Heq. assert (String.prefix pattern "" = true); [|congruence].
    apply prefix_append. by exists after.
  - destruct (String.prefix pattern (String a s)) eqn:Hp; [done|].
    destruct (find s pattern) as [m|] eqn:Hf; [done|]. intros _.
    intros (before & after & Heq). destruct before as [|b before].
    + simpl in Heq.
      assert (String.prefix pattern (String a s) = true); [|congruence].
      apply prefix_append. by exists after.
    + injection Heq as _ ->. apply IH; [done|]. by exists before, after.
Qed.

(** [find] gives the lowest position. *)
Lemma find_lowest (s pattern : string) (n : nat) :
  find s pattern = Some n →
  ∀ before after, s = (before +:+ pattern +:+ after)%string →
                  (n <= String.length before)%nat.
Proof.
  revert n. induction s as [|a s IH]; intros n; cbn [find].
  - destruct (String.prefix pattern ""); [|done]. intros [= <-]. lia.
  - destruct (String.prefix pattern (String a s)) eqn:Hp; [intros [= <-]; lia|].
    destruct (find s pattern) as [m|]; [|done]. intros [= <-].
    intros before after Heq. destruct before as [|b before].
    + simpl in Heq.
      assert (String.prefix pattern (String a s) = true); [|congruence].
      apply prefix_append. by exists after.
    + injection Heq as _ ->. simpl. specialize (IH m eq_refl before after eq_refl).
      lia.
Qed.

Lemma find_occurs (s pattern : string) :
  find s pattern ≠ None ↔ occursIn pattern s.
Proof.
  split.
  - destruct (find s pattern) as [n|] eqn:Hf; [|done]. intros _.
    destruct (find_Some _ _ _ Hf) as (before & after & -> & _).
    by exists before, after.
  - intros Hocc Hf. by apply find_None in Hf.
Qed.

(** X19. [checkExtension] is a test for a substring: it is true exactly
    when the text asked for occurs somewhere in one of the device's
    extension strings, which need not be equal to it. So it is true for a
    name that is only the beginning of the name of an extension; for the
    empty text it is true exactly when the device has an extension; and
    with no extension it is false. *)
Theorem X19_checkExtension_substring (_extensions : list string)
    (extension : string) :
  (checkExtension _extensions extension = true
   ↔ ∃ e, e ∈ _extensions ∧ occursIn extension e)
  ∧ (∀ rest, checkExtension ((extension +:+ rest)%string :: _extensions) extension
             = true)
  ∧ (checkExtension _extensions "" = true ↔ _extensions ≠ [])
  ∧ checkExtension [] extension = false.
Proof.
  assert (∀ l x, checkExtension l x = true ↔ ∃ e, e ∈ l ∧ occursIn x e) as Hiff.
  { unfold checkExtension. intros l x. induction l as [|e l IH]; simpl.
    - split; [done|]. intros (e & He & _). by apply elem_of_nil in He.
    - destruct (bool_decide (find e x ≠ None)) eqn:Hd.
      + apply bool_decide_eq_true in Hd. apply find_occurs in Hd.
        split; [|done]. intros _. exists e. split; [by left | done].
      + apply bool_decide_eq_false in Hd. rewrite IH. split.
        * intros (e' & He' & Hocc). exists e'. split; [by right | done].
        * intros (e' & He' & Hocc). apply elem_of_cons in He' as [->|He'].
          -- exfalso. apply Hd. by apply find_occurs.
          -- by exists e'. }
  split; [apply Hiff|]. split_and!.
  - intros rest. apply Hiff. exists (extension +:+ rest)%string.
    split; [by left|]. by exists ""%string, rest.
  - rewrite Hiff. split.
    + intros (e & He & _) ->. by apply elem_of_nil in He.
    + intros Hne. destruct _extensions as [|e l]; [done|].
      exists e. split; [by left|]. by exists ""%string, e.
  - done.
Qed.

End Extensions.

(** ** The further properties at concrete inputs *)

Lemma X2_queues_admissible_witness :
  let reqs := [AddCommand (Custom 1 NaN); AddCommand (Custom 2 (Num (-3)));
               CreateRenderQueue; AddCommandTo (Triangles (quad 3 5 1 false)) 1] in
  ∃ r', lifetime reqs sample_renderer = Done (r', [1])
        ∧ Forall admissible (_renderGroups r')
        ∧ (GLOBALZ_ZERO <$> _renderGroups r') = [[Custom 1 NaN]; []].
Proof.
  intros reqs.
  destruct (lifetime reqs sample_renderer) as [[r' ids]| | |] eqn:Hrun;
    try (vm_compute in Hrun; discriminate Hrun).
  assert (ids = [1]) as ->.
  { vm_compute in Hrun. by injection Hrun as _ <-. }
  exists r'. split; [reflexivity|]. split.
  - apply (X2_queues_admissible reqs sample_renderer r' [1]); [|exact Hrun].
    apply new_admissible.
  - vm_compute in Hrun. injection Hrun as <-. reflexivity.
Defined.

Lemma X3_render_leaves_clean_witness :
  ∃ r', Renderer.render 3 sample_scene = Done r'
        ∧ length (_renderGroups r') = 2%nat
        ∧ Forall (fun q => RenderQueue.size q = 0) (_renderGroups r')
        ∧ _isRendering r' = false.
Proof.
  destruct (Renderer.render 3 sample_scene) as [r'| | |] eqn:Hrun;
    try (vm_compute in Hrun; discriminate Hrun).
  exists r'. split; [reflexivity|].
  destruct (X3_render_leaves_clean 3 sample_scene r' Hrun)
    as (Hlen & Hsize & _ & _ & _ & Hrendering & _).
  split; [exact Hlen|]. split; [exact Hsize | exact Hrendering].
Defined.

Lemma X4_render_only_from_root_witness :
  let r := set_renderGroups
             [emptyQueue; submit [Triangles (quad 1 0 1 false)] emptyQueue]
             sample_renderer in
  StdSortContract
  ∧ ∃ r', Renderer.render 1 r = Done r' ∧ calls (gl r') = [].
Proof.
  intros r. split; [exact sample_platform_contract|].
  destruct (@X4_render_only_from_root sample_platform sample_platform_contract
              0%nat r) as (r' & Hrun & Hgl & _).
  - right. exists emptyQueue. split; reflexivity.
  - exists r'. split; [exact Hrun|]. rewrite Hgl. reflexivity.
Defined.

Lemma X5_render_twice_witness :
  StdSortContract
  ∧ ∃ r1 r2, Renderer.render 3 sample_scene = Done r1
             ∧ Renderer.render 1 r1 = Done r2
             ∧ gl r2 = gl r1.
Proof.
  split; [exact sample_platform_contract|].
  destruct (Renderer.render 3 sample_scene) as [r1| | |] eqn:Hrun;
    try (vm_compute in Hrun; discriminate Hrun).
  destruct (@X5_render_twice sample_platform sample_platform_contract
              3%nat 0%nat sample_scene r1 Hrun) as (r2 & Hrun2 & Hgl & _).
  exists r1, r2. split; [reflexivity|]. split; [exact Hrun2 | exact Hgl].
Defined.

Lemma X6_group_bracket_witness :
  ∃ r', lifetime [PushGroup 0; AddCommand (Custom 1 (Num 2)); PopGroup]
          sample_renderer = Done (r', [])
        ∧ _commandGroupStack r' = [0]
        ∧ (GLOBALZ_POS <$> _renderGroups r') = [[Custom 1 (Num 2)]].
Proof.
  eexists. split.
  - rewrite (X6_group_bracket [Custom 1 (Num 2)] 0 sample_renderer eq_refl).
    reflexivity.
  - split; reflexivity.
Defined.

Lemma X7_queue_id_unchecked_witness :
  Renderer.addCommandTo (Custom 1 (Num 2)) 1 sample_renderer = Undefined
  ∧ Renderer.popGroup sample_renderer ≫= Renderer.addCommand (Custom 1 (Num 2))
    = Undefined.
Proof.
  destruct (X7_queue_id_unchecked (Custom 1 (Num 2)) 1 sample_renderer eq_refl)
    as (_ & Hout & _ & _ & Hpop); [discriminate|].
  split.
  - apply Hout. simpl. lia.
  - exact (Hpop 0 eq_refl).
Defined.

Lemma X8_group_dangling_witness :
  Renderer.processRenderCommand 1 (Some (Group 1 (Num 0) 5)) sample_renderer
  = Undefined.
Proof.
  apply (X8_group_dangling 0 1 (Num 0) 5 sample_renderer sample_renderer).
  - right. simpl. lia.
  - reflexivity.
Defined.

Lemma sample_scene_edge : groupEdge (structure sample_scene) 0 1.
Proof.
  split; [lia|].
  exists (_commands (submit [Triangles (quad 1 0 1 false); Group 2 (Num 0) 1;
                             Triangles (quad 3 0 1 false)] emptyQueue)),
    [Triangles (quad 1 0 1 false); Group 2 (Num 0) 1; Triangles (quad 3 0 1 false)],
    2%nat, (Num 0).
  split; [reflexivity|]. split.
  - unfold _commands. rewrite !elem_of_cons. do 3 right. left. reflexivity.
  - rewrite !elem_of_cons. tauto.
Qed.

Lemma X9_sweep_needs_targets_witness :
  ∃ r', Renderer.visitRenderQueue 3 0 sample_scene = Done r'
        ∧ 0 <= 1 < Z.of_nat (length (_renderGroups sample_scene))
        ∧ ¬ tc (groupEdge (structure sample_scene)) 1 1.
Proof.
  destruct (Renderer.visitRenderQueue 3 0 sample_scene) as [r'| | |] eqn:Hrun;
    try (vm_compute in Hrun; discriminate Hrun).
  exists r'. split; [reflexivity|].
  apply (X9_sweep_needs_targets 3 0 1 sample_scene r' Hrun).
  apply rtc_once, sample_scene_edge.
Defined.

Lemma sample_scene_admissible : Forall admissible (_renderGroups sample_scene).
Proof.
  repeat constructor; cbn; repeat constructor; discriminate.
Qed.

Lemma X10_render_completes_witness :
  StdSortContract ∧ ∃ r', Renderer.render 2 sample_scene = Done r'.
Proof.
  split; [exact sample_platform_contract|].
  apply (@X10_render_completes sample_platform sample_platform_contract
           sample_rank 2 sample_scene).
  - exact sample_scene_admissible.
  - exact sample_scene_ranked.
  - exact sample_scene_drawable.
  - split; reflexivity.
  - unfold withinCapacity. simpl. lia.
  - reflexivity.
  - discriminate.
  - unfold sample_rank. simpl. lia.
Defined.

Lemma X11_sweep_consumes_nothing_witness :
  ∃ r', Renderer.visitRenderQueue 3 0 sample_scene = Done r'
        ∧ (_commands <$> _renderGroups r') = (_commands <$> _renderGroups sample_scene)
        ∧ _queuedTriangleCommands r' = [].
Proof.
  destruct (Renderer.visitRenderQueue 3 0 sample_scene) as [r'| | |] eqn:Hrun;
    try (vm_compute in Hrun; discriminate Hrun).
  exists r'. split; [reflexivity|].
  destruct (X11_sweep_consumes_nothing 3 0 sample_scene r' Hrun)
    as (HS & _ & _ & _ & _ & _ & Hq).
  split; [exact HS | exact (Hq eq_refl)].
Defined.

Lemma X12_batch_array_bounds_witness :
  let cmds := [quad 1 0 1 false; quad 2 0 2 false; quad 3 0 2 false] in
  ∃ r1 s1, for_each Renderer.scanStep cmds (Renderer.scanStart sample_renderer)
           = Done (r1, s1)
           ∧ batchesTotal s1 + 1 <= 3
           ∧ batchesTotal s1 + 1 < _triBatchesToDrawCapacity r1.
Proof.
  intros cmds.
  destruct (for_each Renderer.scanStep cmds (Renderer.scanStart sample_renderer))
    as [[r1 s1]| | |] eqn:Hrun; try (vm_compute in Hrun; discriminate Hrun).
  exists r1, s1. split; [reflexivity|].
  destruct (X12_batch_array_bounds cmds sample_renderer r1 s1 sample_scale)
    as (_ & Hn & Hcap & _); [simpl; lia | exact Hrun |].
  split; [exact (Hn ltac:(discriminate)) | exact Hcap].
Defined.

Lemma X13_flush_draws_each_index_once_witness :
  let r := set_queuedTriangleCommands
             [quad 1 0 1 false; quad 2 0 1 false; quad 3 0 2 false]
             sample_renderer in
  ∃ r', Renderer.flush r = Done r'
        ∧ _drawnBatches r' = 2 ∧ _drawnVertices r' = 18.
Proof.
  intros r.
  destruct (Renderer.flush r) as [r'| | |] eqn:Hrun;
    try (vm_compute in Hrun; discriminate Hrun).
  exists r'. split; [reflexivity|].
  destruct (X13_flush_draws_each_index_once r r' Hrun)
    as (_ & _ & _ & _ & _ & Hb & Hv & _).
  split; [exact Hb | exact Hv].
Defined.

Lemma X14_sweep_draws_all_witness :
  ∃ r', Renderer.visitRenderQueue 3 0 sample_scene = Done r'
        ∧ _drawnVertices r' = 18 ∧ _drawnBatches r' = 3.
Proof.
  destruct (Renderer.visitRenderQueue 3 0 sample_scene) as [r'| | |] eqn:Hrun;
    try (vm_compute in Hrun; discriminate Hrun).
  exists r'. split; [reflexivity|].
  destruct (X14_sweep_draws_all 3 0 sample_scene r' eq_refl Hrun)
    as (new & Hnew & _ & Hv & Hb).
  split; [exact Hv|]. rewrite Hb.
  assert (new = calls (gl r')) as ->.
  { change (calls (gl sample_scene)) with (@nil GLCall) in Hnew. by rewrite Hnew. }
  vm_compute in Hrun. injection Hrun as <-. reflexivity.
Defined.

Lemma X15_staged_indices_resolve_witness :
  let square := Staging.mkPayload (quad 1 0 1 false) [10; 11; 12; 13]
                  [0; 1; 2; 2; 1; 3] 100 in
  let s0 := Staging.mkStaging (fun _ => 0) (fun _ => 0) 0 0 in
  ∃ s', for_each (Staging.fillVerticesAndIndices Z.add) [square; square] s0 = Done s'
        ∧ Staging._indices s' (6 + 5) = 4 + 3
        ∧ Staging._verts s' (4 + 3) = 100 + 13.
Proof.
  intros square s0.
  destruct (X15_staged_indices_resolve Z.add [square; square] s0)
    as (s' & Hrun & _ & _ & Hall).
  - simpl. lia.
  - repeat constructor; simpl; lia.
  - reflexivity.
  - reflexivity.
  - simpl. lia.
  - simpl. lia.
  - exists s'. split; [exact Hrun|].
    destruct (Hall [square] square [] 5%nat 3 eq_refl eq_refl) as (Hi & v & Hv & Hvert).
    split; [exact Hi|]. injection Hv as <-. exact Hvert.
Defined.

Lemma X16_buffer_initialize_destroy_witness :
  ∃ b1 d1 b2 d2,
    sample_buffer = (b1, d1)
    ∧ GLES2Buffer._stride b1 = 1
    ∧ GLES2Buffer.buffer_size d1 = 132
    ∧ GLES2Buffer.destroy 32 b1 d1 = Done (b2, d2)
    ∧ GLES2Buffer.buffer_size d2 = 100.
Proof.
  destruct (X16_buffer_initialize_destroy 4 64 32 sample_gpu ltac:(lia)
              sample_info fresh_buffer sample_device)
    as (_ & b1 & d1 & Hinit & _ & _ & b2 & d2 & Hdestroy & _ & _ & Hsize & _).
  - simpl. lia.
  - simpl. lia.
  - reflexivity.
  - exists b1, d1, b2, d2. split; [exact Hinit|].
    injection Hinit as <- <-.
    split; [reflexivity|]. split; [reflexivity|].
    split; [exact Hdestroy | exact Hsize].
Defined.

Lemma X17_buffer_update_witness :
  ∃ d', GLES2Buffer.update [7; 8; 9] 4 3 sample_buffer.1 sample_buffer.2 = Done d'
        ∧ (GLES2Buffer.bytes <$> GLES2Buffer.heap d' !! 0%nat)
          = Some (replicate 4 None ++ [Some 7; Some 8; Some 9] ++ replicate 9 None)
        ∧ GLES2Buffer.update [7; 8; 9] 14 3 sample_buffer.1 sample_buffer.2
          = Undefined.
Proof.
  destruct (X17_buffer_update [7; 8; 9] 4 3 sample_buffer.1 sample_buffer.2
              0%nat (replicate 16 None))
    as [Hin _]; [reflexivity | reflexivity | lia | lia | simpl; lia |].
  destruct Hin as (d' & bs' & Hrun & _); [simpl; lia|].
  exists d'. split; [exact Hrun|]. split.
  - vm_compute in Hrun. injection Hrun as <-. reflexivity.
  - destruct (X17_buffer_update [7; 8; 9] 14 3 sample_buffer.1 sample_buffer.2
                0%nat (replicate 16 None))
      as [_ Hout]; [reflexivity | reflexivity | lia | lia | simpl; lia |].
    apply Hout. simpl. lia.
Defined.

Lemma X18_buffer_resize_witness :
  GLES2Buffer.resize 32 8 sample_buffer.1 sample_buffer.2 = Undefined
  ∧ ∃ b' d', GLES2Buffer.resize 32 32 sample_buffer.1 sample_buffer.2 = Done (b', d')
             ∧ GLES2Buffer._buffer b' = Some 1%nat
             ∧ (GLES2Buffer.alive <$> GLES2Buffer.heap d') = [true; false]
             ∧ GLES2Buffer.destroy 32 b' d' = Undefined.
Proof.
  split.
  - destruct (X18_buffer_resize 32 8 sample_buffer.1 sample_buffer.2
                (GLES2Buffer.mkGPUBuffer 1 1 16 1 16 (Some 0%nat)))
      as [_ Hbackup]; [reflexivity | discriminate | lia | discriminate |].
    destruct (Hbackup 0%nat (replicate 16 None)) as [Hshrink _];
      [reflexivity | reflexivity | reflexivity |].
    apply Hshrink. simpl. lia.
  - destruct (X18_buffer_resize 32 32 sample_buffer.1 sample_buffer.2
                (GLES2Buffer.mkGPUBuffer 1 1 16 1 16 (Some 0%nat)))
      as [_ Hbackup]; [reflexivity | discriminate | lia | discriminate |].
    destruct (Hbackup 0%nat (replicate 16 None)) as [_ Hgrow];
      [reflexivity | reflexivity | reflexivity |].
    destruct Hgrow as (b' & d' & p' & bs' & Hrun & _ & _ & _ & _ & _ & _ & _ & _ & Hd);
      [simpl; lia|].
    exists b', d'. split; [exact Hrun|].
    split; [|split; [|exact Hd]];
      vm_compute in Hrun; injection Hrun as <- <-; reflexivity.
Defined.
